(** * Repair Tracker 2: the real-time synchronisation layer

    A shallow embedding of the three parts of the front end that keep
    the collections of the dashboard in step with the server,

    - the JIRA-style composite keys of [utils/keyUtils.js]
      ([parseJiraKey], [createJiraKey], [getIdFromKey]);
    - the two state updaters of the hook [useOrdersData], which
      reconcile a collection with an [update] or a [delete] message;
    - the class [WebSocketService] (connect, reconnect with backoff,
      the subscriber registry, send), run as a state machine over the
      events of the browser;

    and of what the orders page does with them,

    - the business-day count of [utils/dateUtils.js];
    - the order of the rows of [OrdersTable];
    - the submission of a new order ([SearchBox], [OrdersListPage],
      [addOrder] of [useOrdersData]);

    followed by the notions that the statements use and by the
    properties of the synchronisation layer and of the page.

    Conventions.  A JavaScript string is a [string], the sequence of
    its code units, each below 256.  An integer-valued JavaScript
    Number is the integer it denotes, in [Z]: the Numbers are the
    integers that [toNumber] leaves as they are (the doubles), among
    them every integer of the safe range (absolute value at most
    2^53 - 1), where record ids live.  Reading a run of digits rounds
    to the nearest Number, and printing a Number gives the shortest
    digits that identify it.  The integers that round to [Infinity]
    (from 2^1024 - 2^970 on) are outside the model.  [null],
    [undefined] and [NaN] results are [None]. *)

From Stdlib Require Import ZArith List String Ascii Bool Lia.
Import ListNotations.

Local Open Scope string_scope.
Local Open Scope Z_scope.

(* ================================================================== *)
(** ** The JavaScript built-ins the sources call *)
(* ================================================================== *)

Module JS.

(** [s.split('-')]: the segments of [s] between the separators; a
    string with [n] separators has [n + 1] segments, some maybe empty. *)
Fixpoint split (sep : ascii) (s : string) : list string :=
  match s with
  | EmptyString => [EmptyString]
  | String c rest =>
      if Ascii.eqb c sep then EmptyString :: split sep rest
      else match split sep rest with
           | [] => [String c EmptyString]
           | seg :: segs => String c seg :: segs
           end
  end.

(** The code units that [parseInt] skips in front of the number
    (WhiteSpace and LineTerminator, below 256): TAB, LF, VT, FF, CR,
    SP and NBSP. *)
Definition isWhiteSpace (c : ascii) : bool :=
  let n := nat_of_ascii c in
  (((9 <=? n) && (n <=? 13)) || (n =? 32) || (n =? 160))%nat.

Definition isDigit (c : ascii) : bool :=
  let n := nat_of_ascii c in ((48 <=? n) && (n <=? 57))%nat.

Definition digitValue (c : ascii) : Z := Z.of_nat (nat_of_ascii c) - 48.

Definition digitChar (d : Z) : ascii := ascii_of_nat (Z.to_nat (48 + d)).

Fixpoint trimStart (s : string) : string :=
  match s with
  | String c rest => if isWhiteSpace c then trimStart rest else s
  | EmptyString => s
  end.

(** The digit loop of [parseInt]: reads radix-10 digits until the first
    other code unit (or the end), [seen] telling whether one was read. *)
Fixpoint readDigits (s : string) (seen : bool) (acc : Z) : option Z :=
  match s with
  | String c rest =>
      if isDigit c then readDigits rest true (10 * acc + digitValue c)
      else if seen then Some acc else None
  | EmptyString => if seen then Some acc else None
  end.

(** The Number value of a mathematical integer: the nearest double,
    that is, the integer rounded to 53 significant bits, a tie going
    to the even significand. *)
Definition toNumber (n : Z) : Z :=
  let m := Z.abs n in
  if m <? 2 ^ 53 then n
  else
    let e := Z.log2 m - 52 in
    let q := m / 2 ^ e in
    let r := m mod 2 ^ e in
    let half := 2 ^ (e - 1) in
    let q' :=
      if r <? half then q
      else if half <? r then q + 1
      else if Z.even q then q else q + 1 in
    Z.sgn n * (q' * 2 ^ e).

(** [parseInt(s, 10)]: leading white space is dropped, one sign is
    accepted, then the longest run of digits is read; what follows the
    digits is ignored.  The result is the sign times the Number value
    of the integer that the digits denote.  [None] is [NaN].  (The
    standard lets an engine replace the digits after the twentieth
    significant one by zeros before it rounds; V8 rounds the integer
    itself, as here.) *)
Definition parseInt (s : string) : option Z :=
  match trimStart s with
  | String "-" rest =>
      option_map (fun m => - toNumber m) (readDigits rest false 0)
  | String "+" rest => option_map toNumber (readDigits rest false 0)
  | t => option_map toNumber (readDigits t false 0)
  end.

(** Decimal digits of a non-negative integer, most significant first. *)
Fixpoint digitsLoop (fuel : nat) (n : Z) (acc : string) : string :=
  match fuel with
  | O => acc
  | S fuel' =>
      let acc' := String (digitChar (n mod 10)) acc in
      if n <? 10 then acc' else digitsLoop fuel' (n / 10) acc'
  end.

Definition decimal (n : Z) : string :=
  digitsLoop (S (Z.to_nat (Z.log2 n))) n EmptyString.

Fixpoint dropTrailingZeros (rev_digits : string) : string :=
  match rev_digits with
  | String "0" rest => dropTrailingZeros rest
  | _ => rev_digits
  end.

Fixpoint revString (s acc : string) : string :=
  match s with
  | EmptyString => acc
  | String c rest => revString rest (String c acc)
  end.

(** Exponent notation [d.ddde+x] of [n >= 10^21]: the significant
    digits of [n], without its trailing zeros, and the exponent. *)
Definition exponential (n : Z) : string :=
  let ds := decimal n in
  let significant := revString (dropTrailingZeros (revString ds "")) "" in
  let x := decimal (Z.of_nat (String.length ds) - 1) in
  match significant with
  | String d EmptyString => String d ("e+" ++ x)
  | String d more => String d ("." ++ more ++ "e+" ++ x)
  | EmptyString => ds
  end.

(** The digits that [Number::toString] prints for a Number [x >= 0]
    are those of an integer [s * 10^j] whose Number value is [x], with
    as few digits [s] as possible and, among those, as close to [x]
    as possible (for equal distance the even [s]).  With [j] trailing
    zeros the integers to try are the multiple of [10^j] below [x]
    (or [x] itself) and the one above. *)
Definition shortestAt (x : Z) (j : nat) : option Z :=
  let p := 10 ^ Z.of_nat j in
  let lo := x / p * p in
  let hi := lo + p in
  match toNumber lo =? x, toNumber hi =? x with
  | true, true =>
      if x - lo <? hi - x then Some lo
      else if hi - x <? x - lo then Some hi
      else if Z.even (x / p) then Some lo else Some hi
  | true, false => Some lo
  | false, true => Some hi
  | false, false => None
  end.

(** The search goes from the most trailing zeros to none. *)
Fixpoint shortestFrom (j : nat) (x : Z) : Z :=
  match shortestAt x j with
  | Some c => c
  | None =>
      match j with
      | O => x
      | S j' => shortestFrom j' x
      end
  end.

Definition shortest (x : Z) : Z :=
  shortestFrom (String.length (decimal x) - 1) x.

(** [String(n)], as in a template literal [`${n}`], of an
    integer-valued Number [n]: the shortest digits that identify it,
    followed by zeros, below [10^21] (in the safe range these are the
    digits of [n]), and in exponent notation from there on. *)
Definition numberToString (n : Z) : string :=
  let magnitude (m : Z) :=
    let c := shortest m in
    if c <? 10 ^ 21 then decimal c else exponential c in
  if n <? 0 then "-" ++ magnitude (- n) else magnitude n.

(** What a property read [o[k]] on an object literal gives: a value of
    the literal itself, a member that every object inherits from
    [Object.prototype] (a function or an object, truthy), or
    [undefined]. *)
Inductive property : Type :=
| Own (v : string)
| Inherited (name : string)
| Undefined.

(** The names that every object inherits from [Object.prototype]. *)
Definition objectPrototype : list string :=
  [ "constructor"; "hasOwnProperty"; "isPrototypeOf";
    "propertyIsEnumerable"; "toLocaleString"; "toString"; "valueOf";
    "__proto__"; "__defineGetter__"; "__defineSetter__";
    "__lookupGetter__"; "__lookupSetter__" ].

Fixpoint ownProperty (o : list (string * string)) (k : string)
  : option string :=
  match o with
  | [] => None
  | (k', v) :: o' => if String.eqb k' k then Some v else ownProperty o' k
  end.

Definition getProperty (o : list (string * string)) (k : string)
  : property :=
  match ownProperty o k with
  | Some v => Own v
  | None =>
      if existsb (String.eqb k) objectPrototype then Inherited k
      else Undefined
  end.

(** [String(v)] of an inherited member.  For [__proto__], the object
    [Object.prototype], the text is fixed.  For the functions the
    standard fixes the form, the word [function] in front and
    [[native code]] for the body, and leaves the spelling to the
    engine; this is the spelling of V8.  The properties below use the
    form only. *)
Definition inheritedToString (name : string) : string :=
  if String.eqb name "__proto__" then "[object Object]"
  else if String.eqb name "constructor"
       then "function Object() { [native code] }"
       else "function " ++ name ++ "() { [native code] }".

End JS.

(* ================================================================== *)
(** ** utils/keyUtils.js *)
(* ================================================================== *)

Module KeyUtils.
Import JS.

(** The object [{ type, id, prefix }] that [parseJiraKey] returns. *)
Record parsedKey : Type := mkParsedKey {
  type : property;
  id : Z;
  prefix : string
}.

Definition typeMap : list (string * string) :=
  [ ("AS", "assignee"); ("ST", "status"); ("UM", "unit_model");
    ("RO", "repair_order"); ("RU", "repair_unit") ].

Definition prefixMap : list (string * string) :=
  [ ("assignee", "AS"); ("status", "ST"); ("unit_model", "UM");
    ("repair_order", "RO"); ("repair_unit", "RU") ].

(** [parseJiraKey(key)] for a string [key]; [None] is [null]. *)
Definition parseJiraKey (key : string) : option parsedKey :=
  if String.eqb key "" then None
  else
    match split "-" key with
    | [prefix; idStr] =>
        match parseInt idStr with
        | None => None
        | Some id =>
            match getProperty typeMap prefix with
            | Undefined => None
            | type => Some (mkParsedKey type id prefix)
            end
        end
    | _ => None
    end.

(** [createJiraKey(type, id)]; [None] is [null]. *)
Definition createJiraKey (type : string) (id : Z) : option string :=
  match getProperty prefixMap type with
  | Undefined => None
  | Own prefix => Some (prefix ++ "-" ++ numberToString id)
  | Inherited name =>
      Some (inheritedToString name ++ "-" ++ numberToString id)
  end.

(** [getIdFromKey(key)]; [None] is [null]. *)
Definition getIdFromKey (key : string) : option Z :=
  match parseJiraKey key with
  | Some parsed => Some (id parsed)
  | None => None
  end.

End KeyUtils.

(* ================================================================== *)
(** ** The hook [useOrdersData]: the channel reconciler *)
(* ================================================================== *)

Module Reconciler.
Import KeyUtils.

(** A record of a collection (an order, a status): its numeric [id] and
    the rest of its fields, which the reconciler never reads. *)
Record entity : Type := mkEntity {
  id : Z;
  fields : string
}.

(** The messages of a data channel: [type] and [data]. *)
Inductive message : Type :=
| update (data : list entity)
| delete (data : list string).

(** [arr.findIndex(p)]: the first index whose element satisfies [p],
    or [-1]. *)
Fixpoint findIndexFrom {A : Type} (p : A -> bool) (arr : list A) (i : Z)
  : Z :=
  match arr with
  | [] => -1
  | x :: rest => if p x then i else findIndexFrom p rest (i + 1)
  end.

Definition findIndex {A : Type} (p : A -> bool) (arr : list A) : Z :=
  findIndexFrom p arr 0.

(** [arr[index] = v] for an index inside the array. *)
Fixpoint assign {A : Type} (arr : list A) (index : nat) (v : A) : list A :=
  match arr, index with
  | [], _ => []
  | _ :: rest, O => v :: rest
  | x :: rest, S index' => x :: assign rest index' v
  end.

(** The body of [ordersMessage.data.forEach(orderData => ...)]. *)
Definition upsert (newOrders : list entity) (orderData : entity)
  : list entity :=
  let index := findIndex (fun o => id o =? id orderData) newOrders in
  if index >=? 0 then assign newOrders (Z.to_nat index) orderData
  else newOrders ++ [orderData].

(** The updater passed to [setOrders] on an [update] message. *)
Definition applyUpdate (prevOrders data : list entity) : list entity :=
  fold_left upsert data prevOrders.

(** [keysToDelete.has(o.id)]: the set holds the decoded ids, and
    [null] for every key that did not decode. *)
Definition has (keysToDelete : list (option Z)) (v : Z) : bool :=
  existsb (fun k => match k with Some n => n =? v | None => false end)
          keysToDelete.

(** The updater passed to [setOrders] on a [delete] message. *)
Definition applyDelete (prevOrders : list entity) (data : list string)
  : list entity :=
  let keysToDelete := map getIdFromKey data in
  filter (fun o => negb (has keysToDelete (id o))) prevOrders.

(** One run of the effect on the channel's message. *)
Definition reconcile (prevOrders : list entity) (m : message)
  : list entity :=
  match m with
  | update data => applyUpdate prevOrders data
  | delete data => applyDelete prevOrders data
  end.

End Reconciler.

(* ================================================================== *)
(** ** The class [WebSocketService] *)
(* ================================================================== *)

Module WebSocketService.

Definition channel : Type := string.

(** A listener function, by identity. *)
Definition callback : Type := nat.

(** A transport made by [new WebSocket(wsUrl)]: the position of the
    call among all such calls. *)
Definition socketId : Type := nat.

(** JavaScript's [Map] and [Set], which iterate in insertion order. *)
Module Map.
Section WithValue.
Context {V : Type}.

Fixpoint get (k : channel) (m : list (channel * V)) : option V :=
  match m with
  | [] => None
  | (k', v) :: m' => if String.eqb k' k then Some v else get k m'
  end.

Definition has (k : channel) (m : list (channel * V)) : bool :=
  match get k m with Some _ => true | None => false end.

Fixpoint set (k : channel) (v : V) (m : list (channel * V))
  : list (channel * V) :=
  match m with
  | [] => [(k, v)]
  | (k', v') :: m' =>
      if String.eqb k' k then (k', v) :: m' else (k', v') :: set k v m'
  end.

Definition delete (k : channel) (m : list (channel * V))
  : list (channel * V) :=
  filter (fun entry => negb (String.eqb (fst entry) k)) m.

Definition keys (m : list (channel * V)) : list channel := map fst m.
End WithValue.
End Map.

Module CallbackSet.
Definition has (x : callback) (s : list callback) : bool :=
  existsb (Nat.eqb x) s.

Definition add (x : callback) (s : list callback) : list callback :=
  if has x s then s else s ++ [x].

Definition delete (x : callback) (s : list callback) : list callback :=
  filter (fun y => negb (Nat.eqb x y)) s.

Definition size (s : list callback) : Z := Z.of_nat (List.length s).
End CallbackSet.

(** The fields of the service object. *)
Record service : Type := mkService {
  ws : option socketId;
  websocketId : option string;
  connected : bool;
  subscribers : list (channel * list callback);
  reconnectAttempts : Z;
  maxReconnectAttempts : Z;
  reconnectDelay : Z
}.

(** [new WebSocketService()]. *)
Definition constructor : service :=
  mkService None None false [] 0 10 1000.

(** [WebSocket.readyState].  A transport is [CLOSED] once its [close]
    event has been delivered; until then a transport that is being
    closed, or whose connection has failed, is [CLOSING]. *)
Inductive readyState : Type := CONNECTING | OPEN | CLOSING | CLOSED.

(** Who called [connect()], hence what is chained on its promise: the
    application ([useWebSocket]'s effect), or the timer callback of
    [attemptReconnect], whose [then] re-subscribes. *)
Inductive caller : Type := Application | ReconnectTimer.

Inductive promiseState : Type := Pending | Fulfilled | Rejected.

(** A transport together with the promise of the [connect()] call
    that made it, whose handlers close over [resolve] and [reject]. *)
Record socket : Type := mkSocket {
  state : readyState;
  origin : caller;
  promise : promiseState
}.

(** The messages the service sends, before [JSON.stringify]. *)
Inductive frame : Type :=
| subscribeFrame (channels : list channel)
| updateFrame (ch : channel) (data : list string)
| deleteFrame (ch : channel) (keys : list string).

(** A timer set by [setTimeout]: its delay in milliseconds, and
    whether it has fired. *)
Record timer : Type := mkTimer {
  delay : Z;
  fired : bool
}.

(** What the service acts on besides its own fields: the transports
    opened so far, the frames handed to an open transport (with the
    transport), the timers set so far, the console, and the listener
    invocations (with the channel of the message). *)
Record browser : Type := mkBrowser {
  sockets : list socket;
  wire : list (socketId * frame);
  timers : list timer;
  console : list string;
  invoked : list (callback * channel)
}.

Record world : Type := mkWorld {
  this : service;
  env : browser
}.

Definition initial : world :=
  mkWorld constructor (mkBrowser [] [] [] [] []).

(** *** Field updates *)

Definition setWs (v : option socketId) (w : world) : world :=
  let s := this w in
  mkWorld (mkService v (websocketId s) (connected s) (subscribers s)
             (reconnectAttempts s) (maxReconnectAttempts s)
             (reconnectDelay s)) (env w).

Definition setWebsocketId (v : option string) (w : world) : world :=
  let s := this w in
  mkWorld (mkService (ws s) v (connected s) (subscribers s)
             (reconnectAttempts s) (maxReconnectAttempts s)
             (reconnectDelay s)) (env w).

Definition setConnected (v : bool) (w : world) : world :=
  let s := this w in
  mkWorld (mkService (ws s) (websocketId s) v (subscribers s)
             (reconnectAttempts s) (maxReconnectAttempts s)
             (reconnectDelay s)) (env w).

Definition setSubscribers (v : list (channel * list callback)) (w : world)
  : world :=
  let s := this w in
  mkWorld (mkService (ws s) (websocketId s) (connected s) v
             (reconnectAttempts s) (maxReconnectAttempts s)
             (reconnectDelay s)) (env w).

Definition setReconnectAttempts (v : Z) (w : world) : world :=
  let s := this w in
  mkWorld (mkService (ws s) (websocketId s) (connected s) (subscribers s)
             v (maxReconnectAttempts s) (reconnectDelay s)) (env w).

Definition setSockets (v : list socket) (w : world) : world :=
  let b := env w in
  mkWorld (this w)
    (mkBrowser v (wire b) (timers b) (console b) (invoked b)).

Definition setWire (v : list (socketId * frame)) (w : world) : world :=
  let b := env w in
  mkWorld (this w)
    (mkBrowser (sockets b) v (timers b) (console b) (invoked b)).

Definition setTimers (v : list timer) (w : world) : world :=
  let b := env w in
  mkWorld (this w)
    (mkBrowser (sockets b) (wire b) v (console b) (invoked b)).

Definition log (line : string) (w : world) : world :=
  let b := env w in
  mkWorld (this w)
    (mkBrowser (sockets b) (wire b) (timers b) (console b ++ [line])
       (invoked b)).

Definition invoke (calls : list (callback * channel)) (w : world) : world :=
  let b := env w in
  mkWorld (this w)
    (mkBrowser (sockets b) (wire b) (timers b) (console b)
       (invoked b ++ calls)).

(** [arr[i] = f(arr[i])]. *)
Fixpoint adjust {A : Type} (i : nat) (f : A -> A) (arr : list A) : list A :=
  match arr, i with
  | [], _ => []
  | x :: rest, O => f x :: rest
  | x :: rest, S i' => x :: adjust i' f rest
  end.

Definition setState (v : readyState) (k : socket) : socket :=
  mkSocket v (origin k) (promise k).

Definition setPromise (v : promiseState) (k : socket) : socket :=
  mkSocket (state k) (origin k) v.

(** *** Methods

    A method body either returns or throws; what it did to the world
    before throwing stays done. *)
Inductive completion (A : Type) : Type :=
| Return (a : A) (w : world)
| Throw (error : string) (w : world).
Arguments Return {A} a w.
Arguments Throw {A} error w.

Definition worldOf {A : Type} (c : completion A) : world :=
  match c with Return _ w => w | Throw _ w => w end.

Definition bind {A B : Type} (m : world -> completion A)
  (f : A -> world -> completion B) : world -> completion B :=
  fun w =>
    match m w with
    | Return a w' => f a w'
    | Throw e w' => Throw e w'
    end.

Notation "m1 ;; m2" := (bind m1 (fun _ => m2))
  (at level 61, right associativity).

Definition ret {A : Type} (a : A) : world -> completion A :=
  fun w => Return a w.

Definition modify (f : world -> world) : world -> completion unit :=
  fun w => Return tt (f w).

(** [socket.send(data)] of the WebSocket API: throws while the
    transport is connecting, transmits when it is open, and discards
    the data when it is closing or closed. *)
Definition socketSend (t : socketId) (message : frame)
  : world -> completion unit :=
  fun w =>
    match nth_error (sockets (env w)) t with
    | Some k =>
        match state k with
        | CONNECTING => Throw "InvalidStateError" w
        | OPEN => Return tt (setWire (wire (env w) ++ [(t, message)]) w)
        | CLOSING | CLOSED => Return tt w
        end
    | None => Return tt w
    end.

(** [send(message)]. *)
Definition send (message : frame) : world -> completion unit :=
  fun w =>
    match ws (this w) with
    | Some t =>
        if connected (this w) then socketSend t message w
        else Return tt (log "WebSocket not connected" w)
    | None => Return tt (log "WebSocket not connected" w)
    end.

(** [subscribeToChannels(channels)], for one name or an array. *)
Definition subscribeToChannels (channels : channel + list channel)
  : world -> completion unit :=
  let channelArray :=
    match channels with inl c => [c] | inr cs => cs end in
  send (subscribeFrame channelArray).

(** [unsubscribe(channel, callback)]. *)
Definition unsubscribe (ch : channel) (cb : callback)
  : world -> completion unit :=
  fun w =>
    match Map.get ch (subscribers (this w)) with
    | Some callbacks =>
        let callbacks' := CallbackSet.delete cb callbacks in
        let w' :=
          setSubscribers (Map.set ch callbacks' (subscribers (this w))) w in
        if CallbackSet.size callbacks' =? 0
        then Return tt
               (setSubscribers (Map.delete ch (subscribers (this w'))) w')
        else Return tt w'
    | None => Return tt w
    end.

(** [subscribe(channel, callback)]; the function it returns calls
    [unsubscribe(channel, callback)], and is given here by the two
    values it closes over. *)
Definition subscribe (ch : channel) (cb : callback)
  : world -> completion (channel * callback) :=
  (fun w =>
     if negb (Map.has ch (subscribers (this w)))
     then (modify (setSubscribers (Map.set ch [] (subscribers (this w))))
           ;; subscribeToChannels (inl ch)) w
     else Return tt w)
  ;; (fun w =>
        let callbacks :=
          match Map.get ch (subscribers (this w)) with
          | Some callbacks => callbacks
          | None => []
          end in
        Return tt
          (setSubscribers
             (Map.set ch (CallbackSet.add cb callbacks)
                (subscribers (this w))) w))
  ;; ret (ch, cb).

(** [sendUpdate(channel, data)] and [sendDelete(channel, keys)]; the
    objects of [data] are given by their texts. *)
Definition sendUpdate (ch : channel) (data : list string)
  : world -> completion unit :=
  send (updateFrame ch data).

Definition sendDelete (ch : channel) (keys : list string)
  : world -> completion unit :=
  send (deleteFrame ch keys).

(** [connect()]: the executor of the promise runs at once; it makes a
    transport, stores it in [this.ws] and installs the four handlers.
    The promise is the new transport's. *)
Definition connect (who : caller) (w : world) : world :=
  let t := List.length (sockets (env w)) in
  setWs (Some t)
    (setSockets (sockets (env w) ++ [mkSocket CONNECTING who Pending]) w).

(** [attemptReconnect()], up to the [setTimeout] call. *)
Definition attemptReconnect (w : world) : world :=
  if reconnectAttempts (this w) >=? maxReconnectAttempts (this w)
  then log "Max reconnection attempts reached" w
  else
    let w1 := setReconnectAttempts (reconnectAttempts (this w) + 1) w in
    let delay :=
      reconnectDelay (this w1) * 2 ^ (reconnectAttempts (this w1) - 1) in
    let w2 := log "Attempting to reconnect" w1 in
    setTimers (timers (env w2) ++ [mkTimer delay false]) w2.

(** The [then] and [catch] that [attemptReconnect] chains on the
    promise of its [connect()] call. *)
Definition reconnected (w : world) : world :=
  let channels := Map.keys (subscribers (this w)) in
  if (Z.of_nat (List.length channels) >? 0)
  then match subscribeToChannels (inr channels) w with
       | Return _ w' => w'
       | Throw _ w' => log "Reconnection failed" w'
       end
  else w.

Definition reconnectionFailed (w : world) : world :=
  log "Reconnection failed" w.

(** [resolve()] and [reject(error)] settle a pending promise and run
    what is chained on it; on a settled promise they do nothing.  The
    application's own handlers ([useWebSocket]) touch React state
    only. *)
Definition resolve (t : socketId) (w : world) : world :=
  match nth_error (sockets (env w)) t with
  | Some k =>
      match promise k with
      | Pending =>
          let w' :=
            setSockets (adjust t (setPromise Fulfilled) (sockets (env w))) w
          in
          match origin k with
          | ReconnectTimer => reconnected w'
          | Application => w'
          end
      | _ => w
      end
  | None => w
  end.

Definition reject (t : socketId) (w : world) : world :=
  match nth_error (sockets (env w)) t with
  | Some k =>
      match promise k with
      | Pending =>
          let w' :=
            setSockets (adjust t (setPromise Rejected) (sockets (env w))) w
          in
          match origin k with
          | ReconnectTimer => reconnectionFailed w'
          | Application => w'
          end
      | _ => w
      end
  | None => w
  end.

(** [JSON.parse(data)] of an incoming text: not JSON, or an object
    with its [type], [channel] and [websocket_id] fields. *)
Inductive incoming : Type :=
| unparsable
| parsed (type : string) (ch : option channel)
    (websocket_id : option string).

(** [handleMessage(data)]. *)
Definition handleMessage (data : incoming) (w : world) : world :=
  match data with
  | unparsable => log "Error parsing WebSocket message" w
  | parsed type ch websocket_id =>
      if String.eqb type "connected"
      then log "WebSocket ID" (setWebsocketId websocket_id w)
      else
        match ch with
        | Some c =>
            if String.eqb c "" then w
            else
              let w' :=
                match Map.get c (subscribers (this w)) with
                | Some callbacks =>
                    invoke (map (fun cb => (cb, c)) callbacks) w
                | None => w
                end in
              if String.eqb c "__messages__"
              then log "WebSocket error message" w'
              else w'
        | None => w
        end
  end.

(** [close()]. *)
Definition close (w : world) : world :=
  match ws (this w) with
  | Some t =>
      let closing (k : socket) :=
        match state k with
        | CONNECTING | OPEN => setState CLOSING k
        | _ => k
        end in
      setSubscribers []
        (setWebsocketId None
           (setConnected false
              (setWs None
                 (setSockets (adjust t closing (sockets (env w))) w))))
  | None => w
  end.

(** *** The event loop

    What can happen to the service: a call from application code, an
    event of one of its transports, or a timer firing. *)
Inductive event : Type :=
| callConnect
| callSubscribe (ch : channel) (cb : callback)
| callUnsubscribe (ch : channel) (cb : callback)
| callSendUpdate (ch : channel) (data : list string)
| callSendDelete (ch : channel) (keys : list string)
| callClose
| onopen (t : socketId)
| onmessage (t : socketId) (data : incoming)
| onerror (t : socketId)
| onclose (t : socketId)
| timeout (i : nat).

Definition stateOf (t : socketId) (w : world) : option readyState :=
  option_map state (nth_error (sockets (env w)) t).

(** One turn of the event loop; [None] when the event cannot occur in
    this world: a transport opens only while connecting, delivers
    messages only while open, and is silent once closed; an error while
    connecting is the failure of the connection, after which only the
    [close] event is to come; a timer fires once. *)
Definition step (e : event) (w : world) : option world :=
  match e with
  | callConnect => Some (connect Application w)
  | callSubscribe ch cb => Some (worldOf (subscribe ch cb w))
  | callUnsubscribe ch cb => Some (worldOf (unsubscribe ch cb w))
  | callSendUpdate ch data => Some (worldOf (sendUpdate ch data w))
  | callSendDelete ch keys => Some (worldOf (sendDelete ch keys w))
  | callClose => Some (close w)
  | onopen t =>
      match stateOf t w with
      | Some CONNECTING =>
          let w1 :=
            setSockets (adjust t (setState OPEN) (sockets (env w))) w in
          let w2 := log "WebSocket connected" w1 in
          let w3 := setConnected true w2 in
          let w4 := setReconnectAttempts 0 w3 in
          Some (resolve t w4)
      | _ => None
      end
  | onmessage t data =>
      match stateOf t w with
      | Some OPEN => Some (handleMessage data w)
      | _ => None
      end
  | onerror t =>
      match stateOf t w with
      | Some CLOSED | None => None
      | Some _ =>
          let failed (k : socket) :=
            match state k with
            | CONNECTING => setState CLOSING k
            | _ => k
            end in
          let w1 := setSockets (adjust t failed (sockets (env w))) w in
          Some (reject t (log "WebSocket error" w1))
      end
  | onclose t =>
      match stateOf t w with
      | Some CLOSED | None => None
      | Some _ =>
          let w1 :=
            setSockets (adjust t (setState CLOSED) (sockets (env w))) w in
          let w2 := log "WebSocket closed" w1 in
          let w3 := setConnected false w2 in
          let w4 := setWebsocketId None w3 in
          Some (attemptReconnect w4)
      end
  | timeout i =>
      match nth_error (timers (env w)) i with
      | Some (mkTimer d false) =>
          let w1 :=
            setTimers (adjust i (fun _ => mkTimer d true) (timers (env w)))
              w in
          Some (connect ReconnectTimer w1)
      | _ => None
      end
  end.

Fixpoint run (trace : list event) (w : world) : option world :=
  match trace with
  | [] => Some w
  | e :: rest =>
      match step e w with
      | Some w' => run rest w'
      | None => None
      end
  end.

(** The worlds the singleton can be in. *)
Inductive reachable : world -> Prop :=
| reachable_initial : reachable initial
| reachable_step (e : event) (w w' : world) :
    reachable w -> step e w = Some w' -> reachable w'.

End WebSocketService.

(* ================================================================== *)
(** ** utils/dateUtils.js: business days *)
(* ================================================================== *)

Module DateUtils.
Import JS.

(** The time value of a [Date] object: the milliseconds since the
    epoch, or [None] for [NaN], the time value of an Invalid Date. *)
Definition date : Type := option Z.

Definition msPerDay : Z := 86400000.

(** [TimeClip]: a time value lies within 100,000,000 days of the
    epoch. *)
Definition TimeClip (t : Z) : date :=
  if Z.abs t <=? 8640000000000000 then Some t else None.

(** [Day(t)], the day number, and [WeekDay(t)], 0 for Sunday. *)
Definition Day (t : Z) : Z := t / msPerDay.

Definition WeekDay (t : Z) : Z := (Day t + 4) mod 7.

(** The civil date of a day number in the proleptic Gregorian
    calendar: [YearFromTime], [MonthFromTime] + 1 and [DateFromTime].
    The computation counts from 1 March of year 0, in eras of 400
    years (146097 days). *)
Definition civilFromDays (day : Z) : Z * Z * Z :=
  let z := day + 719468 in
  let era := z / 146097 in
  let doe := z - era * 146097 in
  let yoe := (doe - doe / 1460 + doe / 36524 - doe / 146096) / 365 in
  let doy := doe - (365 * yoe + yoe / 4 - yoe / 100) in
  let mp := (5 * doy + 2) / 153 in
  let d := doy - (153 * mp + 2) / 5 + 1 in
  let m := if mp <? 10 then mp + 3 else mp - 9 in
  let y := yoe + era * 400 in
  (if m <=? 2 then y + 1 else y, m, d).

Fixpoint zeros (n : nat) : string :=
  match n with
  | O => EmptyString
  | S n' => String "0" (zeros n')
  end.

(** [String(n).padStart(width, '0')] of a non-negative integer. *)
Definition padStart (width : nat) (n : Z) : string :=
  let digits := decimal n in
  zeros (width - String.length digits) ++ digits.

(** [d.toISOString().split('T')[0]]: the date part of the ISO text,
    [YYYY-MM-DD], with the year in the expanded form of six digits and
    a sign outside 0..9999. *)
Definition isoDateOf (t : Z) : string :=
  let '(y, m, d) := civilFromDays (Day t) in
  let year :=
    if (0 <=? y) && (y <=? 9999) then padStart 4 y
    else (if y <? 0 then "-" else "+") ++ padStart 6 (Z.abs y) in
  year ++ "-" ++ padStart 2 m ++ "-" ++ padStart 2 d.

(** [d.getUTCDay()] and [d.getUTCDate()] of a valid date. *)
Definition getUTCDay (t : Z) : Z := WeekDay t.

Definition getUTCDate (t : Z) : Z :=
  let '(_, _, d) := civilFromDays (Day t) in d.

(** [d.setUTCHours(hour, min, sec, ms)]: the time within the day is
    replaced, [MakeDate(Day(t), MakeTime(hour, min, sec, ms))]. *)
Definition setUTCHours (d : date) (hour min sec ms : Z) : date :=
  match d with
  | Some t =>
      TimeClip
        (Day t * msPerDay + (hour * 3600000 + min * 60000 + sec * 1000 + ms))
  | None => None
  end.

(** [d.setUTCDate(dt)]: day [dt] of the month of [d], counted on from
    the first of the month also past its end ([MakeDay] carries the
    excess into the following months), at the time of day of [d]. *)
Definition setUTCDate (d : date) (dt : Z) : date :=
  match d with
  | Some t =>
      let firstOfMonth := Day t - (getUTCDate t - 1) in
      TimeClip ((firstOfMonth + (dt - 1)) * msPerDay + t mod msPerDay)
  | None => None
  end.

(** [a <= b] on [Date] objects compares the time values, and is false
    when one of them is [NaN]. *)
Definition leq (a b : date) : bool :=
  match a, b with
  | Some x, Some y => x <=? y
  | _, _ => false
  end.

(** [holidaySet.has(isoDate)]. *)
Definition has (x : string) (holidaySet : list string) : bool :=
  existsb (String.eqb x) holidaySet.

(** The [while] loop of [calculateBusinessDays]; [None] when the fuel
    does not last until the loop ends. *)
Fixpoint countLoop (fuel : nat) (current end_ : date)
  (holidaySet : list string) (businessDays : Z) : option Z :=
  match fuel with
  | O => None
  | S fuel' =>
      match current with
      | Some t =>
          if leq current end_ then
            let dayOfWeek := getUTCDay t in
            let isoDate := isoDateOf t in
            let businessDays' :=
              if negb (dayOfWeek =? 0) && negb (dayOfWeek =? 6) &&
                 negb (has isoDate holidaySet)
              then businessDays + 1 else businessDays in
            countLoop fuel' (setUTCDate current (getUTCDate t + 1)) end_
              holidaySet businessDays'
          else Some businessDays
      | None => Some businessDays
      end
  end.

(** [calculateBusinessDays(startDate, endDate, holidaySet)], on the
    time values of [new Date(startDate)] and [new Date(endDate)]. *)
Definition calculateBusinessDays (fuel : nat) (startDate endDate : date)
  (holidaySet : list string) : option Z :=
  let current := setUTCHours startDate 0 0 0 0 in
  let end_ := setUTCHours endDate 0 0 0 0 in
  countLoop fuel current end_ holidaySet 0.

End DateUtils.

(* ================================================================== *)
(** ** components/tables/OrdersTable.jsx: the order of the rows *)
(* ================================================================== *)

Module OrdersTable.
Import Reconciler.

(** [arr.sort(compare)] is a stable sort: with a comparator that is
    consistent it yields the one arrangement of [arr] that is ordered
    by [compare] and keeps elements that compare equal in their
    original order.  Insertion from the right, an element going in
    front of the first one that it does not follow, computes it. *)
Fixpoint insert (compare : entity -> entity -> Z) (x : entity)
  (sorted : list entity) : list entity :=
  match sorted with
  | [] => [x]
  | y :: rest =>
      if compare x y <=? 0 then x :: sorted
      else y :: insert compare x rest
  end.

Definition sort (compare : entity -> entity -> Z) (arr : list entity)
  : list entity :=
  fold_right (insert compare) [] arr.

(** [[...orders].sort((a, b) => b.id - a.id)]. *)
Definition sortedOrders (orders : list entity) : list entity :=
  sort (fun a b => id b - id a) orders.

End OrdersTable.

(* ================================================================== *)
(** ** Adding an order: SearchBox, OrdersListPage and [addOrder] *)
(* ================================================================== *)

Module AddOrder.
Import JS WebSocketService.

(** [s.trimEnd()] and [s.trim()]. *)
Fixpoint trimEnd (s : string) : string :=
  match s with
  | EmptyString => EmptyString
  | String c rest =>
      match trimEnd rest with
      | EmptyString =>
          if isWhiteSpace c then EmptyString else String c EmptyString
      | kept => String c kept
      end
  end.

Definition trim (s : string) : string := trimEnd (trimStart s).

(** [addOrder(name)] of [useOrdersData], through the [sendUpdate] of
    [useWebSocket]: [sendUpdate('main:orders', [{ name }])].  The
    object [{ name }] is given by the text of its one field. *)
Definition addOrder (name : string) : world -> completion unit :=
  sendUpdate "main:orders" [name].

(** [handleAddOrder(name)] of [OrdersListPage], the [onAdd] of the
    search box. *)
Definition handleAddOrder (name : string) : world -> completion unit :=
  addOrder name.

(** [handleSubmit(e)] of [SearchBox] with the input holding [value]:
    what the input holds afterwards, and the completion of the
    handler.  [setValue('')] follows the call of [onAdd], and is not
    reached when that call throws. *)
Definition handleSubmit (value : string) (w : world)
  : string * completion unit :=
  match trim value with
  | EmptyString => (value, Return tt w)
  | name =>
      match handleAddOrder name w with
      | Return _ w' => (EmptyString, Return tt w')
      | Throw error w' => (value, Throw error w')
      end
  end.

End AddOrder.

(* ================================================================== *)
(** ** Notions used in the statements and in the proofs *)
(* ================================================================== *)

Module KeyNotions.
Import JS KeyUtils.

(** Every code unit of [s] is a decimal digit. *)
Fixpoint allDigits (s : string) : bool :=
  match s with
  | EmptyString => true
  | String c rest => isDigit c && allDigits rest
  end.

(** [s] holds no separator. *)
Fixpoint noDash (s : string) : bool :=
  match s with
  | EmptyString => true
  | String c rest => negb (Ascii.eqb c "-") && noDash rest
  end.

(** What the digit loop of [parseInt] has accumulated once it has read
    the digits that [digitsLoop] printed. *)
Fixpoint shifted (fuel : nat) (acc n : Z) : Z :=
  match fuel with
  | O => acc
  | S fuel' =>
      if n <? 10 then 10 * acc + n
      else 10 * shifted fuel' acc (n / 10) + n mod 10
  end.

(** [s] starts with a digit. *)
Definition digitLed (s : string) : bool :=
  match s with
  | String c _ => isDigit c
  | EmptyString => false
  end.

(** The texts in which [parseInt] finds a number: white space or
    none, a sign or none, and then a digit. *)
Definition numeric (s : string) : bool :=
  match trimStart s with
  | String c rest =>
      if Ascii.eqb c "-" || Ascii.eqb c "+" then digitLed rest
      else isDigit c
  | EmptyString => false
  end.

(** An integer that is a Number: the value of a double. *)
Definition isNumber (n : Z) : Prop := toNumber n = n.

(** [Number.MAX_SAFE_INTEGER]. *)
Definition maxSafeInteger : Z := 2 ^ 53 - 1.

(** The form of the text of a member inherited from
    [Object.prototype]: [[object Object]] for the prototype object,
    and for a function a text that starts with the word [function]. *)
Definition inheritedForm (text : string) : Prop :=
  text = "[object Object]" \/ String.prefix "function" text = true.

(** The five entity types, and the five prefixes. *)
Definition entityTypes : list string := map fst prefixMap.
Definition prefixes : list string := map fst typeMap.

(** Encoding [(type, id)] and decoding the result gives back [type]
    and [id]. *)
Definition roundTrips (type : string) (id : Z) : Prop :=
  exists key parsed,
    createJiraKey type id = Some key /\
    parseJiraKey key = Some parsed /\
    KeyUtils.type parsed = Own type /\
    KeyUtils.id parsed = id.

(** A letter, upper or lower case. *)
Definition isLetter (c : ascii) : bool :=
  let n := nat_of_ascii c in
  (((65 <=? n) && (n <=? 90)) || ((97 <=? n) && (n <=? 122)))%nat.

(** The shape [<2 letters>-<digits>] of a key, as section 8 of the
    specification words it: two letters, the separator, and one digit
    or more. *)
Definition matchesShape (s : string) : bool :=
  match split "-" s with
  | [String a (String b EmptyString); String d ds] =>
      isLetter a && isLetter b && allDigits (String d ds)
  | _ => false
  end.

End KeyNotions.

Module ReconcilerNotions.
Import Reconciler.

(** The last record of [l] that carries the id [i]. *)
Definition lastWithId (i : Z) (l : list entity) : option entity :=
  find (fun r => id r =? i) (rev l).

(** The distinct ids of [l], in the order in which they first occur. *)
Fixpoint firstSeen (seen : list Z) (l : list entity) : list Z :=
  match l with
  | [] => []
  | r :: rest =>
      if existsb (Z.eqb (id r)) seen then firstSeen seen rest
      else id r :: firstSeen (seen ++ [id r]) rest
  end.

(** [upsert] by recursion on the collection. *)
Fixpoint replaceOrAppend (c : list entity) (r : entity) : list entity :=
  match c with
  | [] => [r]
  | o :: rest =>
      if id o =? id r then r :: rest else o :: replaceOrAppend rest r
  end.

End ReconcilerNotions.

Module ServiceNotions.
Import WebSocketService.
Local Open Scope list_scope.

(** The delays passed to [setTimeout] so far, oldest first. *)
Definition scheduled (w : world) : list Z := map delay (timers (env w)).

(** The reconnection policy: the attempt counter, its ceiling and the
    base delay. *)
Definition policy (w : world) : Z * Z * Z :=
  (reconnectAttempts (this w), maxReconnectAttempts (this w),
   reconnectDelay (this w)).

(** [w'] has the transports, the timers and the policy of [w]. *)
Definition sameTransports (w w' : world) : Prop :=
  sockets (env w') = sockets (env w) /\
  timers (env w') = timers (env w) /\
  policy w' = policy w.

(** The promise of a transport that is still connecting is pending. *)
Definition promised (k : socket) : Prop :=
  state k = CONNECTING -> promise k = Pending.

(** What holds in every world the service can reach: the registry has
    one entry per channel, the ceiling and the base delay are those of
    the constructor, the counter lies between zero and the ceiling, and
    the promises of the connecting transports are pending. *)
Record invariant (w : world) : Prop := mkInvariant {
  inv_keys : NoDup (Map.keys (subscribers (this w)));
  inv_max : maxReconnectAttempts (this w) = 10;
  inv_delay : reconnectDelay (this w) = 1000;
  inv_attempts : 0 <= reconnectAttempts (this w) <= 10;
  inv_sockets : Forall promised (sockets (env w))
}.

(** The promise of the [connect()] call that opened transport [t],
    and who made the call. *)
Definition promiseOf (t : socketId) (w : world) : option promiseState :=
  option_map promise (nth_error (sockets (env w)) t).

Definition originOf (t : socketId) (w : world) : option caller :=
  option_map origin (nth_error (sockets (env w)) t).

(** A run of consecutive failures: the application connects, the
    transport opens and is lost, and then [k] reconnection attempts
    fail one after the other (the timer of attempt [j] fires, its
    transport, the [j]-th after the first, errors and closes). *)
Definition failedAttempt (j : nat) : list event :=
  [timeout (j - 1); onerror j; onclose j].

Definition failureRun (k : nat) : list event :=
  [callConnect; onopen 0%nat; onclose 0%nat] ++
  flat_map failedAttempt (seq 1 k).

(** The delays of the [k] attempts that follow attempt [c]. *)
Fixpoint delaysFrom (c : Z) (k : nat) : list Z :=
  match k with
  | O => []
  | S k' => 1000 * 2 ^ c :: delaysFrom (c + 1) k'
  end.

(** No transport opens in the trace. *)
Definition noOpen (trace : list event) : bool :=
  forallb (fun e => match e with onopen _ => false | _ => true end) trace.

(** The application calls [connect()] in the trace. *)
Definition callsConnect (trace : list event) : bool :=
  existsb (fun e => match e with callConnect => true | _ => false end) trace.

(** Nothing is in flight: every transport is closed and every timer
    has fired. *)
Definition quiescent (w : world) : bool :=
  forallb (fun k => match state k with CLOSED => true | _ => false end)
          (sockets (env w)) &&
  forallb fired (timers (env w)).

(** The reconnection attempts made so far have all failed: every timer
    has fired, and every transport that a timer opened is closed.  (A
    transport that the application opened may be in any state.) *)
Definition settled (k : socket) : bool :=
  match origin k, state k with
  | Application, _ => true
  | ReconnectTimer, CLOSED => true
  | ReconnectTimer, _ => false
  end.

Definition attemptsFailed (w : world) : bool :=
  forallb settled (sockets (env w)) && forallb fired (timers (env w)).

(** The listeners of a channel. *)
Definition listeners (ch : channel) (w : world) : list callback :=
  match Map.get ch (subscribers (this w)) with
  | Some callbacks => callbacks
  | None => []
  end.

End ServiceNotions.

Module RegistryNotions.
Import WebSocketService ServiceNotions.
Local Open Scope list_scope.

(** The channel on which [handleMessage] dispatches a message: none
    for a text that is not JSON, for the connection confirmation, and
    for a message without a (non-empty) [channel]. *)
Definition addressed (data : incoming) : option channel :=
  match data with
  | parsed type (Some c) _ =>
      if String.eqb type "connected" || String.eqb c "" then None
      else Some c
  | _ => None
  end.

(** The listener calls that a message gives rise to. *)
Definition dispatched (data : incoming) (w : world)
  : list (callback * channel) :=
  match addressed data with
  | Some c => map (fun cb => (cb, c)) (listeners c w)
  | None => []
  end.

(** What a turn of the event loop hands to a transport. *)
Definition sent (w w' : world) (frames : list (socketId * frame)) : Prop :=
  wire (env w') = wire (env w) ++ frames.

(** The transport that [send] hands a message to: the one [this.ws]
    refers to, when [this.connected] is set and the transport is open. *)
Definition openHandle (w : world) : option socketId :=
  match ws (this w) with
  | Some t =>
      match stateOf t w with
      | Some OPEN => if connected (this w) then Some t else None
      | _ => None
      end
  | None => None
  end.

(** The message that a turn of the event loop passes to [send]: the
    subscription of a channel that enters the registry, the data of
    [sendUpdate] and [sendDelete], and the re-subscription when a
    transport opened by the reconnection timer opens. *)
Definition requested (e : event) (w : world) : list frame :=
  match e with
  | callSubscribe ch _ =>
      if Map.has ch (subscribers (this w)) then []
      else [subscribeFrame [ch]]
  | callSendUpdate ch data => [updateFrame ch data]
  | callSendDelete ch keys => [deleteFrame ch keys]
  | onopen t =>
      match originOf t w, Map.keys (subscribers (this w)) with
      | Some ReconnectTimer, c :: cs => [subscribeFrame (c :: cs)]
      | _, _ => []
      end
  | _ => []
  end.

(** A transport that is not closed yet. *)
Definition alive (s : readyState) : bool :=
  match s with CLOSED => false | _ => true end.

(** One connection at a time: at most one transport is not closed, at
    most one reconnection timer is still to fire, never both at once;
    a transport that is connecting or open is the one [this.ws] refers
    to; and when [this.connected] is set, [this.ws] is an open
    transport. *)
Record single (w : world) : Prop := mkSingle {
  one_transport :
    forall t t' s s',
      stateOf t w = Some s -> stateOf t' w = Some s' ->
      alive s = true -> alive s' = true -> t = t';
  one_timer :
    forall i j d d',
      nth_error (timers (env w)) i = Some (mkTimer d false) ->
      nth_error (timers (env w)) j = Some (mkTimer d' false) -> i = j;
  transport_or_timer :
    forall t s i d,
      stateOf t w = Some s -> alive s = true ->
      nth_error (timers (env w)) i = Some (mkTimer d false) -> False;
  handle_current :
    forall t,
      stateOf t w = Some CONNECTING \/ stateOf t w = Some OPEN ->
      ws (this w) = Some t;
  connected_open :
    connected (this w) = true ->
    exists t, ws (this w) = Some t /\ stateOf t w = Some OPEN
}.

End RegistryNotions.

Module DateNotions.
Import DateUtils.
Local Open Scope list_scope.

(** A time value that [TimeClip] keeps. *)
Definition valid (t : Z) : Prop := Z.abs t <= 8640000000000000.

(** The day with number [day] is neither a Saturday nor a Sunday nor,
    by its ISO date, a holiday. *)
Definition workingDay (holidaySet : list string) (day : Z) : bool :=
  let t := day * msPerDay in
  negb (WeekDay t =? 0) && negb (WeekDay t =? 6) &&
  negb (has (isoDateOf t) holidaySet).

(** The [n] day numbers from [first] on. *)
Definition daysFrom (first : Z) (n : nat) : list Z :=
  map (fun i => first + Z.of_nat i) (seq 0 n).

(** The number of days from the day of [s] to the day of [e], both
    included; zero when [e] lies on an earlier day. *)
Definition span (s e : Z) : nat := Z.to_nat (Day e - Day s + 1).

End DateNotions.

Module TableNotions.
Import Reconciler.

(** Every record has a greater id than the records after it. *)
Fixpoint descending (rows : list entity) : Prop :=
  match rows with
  | [] => True
  | x :: rest => (forall y, In y rest -> id y < id x) /\ descending rest
  end.

End TableNotions.

Module AddOrderNotions.
Import JS.

Definition firstChar (s : string) : option ascii :=
  match s with
  | String c _ => Some c
  | EmptyString => None
  end.

Fixpoint lastChar (s : string) : option ascii :=
  match s with
  | EmptyString => None
  | String c EmptyString => Some c
  | String _ rest => lastChar rest
  end.

(** Every code unit of [s] is white space. *)
Fixpoint blank (s : string) : bool :=
  match s with
  | EmptyString => true
  | String c rest => isWhiteSpace c && blank rest
  end.

End AddOrderNotions.

(* ================================================================== *)
(** ** Decimal digits: printing and reading back *)
(* ================================================================== *)

Module JSFacts.
Import JS KeyNotions.

Lemma digit_cases (d : Z) :
  0 <= d < 10 ->
  d = 0 \/ d = 1 \/ d = 2 \/ d = 3 \/ d = 4 \/
  d = 5 \/ d = 6 \/ d = 7 \/ d = 8 \/ d = 9.
Proof. lia. Qed.

Ltac each_digit d H :=
  destruct (digit_cases d H) as
    [-> | [-> | [-> | [-> | [-> | [-> | [-> | [-> | [-> | ->]]]]]]]]].

Lemma isDigit_digitChar (d : Z) :
  0 <= d < 10 -> isDigit (digitChar d) = true.
Proof. intro H. each_digit d H; reflexivity. Qed.

Lemma digitValue_digitChar (d : Z) :
  0 <= d < 10 -> digitValue (digitChar d) = d.
Proof. intro H. each_digit d H; reflexivity. Qed.

Lemma digitChar_not_dash (d : Z) :
  0 <= d < 10 -> Ascii.eqb (digitChar d) "-" = false.
Proof. intro H. each_digit d H; reflexivity. Qed.

Lemma isDigit_not_dash (c : ascii) :
  isDigit c = true -> Ascii.eqb c "-" = false.
Proof.
  intro H. destruct (Ascii.eqb_spec c "-") as [-> | _]; [discriminate H | reflexivity].
Qed.

Lemma allDigits_noDash (s : string) : allDigits s = true -> noDash s = true.
Proof.
  induction s as [| c s IH]; simpl; [reflexivity |].
  intro H. apply andb_true_iff in H as [Hc Hs].
  rewrite (isDigit_not_dash c Hc), IH by assumption. reflexivity.
Qed.

Lemma split_noDash (s : string) : noDash s = true -> split "-" s = [s].
Proof.
  induction s as [| c s IH]; simpl; [reflexivity |].
  intro H. apply andb_true_iff in H as [Hc Hs].
  apply negb_true_iff in Hc. rewrite Hc, IH by assumption. reflexivity.
Qed.

Lemma split_app_dash (p d : string) :
  noDash p = true -> split "-" (p ++ String "-" d) = p :: split "-" d.
Proof.
  induction p as [| c p IH]; simpl; [reflexivity |].
  intro H. apply andb_true_iff in H as [Hc Hp].
  apply negb_true_iff in Hc. rewrite Hc, IH by assumption. reflexivity.
Qed.

Lemma log2_div10 (n : Z) : 10 <= n -> Z.log2 (n / 10) < Z.log2 n.
Proof.
  intro H.
  assert (Hle : Z.log2 (n / 10) <= Z.log2 (n / 2)).
  { apply Z.log2_le_mono. apply Z.div_le_compat_l; lia. }
  assert (Hhalf : Z.log2 (n / 2) = Z.log2 n - 1).
  { rewrite <- Z.div2_div, Z.div2_spec, Z.log2_shiftr by lia.
    assert (0 < Z.log2 n) by (apply Z.log2_pos; lia). lia. }
  lia.
Qed.

Lemma readDigits_digitsLoop (fuel : nat) :
  forall n rest seen acc,
    0 <= n -> (Z.to_nat (Z.log2 n) < fuel)%nat ->
    readDigits (digitsLoop fuel n rest) seen acc =
    readDigits rest true (shifted fuel acc n).
Proof.
  induction fuel as [| fuel IH]; intros n rest seen acc Hn Hfuel; [lia |].
  simpl. destruct (Z.ltb_spec n 10) as [Hlt | Hge].
  - simpl. rewrite Z.mod_small by lia.
    rewrite isDigit_digitChar, digitValue_digitChar by lia. reflexivity.
  - assert (Hmod : 0 <= n mod 10 < 10) by (apply Z.mod_pos_bound; lia).
    rewrite IH.
    + simpl. rewrite isDigit_digitChar, digitValue_digitChar by assumption.
      reflexivity.
    + apply Z.div_pos; lia.
    + pose proof (log2_div10 n Hge). pose proof (Z.log2_nonneg (n / 10)). lia.
Qed.

Lemma shifted_zero (fuel : nat) :
  forall n, 0 <= n -> (Z.to_nat (Z.log2 n) < fuel)%nat ->
            shifted fuel 0 n = n.
Proof.
  induction fuel as [| fuel IH]; intros n Hn Hfuel; [lia |].
  cbn [shifted]. destruct (Z.ltb_spec n 10) as [Hlt | Hge]; [lia |].
  rewrite IH.
  - pose proof (Z.div_mod n 10 ltac:(lia)). lia.
  - apply Z.div_pos; lia.
  - pose proof (log2_div10 n Hge). pose proof (Z.log2_nonneg (n / 10)). lia.
Qed.

Lemma allDigits_digitsLoop (fuel : nat) :
  forall n rest, 0 <= n -> allDigits rest = true ->
                 allDigits (digitsLoop fuel n rest) = true.
Proof.
  induction fuel as [| fuel IH]; intros n rest Hn Hrest; [exact Hrest |].
  assert (Hmod : 0 <= n mod 10 < 10) by (apply Z.mod_pos_bound; lia).
  simpl. destruct (n <? 10).
  - simpl. now rewrite isDigit_digitChar, Hrest.
  - apply IH; [apply Z.div_pos; lia |].
    simpl. now rewrite isDigit_digitChar, Hrest.
Qed.

Lemma allDigits_decimal (n : Z) : 0 <= n -> allDigits (decimal n) = true.
Proof. intro H. now apply allDigits_digitsLoop. Qed.

(** A printed number starts with a digit. *)
Lemma digitsLoop_head (fuel : nat) :
  forall n rest, 0 <= n ->
    (fuel <> O \/ exists c r, rest = String c r /\ isDigit c = true) ->
    exists c r, digitsLoop fuel n rest = String c r /\ isDigit c = true.
Proof.
  induction fuel as [| fuel IH]; intros n rest Hn Hor.
  - destruct Hor as [H | H]; [contradiction | exact H].
  - assert (Hmod : 0 <= n mod 10 < 10) by (apply Z.mod_pos_bound; lia).
    simpl. destruct (n <? 10).
    + eexists _, _. split; [reflexivity | now apply isDigit_digitChar].
    + apply IH; [apply Z.div_pos; lia |].
      right. eexists _, _. split; [reflexivity | now apply isDigit_digitChar].
Qed.

Lemma isDigit_not_space (c : ascii) : isDigit c = true -> isWhiteSpace c = false.
Proof.
  unfold isDigit, isWhiteSpace. intro H.
  apply andb_true_iff in H as [H1 H2].
  apply Nat.leb_le in H1. apply Nat.leb_le in H2.
  repeat match goal with
         | |- context [(?a <=? ?b)%nat] => destruct (Nat.leb_spec a b)
         | |- context [(?a =? ?b)%nat] => destruct (Nat.eqb_spec a b)
         end; simpl; try reflexivity; lia.
Qed.

(** *** Numbers *)

(** In the safe range every integer is a Number. *)
Lemma toNumber_safe (n : Z) : Z.abs n < 2 ^ 53 -> toNumber n = n.
Proof.
  intro H. unfold toNumber.
  destruct (Z.ltb_spec (Z.abs n) (2 ^ 53)); [reflexivity | lia].
Qed.

(** The significand of an integer of 54 bits or more. *)
Lemma significand_bounds (m : Z) :
  2 ^ 53 <= m ->
  let e := Z.log2 m - 52 in
  1 <= e /\ 0 < 2 ^ e /\ 2 ^ 52 <= m / 2 ^ e.
Proof.
  intros Hm e.
  assert (Hpos : 0 < m) by (pose proof (Z.pow_pos_nonneg 2 53); lia).
  assert (Hlog : 53 <= Z.log2 m) by (apply Z.log2_le_pow2; lia).
  destruct (Z.log2_spec m Hpos) as [Hlo _].
  assert (He : 1 <= e) by (subst e; lia).
  assert (Hp : 0 < 2 ^ e) by (apply Z.pow_pos_nonneg; lia).
  repeat split; try assumption.
  apply Z.div_le_lower_bound; [exact Hp |].
  rewrite <- Z.pow_add_r by lia.
  replace (e + 52) with (Z.log2 m) by (subst e; lia). exact Hlo.
Qed.

Lemma toNumber_large (m : Z) :
  2 ^ 53 <= m -> 2 ^ Z.log2 m <= toNumber m.
Proof.
  intro Hm. destruct (significand_bounds m Hm) as (He & Hp & Hq).
  assert (Hpos : 0 < m) by (pose proof (Z.pow_pos_nonneg 2 53); lia).
  unfold toNumber. rewrite Z.abs_eq by lia.
  destruct (Z.ltb_spec m (2 ^ 53)) as [Hlt | _]; [lia |].
  rewrite Z.sgn_pos by exact Hpos.
  set (e := Z.log2 m - 52) in *.
  set (q := m / 2 ^ e) in *.
  set (q' := if m mod 2 ^ e <? 2 ^ (e - 1) then q
             else if 2 ^ (e - 1) <? m mod 2 ^ e then q + 1
                  else if Z.even q then q else q + 1).
  assert (Hq' : q <= q')
    by (subst q'; repeat match goal with
                         | |- context [if ?b then _ else _] => destruct b
                         end; lia).
  replace (Z.log2 m) with (52 + e) by (subst e; lia).
  rewrite Z.pow_add_r by lia. nia.
Qed.

Lemma toNumber_nonneg (n : Z) : 0 <= n -> 0 <= toNumber n.
Proof.
  intro Hn. destruct (Z.lt_ge_cases n (2 ^ 53)) as [Hlt | Hge].
  - rewrite toNumber_safe; lia.
  - pose proof (toNumber_large n Hge).
    pose proof (Z.pow_nonneg 2 (Z.log2 n)). lia.
Qed.

(** From [10^21] on the Number value is [10^21] or more. *)
Lemma toNumber_ge_1e21 (c : Z) : 10 ^ 21 <= c -> 10 ^ 21 <= toNumber c.
Proof.
  intro Hc.
  assert (Hbig : 2 ^ 53 <= c) by lia.
  assert (Hlog : 69 <= Z.log2 c).
  { apply Z.log2_le_pow2; lia. }
  destruct (Z.eq_dec (Z.log2 c) 69) as [H69 | Hne].
  - destruct (significand_bounds c Hbig) as (He & Hp & Hq).
    unfold toNumber. rewrite Z.abs_eq by lia.
    destruct (Z.ltb_spec c (2 ^ 53)) as [Hlt | _]; [lia |].
    rewrite Z.sgn_pos by lia. rewrite H69 in *.
    change (69 - 52) with 17 in *.
    set (q := c / 2 ^ 17) in *.
    set (q' := if c mod 2 ^ 17 <? 2 ^ (17 - 1) then q
               else if 2 ^ (17 - 1) <? c mod 2 ^ 17 then q + 1
                    else if Z.even q then q else q + 1).
    assert (Hq' : q <= q')
      by (subst q'; repeat match goal with
                           | |- context [if ?b then _ else _] => destruct b
                           end; lia).
    assert (Hq0 : 10 ^ 21 / 2 ^ 17 <= q)
      by (subst q; apply Z.div_le_mono; lia).
    change (10 ^ 21 / 2 ^ 17) with 7629394531250000 in Hq0.
    change (10 ^ 21) with (7629394531250000 * 2 ^ 17). nia.
  - pose proof (toNumber_large c Hbig) as H.
    assert (2 ^ 70 <= 2 ^ Z.log2 c) by (apply Z.pow_le_mono_r; lia).
    lia.
Qed.

Lemma shortestAt_sound (x : Z) (j : nat) (c : Z) :
  shortestAt x j = Some c -> toNumber c = x /\ (0 <= x -> 0 <= c).
Proof.
  unfold shortestAt.
  set (p := 10 ^ Z.of_nat j).
  assert (Hp : 0 < p) by (apply Z.pow_pos_nonneg; lia).
  assert (Hlo : 0 <= x -> 0 <= x / p * p)
    by (intro; pose proof (Z.div_pos x p); nia).
  destruct (Z.eqb_spec (toNumber (x / p * p)) x) as [Hl | Hl];
    destruct (Z.eqb_spec (toNumber (x / p * p + p)) x) as [Hh | Hh];
    try discriminate;
    repeat match goal with
           | |- context [if ?b then _ else _] => destruct b
           end;
    intro H; injection H as <-; split; try assumption; intro H0;
    specialize (Hlo H0); lia.
Qed.

Lemma shortestFrom_sound (x : Z) :
  isNumber x ->
  forall j, toNumber (shortestFrom j x) = x /\ (0 <= x -> 0 <= shortestFrom j x).
Proof.
  intros Hx j. induction j as [| j IH]; cbn [shortestFrom];
    destruct (shortestAt x _) as [c |] eqn:Hc;
    try exact (shortestAt_sound x _ c Hc); [| exact IH].
  split; [exact Hx | auto].
Qed.

(** What [Number::toString] prints below [10^21]. *)
Lemma shortest_sound (x : Z) :
  isNumber x -> 0 <= x < 10 ^ 21 ->
  toNumber (shortest x) = x /\ 0 <= shortest x < 10 ^ 21.
Proof.
  intros Hx Hr. unfold shortest.
  destruct (shortestFrom_sound x Hx (String.length (decimal x) - 1))
    as [Hs Hnn].
  split; [exact Hs |]. split; [apply Hnn; lia |].
  destruct (Z.lt_ge_cases (shortestFrom (String.length (decimal x) - 1) x)
              (10 ^ 21)) as [Hlt | Hge]; [exact Hlt |].
  apply toNumber_ge_1e21 in Hge. lia.
Qed.

Lemma shortest_safe (x : Z) : 0 <= x < 2 ^ 53 -> shortest x = x.
Proof.
  intro Hr.
  assert (Hx : isNumber x) by (apply toNumber_safe; lia).
  destruct (shortest_sound x Hx) as [Hs [Hnn _]]; [lia |].
  destruct (Z.lt_ge_cases (shortest x) (2 ^ 53)) as [Hlt | Hge].
  - rewrite toNumber_safe in Hs by lia. exact Hs.
  - pose proof (toNumber_large _ Hge) as H.
    assert (2 ^ 53 <= 2 ^ Z.log2 (shortest x)).
    { apply Z.pow_le_mono_r; [lia |]. apply Z.log2_le_pow2; lia. }
    lia.
Qed.

(** A Number value is a Number. *)
Lemma toNumber_idempotent (m : Z) : 0 <= m -> isNumber (toNumber m).
Proof.
  intro Hm0. unfold isNumber.
  destruct (Z.lt_ge_cases m (2 ^ 53)) as [Hlt | Hge].
  { rewrite (toNumber_safe m) by lia. apply toNumber_safe. lia. }
  destruct (significand_bounds m Hge) as (He & Hp & Hq).
  assert (Hpos : 0 < m) by lia.
  destruct (Z.log2_spec m Hpos) as [_ Hhi].
  assert (Hval : exists q',
             toNumber m = q' * 2 ^ (Z.log2 m - 52) /\ 2 ^ 52 <= q' <= 2 ^ 53).
  { unfold toNumber. rewrite Z.abs_eq by lia.
    destruct (Z.ltb_spec m (2 ^ 53)) as [H | _]; [lia |].
    rewrite Z.sgn_pos by exact Hpos.
    set (e := Z.log2 m - 52) in *.
    assert (Hqhi : m / 2 ^ e < 2 ^ 53).
    { apply Z.div_lt_upper_bound; [exact Hp |].
      rewrite <- Z.pow_add_r by lia.
      replace (e + 53) with (Z.succ (Z.log2 m)) by (subst e; lia).
      exact Hhi. }
    set (q := m / 2 ^ e) in *.
    set (q' := if m mod 2 ^ e <? 2 ^ (e - 1) then q
               else if 2 ^ (e - 1) <? m mod 2 ^ e then q + 1
                    else if Z.even q then q else q + 1).
    exists q'. split; [now rewrite Z.mul_1_l |].
    subst q'.
    repeat match goal with
           | |- context [if ?b then _ else _] => destruct b
           end; lia. }
  destruct Hval as (q' & -> & Hq').
  set (e := Z.log2 m - 52) in *.
  assert (Hp2 : 2 <= 2 ^ e)
    by (change 2 with (2 ^ 1) at 1; apply Z.pow_le_mono_r; lia).
  assert (Hv : 2 ^ 53 <= q' * 2 ^ e) by nia.
  unfold toNumber. rewrite Z.abs_eq by nia.
  destruct (Z.ltb_spec (q' * 2 ^ e) (2 ^ 53)) as [H | _]; [lia |].
  rewrite Z.sgn_pos by nia. rewrite Z.mul_1_l.
  destruct (Z.eq_dec q' (2 ^ 53)) as [-> | Hne].
  - rewrite <- Z.pow_add_r by lia.
    rewrite Z.log2_pow2 by lia.
    replace (53 + e - 52) with (e + 1) by lia.
    replace (53 + e) with (52 + (e + 1)) by lia.
    rewrite Z.pow_add_r by lia.
    rewrite Z.div_mul by lia. rewrite Z.mod_mul by lia.
    assert (0 < 2 ^ (e + 1 - 1)) by (apply Z.pow_pos_nonneg; lia).
    destruct (Z.ltb_spec 0 (2 ^ (e + 1 - 1))); [reflexivity | lia].
  - assert (Hlog : Z.log2 q' = 52) by (apply Z.log2_unique; lia).
    rewrite Z.log2_mul_pow2 by lia. rewrite Hlog.
    replace (e + 52 - 52) with e by lia.
    rewrite Z.div_mul by lia. rewrite Z.mod_mul by lia.
    assert (0 < 2 ^ (e - 1)) by (apply Z.pow_pos_nonneg; lia).
    destruct (Z.ltb_spec 0 (2 ^ (e - 1))); [reflexivity | lia].
Qed.

(** *** Reading and printing *)

(** [parseInt] of a string that starts with a digit is the Number of
    what the digit loop reads on that string. *)
Lemma parseInt_digit_led (c : ascii) (r : string) :
  isDigit c = true ->
  parseInt (String c r) = option_map toNumber (readDigits (String c r) false 0).
Proof.
  intro H. unfold parseInt. simpl trimStart.
  rewrite (isDigit_not_space c H).
  destruct (Ascii.eqb_spec c "-") as [-> | Hm]; [discriminate H |].
  destruct (Ascii.eqb_spec c "+") as [-> | Hp]; [discriminate H |].
  destruct c as [[] [] [] [] [] [] [] []]; try reflexivity; congruence.
Qed.

(** Reading the decimal digits of a non-negative integer gives its
    Number value. *)
Lemma parseInt_decimal (n : Z) :
  0 <= n -> parseInt (decimal n) = Some (toNumber n).
Proof.
  intro Hn. unfold decimal.
  destruct (digitsLoop_head (S (Z.to_nat (Z.log2 n))) n EmptyString Hn)
    as (c & r & Heq & Hc); [left; discriminate |].
  assert (Hp : parseInt (String c r) =
               option_map toNumber (readDigits (String c r) false 0))
    by now apply parseInt_digit_led.
  rewrite <- Heq in Hp. rewrite Hp.
  rewrite readDigits_digitsLoop by lia.
  cbn [readDigits]. now rewrite shifted_zero by lia.
Qed.

(** Below [10^21] a Number prints as the digits of an integer whose
    Number value it is. *)
Lemma numberToString_number (x : Z) :
  isNumber x -> 0 <= x < 10 ^ 21 ->
  numberToString x = decimal (shortest x) /\
  toNumber (shortest x) = x /\ 0 <= shortest x.
Proof.
  intros Hx Hr. destruct (shortest_sound x Hx Hr) as [Hs [Hnn Hlt]].
  split; [| split; assumption].
  unfold numberToString.
  destruct (Z.ltb_spec x 0); [lia |].
  destruct (Z.ltb_spec (shortest x) (10 ^ 21)); [reflexivity | lia].
Qed.

(** In the safe range a non-negative integer prints as its digits. *)
Lemma numberToString_safe (n : Z) :
  0 <= n <= maxSafeInteger -> numberToString n = decimal n.
Proof.
  unfold maxSafeInteger. intro H.
  assert (Hx : isNumber n) by (apply toNumber_safe; lia).
  destruct (numberToString_number n Hx) as [Hp _]; [lia |].
  rewrite Hp. now rewrite shortest_safe by lia.
Qed.

End JSFacts.

(* ================================================================== *)
(** ** Composite keys *)
(* ================================================================== *)

Module KeyUtilsFacts.
Import JS KeyUtils KeyNotions JSFacts.

Lemma append_not_empty (p s : string) :
  p <> EmptyString -> String.eqb (p ++ s) "" = false.
Proof. destruct p; [congruence | reflexivity]. Qed.

(** Decoding a prefix, the separator and the digits of a number: the
    segments are the prefix and the digits, the digits are read as a
    Number, and the prefix is looked up in [typeMap]. *)
Lemma parseJiraKey_digits (p : string) (n : Z) :
  noDash p = true -> p <> EmptyString -> 0 <= n ->
  parseJiraKey (p ++ "-" ++ decimal n) =
  match getProperty typeMap p with
  | Undefined => None
  | type => Some (mkParsedKey type (toNumber n) p)
  end.
Proof.
  intros Hp Hne Hn. unfold parseJiraKey.
  rewrite append_not_empty by assumption.
  change ("-" ++ decimal n) with (String "-" (decimal n)).
  rewrite split_app_dash by assumption.
  rewrite split_noDash by (apply allDigits_noDash, allDigits_decimal, Hn).
  now rewrite parseInt_decimal by assumption.
Qed.

Lemma prefix_decodes (p : string) (n : Z) :
  In p prefixes -> 0 <= n ->
  exists type,
    ownProperty typeMap p = Some type /\
    parseJiraKey (p ++ "-" ++ decimal n) =
    Some (mkParsedKey (Own type) (toNumber n) p).
Proof.
  intros Hin Hn.
  assert (Hgen : noDash p = true /\ p <> EmptyString /\
                 exists type, ownProperty typeMap p = Some type /\
                              getProperty typeMap p = Own type).
  { simpl in Hin.
    destruct Hin as [<- | [<- | [<- | [<- | [<- | []]]]]];
      (split; [reflexivity | split; [discriminate |]]);
      eexists; split; reflexivity. }
  destruct Hgen as (Hd & Hne & type & Hown & Hget).
  exists type. split; [exact Hown |].
  now rewrite parseJiraKey_digits, Hget by assumption.
Qed.

(** A prefix that is neither one of the five nor a name inherited
    from [Object.prototype] has no entry in [typeMap]. *)
Lemma unknown_prefix (p : string) :
  ~ In p prefixes -> ~ In p objectPrototype ->
  getProperty typeMap p = Undefined.
Proof.
  intros Hown Hinh. unfold getProperty.
  assert (Ho : ownProperty typeMap p = None).
  { unfold typeMap. cbn [ownProperty]. simpl in Hown.
    repeat match goal with
           | |- context [String.eqb ?a p] =>
               destruct (String.eqb_spec a p); [exfalso; tauto |]
           end.
    reflexivity. }
  rewrite Ho.
  destruct (existsb (String.eqb p) objectPrototype) eqn:He; [| reflexivity].
  apply existsb_exists in He as (x & Hx & Heq).
  apply String.eqb_eq in Heq. subst x. contradiction.
Qed.

(** [split] is undone by joining the segments with the separator. *)
Lemma concat_split (s : string) : String.concat "-" (split "-" s) = s.
Proof.
  induction s as [| c s IH]; [reflexivity |].
  simpl split. destruct (Ascii.eqb_spec c "-") as [-> | Hc].
  - destruct (split "-" s) as [| seg segs] eqn:Hs.
    + simpl in IH. now subst s.
    + simpl. simpl in IH. now rewrite IH.
  - destruct (split "-" s) as [| seg segs] eqn:Hs.
    + simpl in IH. now subst s.
    + destruct segs as [| seg' segs]; simpl in IH |- *; now rewrite <- IH.
Qed.

Lemma split_segments_noDash (s seg : string) :
  In seg (split "-" s) -> noDash seg = true.
Proof.
  revert seg. induction s as [| c s IH]; simpl; intros seg Hin.
  - destruct Hin as [<- | []]. reflexivity.
  - destruct (Ascii.eqb c "-") eqn:Hc.
    + destruct Hin as [<- | Hin]; [reflexivity | now apply IH].
    + destruct (split "-" s) as [| seg0 segs].
      * destruct Hin as [<- | []]. simpl. now rewrite Hc.
      * destruct Hin as [<- | Hin].
        -- simpl. rewrite Hc. simpl. apply IH. now left.
        -- apply IH. now right.
Qed.

(** The strings that [split] cuts in two segments are those with one
    separator. *)
Lemma split_in_two (key q idStr : string) :
  split "-" key = [q; idStr] <->
  key = q ++ "-" ++ idStr /\ noDash q = true /\ noDash idStr = true.
Proof.
  split.
  - intro Hsplit. split; [| split].
    + rewrite <- (concat_split key), Hsplit. reflexivity.
    + apply (split_segments_noDash key). rewrite Hsplit. now left.
    + apply (split_segments_noDash key). rewrite Hsplit. right. now left.
  - intros (-> & Hq & Hi).
    change ("-" ++ idStr) with (String "-" idStr).
    now rewrite split_app_dash, split_noDash.
Qed.

Lemma readDigits_seen (s : string) (acc : Z) :
  readDigits s true acc <> None.
Proof.
  revert acc. induction s as [| c s IH]; intro acc; simpl;
    [discriminate |].
  destruct (isDigit c); [apply IH | discriminate].
Qed.

Lemma readDigits_digitLed (s : string) :
  readDigits s false 0 <> None <-> digitLed s = true.
Proof.
  destruct s as [| c s]; simpl; [split; congruence |].
  destruct (isDigit c); [| split; congruence].
  split; [reflexivity | intros _; apply readDigits_seen].
Qed.

(** [parseInt] gives a number exactly for the numeric texts. *)
Lemma parseInt_numeric (s : string) :
  parseInt s <> None <-> numeric s = true.
Proof.
  unfold parseInt, numeric.
  destruct (trimStart s) as [| c r]; [simpl; split; congruence |].
  assert (Hmap : forall (f : Z -> Z) (t : string),
             option_map f (readDigits t false 0) <> None <->
             digitLed t = true).
  { intros f t. rewrite <- readDigits_digitLed.
    destruct (readDigits t false 0); simpl; split; congruence. }
  destruct (Ascii.eqb_spec c "-") as [-> | Hm]; [apply Hmap |].
  destruct (Ascii.eqb_spec c "+") as [-> | Hp]; [apply Hmap |].
  change (if false || false then digitLed r else isDigit c)
    with (digitLed (String c r)).
  rewrite <- (Hmap toNumber).
  destruct c as [[] [] [] [] [] [] [] []];
    try (exfalso; apply Hm; reflexivity);
    try (exfalso; apply Hp; reflexivity); reflexivity.
Qed.

(** [typeMap] has a member, own or inherited, exactly under the five
    prefixes and the names of [Object.prototype]. *)
Lemma getProperty_typeMap (q : string) :
  getProperty typeMap q <> Undefined <->
  In q prefixes \/ In q objectPrototype.
Proof.
  split.
  - intro Hget.
    destruct (in_dec string_dec q prefixes) as [Hin | Hown]; [now left |].
    destruct (in_dec string_dec q objectPrototype) as [Hin | Hinh];
      [now right |].
    now rewrite (unknown_prefix q Hown Hinh) in Hget.
  - intros [Hin | Hin]; simpl in Hin;
      repeat (destruct Hin as [<- | Hin]; [discriminate |]);
      destruct Hin.
Qed.

(** The keys that [parseJiraKey] accepts, and what it makes of them.
    A string is decoded exactly when it is a prefix, one separator and
    an id segment, neither of which holds a separator, where the
    prefix is one of the five codes or a name that [typeMap] inherits
    from [Object.prototype], and the id segment is numeric: white
    space or none, a plus sign or none, and then a digit, whatever
    follows.  The parsed key holds the prefix, what [typeMap] holds
    under it, and what [parseInt] reads in the id segment. *)
Theorem parseJiraKey_accepts_exactly (key : string) (p : parsedKey) :
  parseJiraKey key = Some p <->
  exists q idStr,
    key = q ++ "-" ++ idStr /\
    noDash q = true /\ noDash idStr = true /\
    (In q prefixes \/ In q objectPrototype) /\
    numeric idStr = true /\
    prefix p = q /\ type p = getProperty typeMap q /\
    parseInt idStr = Some (id p).
Proof.
  split.
  - unfold parseJiraKey.
    destruct (String.eqb key ""); [discriminate |].
    destruct (split "-" key) as [| q [| idStr [| x l]]] eqn:Hsplit;
      try discriminate.
    apply split_in_two in Hsplit as (Hkey & Hq & Hi).
    destruct (parseInt idStr) as [n |] eqn:Hn; [| discriminate].
    assert (Hnum : numeric idStr = true)
      by (apply parseInt_numeric; congruence).
    destruct (getProperty typeMap q) as [v | name |] eqn:Hget;
      [| | discriminate];
      intro H; injection H as <-; exists q, idStr;
      (assert (Hknown : In q prefixes \/ In q objectPrototype)
         by (apply getProperty_typeMap; congruence));
      repeat split; try assumption; simpl; congruence.
  - intros (q & idStr & Hkey & Hq & Hi & Hknown & _ & Hp & Hty & Hn).
    assert (Hsplit : split "-" key = [q; idStr])
      by (apply split_in_two; auto).
    unfold parseJiraKey. rewrite Hsplit, Hn.
    assert (Hne : String.eqb key "" = false).
    { subst key. destruct q; reflexivity. }
    rewrite Hne. apply getProperty_typeMap in Hknown.
    destruct p as [t i q']. simpl in *. subst q' t.
    now destruct (getProperty typeMap q).
Qed.

(** C3, counterexample.  The round trip fails at the id [10^21]: the
    template literal prints it in exponent notation, ["RO-1e+21"], and
    [parseInt] reads the digit in front of the [e], so that decoding
    yields the id 1. *)
Lemma round_trip_fails_at_1e21 :
  createJiraKey "repair_order" (10 ^ 21) = Some "RO-1e+21" /\
  getIdFromKey "RO-1e+21" = Some 1 /\
  ~ roundTrips "repair_order" (10 ^ 21).
Proof.
  split; [reflexivity | split; [reflexivity |]].
  intros (key & parsed & Hcreate & Hparse & _ & Hid).
  vm_compute in Hcreate. injection Hcreate as <-.
  vm_compute in Hparse. injection Hparse as <-.
  discriminate Hid.
Qed.

(** C3, amended.  For each of the five entity types and every
    positive integer-valued Number [id] below [10^21] (every id that
    a template literal prints in plain digits), decoding the key that
    [createJiraKey] builds yields that type and that id.  In the safe
    range the key holds the digits of the id; above it the key holds
    the shortest digits that identify the Number, followed by zeros,
    and [parseInt] rounds them back to the id. *)
Theorem key_round_trip (type : string) (id : Z) :
  In type entityTypes -> isNumber id -> 0 < id < 10 ^ 21 ->
  roundTrips type id.
Proof.
  intros Hin Hnum Hid. unfold roundTrips, createJiraKey.
  assert (Hcase :
    exists p, getProperty prefixMap type = Own p /\ In p prefixes /\
              ownProperty typeMap p = Some type).
  { simpl in Hin.
    destruct Hin as [<- | [<- | [<- | [<- | [<- | []]]]]];
      eexists; (split; [reflexivity | split; [simpl; auto 10 | reflexivity]]). }
  destruct Hcase as (p & -> & Hp & Hown).
  destruct (numberToString_number id Hnum) as (-> & Hback & Hnn); [lia |].
  destruct (prefix_decodes p (shortest id) Hp Hnn)
    as (type' & Hown' & Hparse).
  rewrite Hown in Hown'. injection Hown' as <-.
  rewrite Hback in Hparse.
  eexists _, _. split; [reflexivity |]. split; [exact Hparse |].
  split; reflexivity.
Qed.

(** The round trip of the order id [2^64], which is printed as
    ["RO-18446744073709552000"]. *)
Lemma key_round_trip_witness :
  In "repair_order" entityTypes /\ isNumber (2 ^ 64) /\
  0 < 2 ^ 64 < 10 ^ 21 /\
  createJiraKey "repair_order" (2 ^ 64) = Some "RO-18446744073709552000" /\
  getIdFromKey "RO-18446744073709552000" = Some (2 ^ 64) /\
  roundTrips "repair_order" (2 ^ 64).
Proof.
  assert (Hin : In "repair_order" entityTypes) by (simpl; auto 10).
  assert (Hnum : isNumber (2 ^ 64)) by (vm_compute; reflexivity).
  assert (Hid : 0 < 2 ^ 64 < 10 ^ 21) by lia.
  assert (Hkey : createJiraKey "repair_order" (2 ^ 64) =
                 Some "RO-18446744073709552000")
    by (vm_compute; reflexivity).
  assert (Hback : getIdFromKey "RO-18446744073709552000" = Some (2 ^ 64))
    by (vm_compute; reflexivity).
  exact (conj Hin (conj Hnum (conj Hid (conj Hkey (conj Hback
           (key_round_trip "repair_order" (2 ^ 64) Hin Hnum Hid)))))).
Defined.

(** C4, the decoder at two strings that are not of the shape
    [<2 letters>-<digits>].  ["constructor-5"] has an unknown prefix:
    the lookup [typeMap[prefix]] finds the member [constructor] that
    the object literal inherits, which is truthy, and a parsed key
    comes back.  ["RO-3abc"] has an id segment that is not a number:
    [parseInt] reads its leading digit and the key decodes to id 3. *)
Theorem parseJiraKey_accepts_malformed :
  matchesShape "constructor-5" = false /\
  parseJiraKey "constructor-5" =
    Some (mkParsedKey (Inherited "constructor") 5 "constructor") /\
  matchesShape "RO-3abc" = false /\
  parseJiraKey "RO-3abc" = Some (mkParsedKey (Own "repair_order") 3 "RO").
Proof. repeat split; reflexivity. Qed.

End KeyUtilsFacts.

(* ================================================================== *)
(** ** The channel reconciler *)
(* ================================================================== *)

Module ReconcilerFacts.
Import JS KeyUtils KeyNotions JSFacts KeyUtilsFacts.
Import Reconciler ReconcilerNotions.
Local Open Scope list_scope.

Lemma findIndexFrom_range {A : Type} (p : A -> bool) (l : list A) :
  forall i, findIndexFrom p l i = -1 \/ i <= findIndexFrom p l i.
Proof.
  induction l as [| x l IH]; intro i; simpl; [now left |].
  destruct (p x); [right; lia |].
  destruct (IH (i + 1)) as [H | H]; [now left | right; lia].
Qed.

Lemma upsert_from (r : entity) (l : list entity) :
  forall i, 0 <= i ->
    let index := findIndexFrom (fun o => id o =? id r) l i in
    (if index >=? 0 then assign l (Z.to_nat (index - i)) r else l ++ [r]) =
    replaceOrAppend l r.
Proof.
  induction l as [| x l IH]; intros i Hi; cbn zeta; [reflexivity |].
  cbn [findIndexFrom replaceOrAppend].
  destruct (id x =? id r).
  - destruct (Z.geb_spec i 0); [| lia].
    now replace (i - i) with 0 by lia.
  - specialize (IH (i + 1) ltac:(lia)). cbn zeta in IH. rewrite <- IH.
    destruct (findIndexFrom_range (fun o => id o =? id r) l (i + 1)) as [H | H].
    + rewrite H. reflexivity.
    + set (j := findIndexFrom (fun o => id o =? id r) l (i + 1)) in *.
      destruct (Z.geb_spec j 0); [| lia].
      replace (Z.to_nat (j - i)) with (S (Z.to_nat (j - (i + 1)))) by lia.
      reflexivity.
Qed.

Lemma upsert_replaceOrAppend (c : list entity) (r : entity) :
  upsert c r = replaceOrAppend c r.
Proof.
  unfold upsert, findIndex. rewrite <- (upsert_from r c 0) by lia.
  cbn zeta. now rewrite Z.sub_0_r.
Qed.

(** An existing id is replaced where it stands. *)
Lemma upsert_in_place (before after : list entity) (o r : entity) :
  id o = id r -> (forall x, In x before -> id x <> id r) ->
  upsert (before ++ o :: after) r = before ++ r :: after.
Proof.
  intros Ho Hb. rewrite upsert_replaceOrAppend.
  induction before as [| x before IH]; simpl.
  - rewrite Ho, Z.eqb_refl. reflexivity.
  - destruct (Z.eqb_spec (id x) (id r)) as [He | _].
    + exfalso. apply (Hb x); [now left | exact He].
    + rewrite IH; [reflexivity |]. intros y Hy. apply Hb. now right.
Qed.

(** A new id is appended. *)
Lemma upsert_appends (c : list entity) (r : entity) :
  (forall x, In x c -> id x <> id r) -> upsert c r = c ++ [r].
Proof.
  intro Hc. rewrite upsert_replaceOrAppend.
  induction c as [| x c IH]; simpl; [reflexivity |].
  destruct (Z.eqb_spec (id x) (id r)) as [He | _].
  - exfalso. apply (Hc x); [now left | exact He].
  - rewrite IH; [reflexivity |]. intros y Hy. apply Hc. now right.
Qed.

Lemma find_upsert (i : Z) (c : list entity) (r : entity) :
  find (fun x => id x =? i) (upsert c r) =
  if id r =? i then Some r else find (fun x => id x =? i) c.
Proof.
  rewrite upsert_replaceOrAppend.
  induction c as [| o c IH]; simpl.
  - now destruct (id r =? i).
  - destruct (Z.eqb_spec (id o) (id r)) as [He | Hne]; simpl.
    + rewrite He. now destruct (id r =? i).
    + rewrite IH.
      destruct (Z.eqb_spec (id o) i) as [Hoi | _]; [| reflexivity].
      destruct (Z.eqb_spec (id r) i); [congruence | reflexivity].
Qed.

Lemma ids_upsert (c : list entity) (r : entity) :
  map id (upsert c r) =
  if existsb (Z.eqb (id r)) (map id c) then map id c
  else map id c ++ [id r].
Proof.
  rewrite upsert_replaceOrAppend.
  induction c as [| o c IH]; simpl; [reflexivity |].
  rewrite (Z.eqb_sym (id r) (id o)).
  destruct (Z.eqb_spec (id o) (id r)) as [He | Hne]; simpl.
  - now rewrite He.
  - rewrite IH. now destruct (existsb (Z.eqb (id r)) (map id c)).
Qed.

Lemma existsb_eqb_In (i : Z) (l : list Z) :
  existsb (Z.eqb i) l = true <-> In i l.
Proof.
  rewrite existsb_exists. split.
  - intros (x & Hx & He). apply Z.eqb_eq in He. now subst.
  - intro H. exists i. split; [exact H | apply Z.eqb_refl].
Qed.

Lemma ids_applyUpdate (d : list entity) :
  forall c, map id (applyUpdate c d) = map id c ++ firstSeen (map id c) d.
Proof.
  unfold applyUpdate.
  induction d as [| r d IH]; intro c; simpl; [now rewrite app_nil_r |].
  rewrite IH, ids_upsert.
  destruct (existsb (Z.eqb (id r)) (map id c)); [reflexivity |].
  now rewrite <- app_assoc.
Qed.

Lemma NoDup_firstSeen (l : list entity) :
  forall seen, NoDup seen -> NoDup (seen ++ firstSeen seen l).
Proof.
  induction l as [| r l IH]; intros seen Hseen; simpl.
  - now rewrite app_nil_r.
  - destruct (existsb (Z.eqb (id r)) seen) eqn:He; [now apply IH |].
    change (id r :: firstSeen (seen ++ [id r]) l)
      with ([id r] ++ firstSeen (seen ++ [id r]) l).
    rewrite app_assoc. apply IH.
    apply NoDup_app; [exact Hseen | apply NoDup_cons; [easy | constructor] |].
    intros a Ha [<- | []].
    apply existsb_eqb_In in Ha. congruence.
Qed.

Lemma In_firstSeen (l : list entity) :
  forall seen i,
    In i (seen ++ firstSeen seen l) <-> In i seen \/ In i (map id l).
Proof.
  induction l as [| r l IH]; intros seen i; simpl.
  - rewrite app_nil_r. tauto.
  - destruct (existsb (Z.eqb (id r)) seen) eqn:He.
    + rewrite IH. apply existsb_eqb_In in He.
      split; [tauto |]. intros [H | [<- | H]]; tauto.
    + change (id r :: firstSeen (seen ++ [id r]) l)
        with ([id r] ++ firstSeen (seen ++ [id r]) l).
      rewrite app_assoc, IH, in_app_iff. simpl. tauto.
Qed.

Lemma find_app {A : Type} (p : A -> bool) (l1 l2 : list A) :
  find p (l1 ++ l2) =
  match find p l1 with Some x => Some x | None => find p l2 end.
Proof.
  induction l1 as [| x l1 IH]; simpl; [reflexivity |].
  now destruct (p x).
Qed.

Lemma find_applyUpdate (i : Z) (d : list entity) :
  forall c,
    find (fun x => id x =? i) (applyUpdate c d) =
    match lastWithId i d with
    | Some r => Some r
    | None => find (fun x => id x =? i) c
    end.
Proof.
  unfold applyUpdate, lastWithId.
  induction d as [| r d IH]; intro c; simpl; [reflexivity |].
  rewrite IH, find_app, find_upsert. simpl.
  destruct (find (fun x => id x =? i) (rev d)); [reflexivity |].
  now destruct (id r =? i).
Qed.

Lemma find_unique (c : list entity) (r : entity) :
  NoDup (map id c) -> In r c -> find (fun x => id x =? id r) c = Some r.
Proof.
  induction c as [| o c IH]; simpl; intros Hnd Hin; [contradiction |].
  inversion Hnd as [| ? ? Hnotin Hnd']; subst.
  destruct Hin as [-> | Hin].
  - now rewrite Z.eqb_refl.
  - destruct (Z.eqb_spec (id o) (id r)) as [He | _]; [| now apply IH].
    exfalso. apply Hnotin. rewrite He. now apply in_map.
Qed.

(** A run of [update] messages is one pass over all their records. *)
Lemma updates_concat (envelopes : list (list entity)) :
  forall c,
    fold_left reconcile (map update envelopes) c =
    applyUpdate c (List.concat envelopes).
Proof.
  unfold applyUpdate.
  induction envelopes as [| data envelopes IH]; intro c; simpl;
    [reflexivity |].
  now rewrite IH, fold_left_app.
Qed.

(** C1.  The [update] messages [envelopes], applied in order to the
    empty collection, leave one record per id seen (the ids are pairwise
    distinct, they are the ids supplied, and they stand in the order in
    which they first occurred), and a record is in the collection
    exactly when it is the last one supplied for its id.  Within a
    message the records are applied from left to right; a record whose
    id exists replaces that record where it stands, the other elements
    keeping their places; a record with a new id goes to the end. *)
Theorem update_sequence_upserts (envelopes : list (list entity)) :
  let collection := fold_left reconcile (map update envelopes) [] in
  let supplied := List.concat envelopes in
  NoDup (map id collection) /\
  map id collection = firstSeen [] supplied /\
  (forall i, In i (map id collection) <-> In i (map id supplied)) /\
  (forall r, In r collection <-> lastWithId (id r) supplied = Some r) /\
  (forall c r data,
     reconcile c (update (r :: data)) =
     reconcile (upsert c r) (update data)) /\
  (forall c data1 data2,
     reconcile c (update (data1 ++ data2)) =
     reconcile (reconcile c (update data1)) (update data2)) /\
  (forall before o after r,
     id o = id r -> (forall x, In x before -> id x <> id r) ->
     upsert (before ++ o :: after) r = before ++ r :: after) /\
  (forall c r,
     (forall x, In x c -> id x <> id r) -> upsert c r = c ++ [r]).
Proof.
  cbn zeta. rewrite updates_concat.
  set (supplied := List.concat envelopes).
  assert (Hids : map id (applyUpdate [] supplied) = firstSeen [] supplied)
    by apply (ids_applyUpdate supplied []).
  assert (Hnd : NoDup (map id (applyUpdate [] supplied))).
  { rewrite Hids. apply (NoDup_firstSeen supplied []). constructor. }
  split; [exact Hnd |]. split; [exact Hids |]. split.
  { intro i. rewrite Hids.
    pose proof (In_firstSeen supplied [] i) as H. simpl in H. tauto. }
  split.
  { intro r.
    pose proof (find_applyUpdate (id r) supplied []) as Hfind.
    simpl in Hfind. split.
    - intro Hin. rewrite (find_unique _ r Hnd Hin) in Hfind.
      now destruct (lastWithId (id r) supplied).
    - intro Hlast. rewrite Hlast in Hfind.
      now apply find_some in Hfind. }
  split; [reflexivity |]. split.
  { intros c data1 data2. simpl. unfold applyUpdate. apply fold_left_app. }
  split; [| exact upsert_appends].
  intros before o after r. apply upsert_in_place.
Qed.

Lemma has_decoded (keys : list string) (v : Z) :
  has (map getIdFromKey keys) v = true <->
  exists k, In k keys /\ getIdFromKey k = Some v.
Proof.
  unfold has. rewrite existsb_exists. split.
  - intros (x & Hx & Hv). apply in_map_iff in Hx as (k & <- & Hk).
    exists k. split; [exact Hk |].
    destruct (getIdFromKey k) as [n |]; [| discriminate].
    apply Z.eqb_eq in Hv. now subst.
  - intros (k & Hk & Hv). exists (Some v).
    split; [rewrite <- Hv; now apply in_map | apply Z.eqb_refl].
Qed.

Lemma In_applyDelete (c : list entity) (keys : list string) (o : entity) :
  In o (applyDelete c keys) <->
  In o c /\ forall k, In k keys -> getIdFromKey k <> Some (id o).
Proof.
  unfold applyDelete. rewrite filter_In, negb_true_iff.
  rewrite <- not_true_iff_false, has_decoded. split.
  - intros [Hin Hno]. split; [exact Hin |].
    intros k Hk Hv. apply Hno. now exists k.
  - intros [Hin Hno]. split; [exact Hin |].
    intros (k & Hk & Hv). now apply (Hno k).
Qed.

Lemma has_skips_null (ks1 ks2 : list (option Z)) (v : Z) :
  has (ks1 ++ None :: ks2) v = has (ks1 ++ ks2) v.
Proof. unfold has. now rewrite !existsb_app. Qed.

(** A key that does not decode changes nothing, wherever it stands
    among the keys of the message. *)
Lemma applyDelete_null_key (c : list entity) (k : string)
  (ks1 ks2 : list string) :
  getIdFromKey k = None ->
  applyDelete c (ks1 ++ k :: ks2) = applyDelete c (ks1 ++ ks2).
Proof.
  intro Hk. unfold applyDelete. apply filter_ext. intro o.
  now rewrite !map_app, map_cons, Hk, has_skips_null.
Qed.

(** What a [delete] message does, by the ids its keys decode to: a
    record stays exactly when no key decodes to its id; the records
    that stay keep their order (the result of a collection in two parts
    is the result of the first followed by that of the second); and a
    key that [parseJiraKey] rejects is skipped, the other keys of the
    message being applied as without it. *)
Theorem delete_removes_decoded_ids (c : list entity) (keys : list string) :
  (forall o, In o (applyDelete c keys) <->
             In o c /\ forall k, In k keys -> getIdFromKey k <> Some (id o)) /\
  (forall c1 c2,
     applyDelete (c1 ++ c2) keys = applyDelete c1 keys ++ applyDelete c2 keys) /\
  (forall k ks1 ks2,
     parseJiraKey k = None ->
     reconcile c (delete (ks1 ++ k :: ks2)) = reconcile c (delete (ks1 ++ ks2))).
Proof.
  split; [intro o; apply In_applyDelete |].
  split; [intros c1 c2; apply filter_app |].
  intros k ks1 ks2 Hk. apply applyDelete_null_key.
  unfold getIdFromKey. now rewrite Hk.
Qed.

(** C2, the reconciler at two [delete] messages whose key is malformed.
    ["constructor-5"] has an unknown prefix and ["RO-3abc"] an id
    segment that is not a number, yet each decodes to an id and the
    record with that id is removed.  (["ZZ-5"], whose prefix is at no
    place in [typeMap], is skipped.) *)
Theorem delete_by_malformed_key :
  reconcile [mkEntity 5 "Batch A"] (delete ["constructor-5"]) = [] /\
  reconcile [mkEntity 3 "a"; mkEntity 7 "b"] (delete ["RO-3abc"]) =
    [mkEntity 7 "b"] /\
  reconcile [mkEntity 5 "Batch A"] (delete ["ZZ-5"]) =
    [mkEntity 5 "Batch A"].
Proof. repeat split; reflexivity. Qed.

Lemma applyDelete_one (c : list entity) (k : string) (n : Z) :
  getIdFromKey k = Some n ->
  applyDelete c [k] = filter (fun o => negb (id o =? n)) c.
Proof.
  intro Hk. unfold applyDelete. apply filter_ext. intro o.
  simpl. rewrite Hk, orb_false_r. now rewrite Z.eqb_sym.
Qed.

(** C10.  A key made of any of the five prefixes and the digits of an
    id [n] of the safe range removes the records whose id is [n],
    whatever entity type the prefix stands for: in a message with
    other keys no record with id [n] is left, and alone it removes
    those records and no other. *)
Theorem delete_ignores_entity_type
  (c : list entity) (keys : list string) (p : string) (n : Z) :
  In p prefixes -> 0 <= n <= maxSafeInteger ->
  In (p ++ "-" ++ decimal n)%string keys ->
  (forall o, In o (reconcile c (delete keys)) -> id o <> n) /\
  reconcile c (delete [(p ++ "-" ++ decimal n)%string]) =
    filter (fun o => negb (id o =? n)) c.
Proof.
  intros Hp Hn Hk.
  destruct (prefix_decodes p n Hp) as (type & _ & Hparse); [lia |].
  rewrite toNumber_safe in Hparse by (unfold maxSafeInteger in Hn; lia).
  assert (Hid : getIdFromKey (p ++ "-" ++ decimal n)%string = Some n)
    by (unfold getIdFromKey; now rewrite Hparse).
  split.
  - intros o Ho He. simpl in Ho. apply In_applyDelete in Ho as [_ Hno].
    apply (Hno _ Hk). now rewrite He.
  - simpl. now apply applyDelete_one.
Qed.

(** The status key ["ST-7"] removes the order with id 7. *)
Lemma delete_ignores_entity_type_witness :
  reconcile [mkEntity 3 "a"; mkEntity 7 "b"] (delete ["ST-7"%string]) =
  [mkEntity 3 "a"].
Proof.
  assert (Hp : In "ST"%string prefixes) by (simpl; auto).
  assert (Hn : 0 <= 7 <= maxSafeInteger) by (unfold maxSafeInteger; lia).
  assert (Hk : In ("ST" ++ "-" ++ decimal 7)%string ["ST-7"%string])
    by (left; reflexivity).
  exact (proj2 (delete_ignores_entity_type
                  [mkEntity 3 "a"; mkEntity 7 "b"] ["ST-7"%string]
                  "ST"%string 7 Hp Hn Hk)).
Defined.

(** *** Applying a message twice *)

Lemma applyUpdate_replaceOrAppend (d : list entity) :
  forall c, applyUpdate c d = fold_left replaceOrAppend d c.
Proof.
  unfold applyUpdate. induction d as [| r d IH]; intro c; simpl;
    [reflexivity |].
  now rewrite upsert_replaceOrAppend, IH.
Qed.

(** Of two records with one id, supplied one after the other, the
    second is the one that stays. *)
Lemma replaceOrAppend_absorbs (l : list entity) (r q : entity) :
  id r = id q ->
  replaceOrAppend (replaceOrAppend l r) q = replaceOrAppend l q.
Proof.
  intro He. induction l as [| x l IH]; simpl.
  - now rewrite He, Z.eqb_refl.
  - rewrite <- He.
    destruct (Z.eqb_spec (id x) (id r)) as [Hx | Hx]; simpl.
    + now rewrite He, Z.eqb_refl.
    + rewrite <- He. destruct (Z.eqb_spec (id x) (id r)); [contradiction |].
      now rewrite IH.
Qed.

(** Records with different ids, the first of which is in the
    collection, can be supplied in either order. *)
Lemma replaceOrAppend_commutes (l : list entity) (r q : entity) :
  id r <> id q -> In (id r) (map id l) ->
  replaceOrAppend (replaceOrAppend l q) r =
  replaceOrAppend (replaceOrAppend l r) q.
Proof.
  intros Hne. induction l as [| x l IH]; simpl; [contradiction |].
  intro Hin.
  repeat (match goal with
          | |- context [?a =? ?b] => destruct (Z.eqb_spec a b)
          end; simpl); try congruence.
  rewrite IH; [reflexivity |]. destruct Hin; [congruence | assumption].
Qed.

Lemma ids_replaceOrAppend (l : list entity) (r : entity) (i : Z) :
  In i (map id l) -> In i (map id (replaceOrAppend l r)).
Proof.
  intro H. rewrite <- upsert_replaceOrAppend, ids_upsert.
  destruct (existsb (Z.eqb (id r)) (map id l)); [exact H |].
  apply in_or_app. now left.
Qed.

Lemma replay_after (d : list entity) :
  forall m q,
    (forall r, In r d -> In (id r) (map id m)) ->
    replaceOrAppend (fold_left replaceOrAppend d (replaceOrAppend m q)) q =
    replaceOrAppend (fold_left replaceOrAppend d m) q.
Proof.
  induction d as [| r d IH]; intros m q Hids; simpl.
  - apply replaceOrAppend_absorbs. reflexivity.
  - assert (Hrest : forall r', In r' d ->
                      In (id r') (map id (replaceOrAppend m r))).
    { intros r' Hr'. apply ids_replaceOrAppend, Hids. now right. }
    destruct (Z.eq_dec (id q) (id r)) as [He | Hne].
    + now rewrite replaceOrAppend_absorbs by exact He.
    + rewrite replaceOrAppend_commutes.
      * now apply IH.
      * congruence.
      * apply Hids. now left.
Qed.

Lemma applyUpdate_twice (d : list entity) :
  forall c, applyUpdate (applyUpdate c d) d = applyUpdate c d.
Proof.
  intro c. rewrite !applyUpdate_replaceOrAppend.
  induction d as [| q d IH] using rev_ind; [reflexivity |].
  rewrite !fold_left_app. simpl.
  rewrite replay_after.
  - now rewrite IH.
  - intros r Hr. rewrite <- applyUpdate_replaceOrAppend, ids_applyUpdate.
    apply (In_firstSeen d (map id c)). right. now apply in_map.
Qed.

Lemma filter_twice {A : Type} (p : A -> bool) (l : list A) :
  filter p (filter p l) = filter p l.
Proof.
  induction l as [| x l IH]; simpl; [reflexivity |].
  destruct (p x) eqn:Hx; simpl; [now rewrite Hx, IH | exact IH].
Qed.

(** Applying a message a second time changes nothing: the effect of
    the hook may run again on the message it has already applied. *)
Theorem reconcile_idempotent (c : list entity) (m : message) :
  reconcile (reconcile c m) m = reconcile c m.
Proof.
  destruct m as [data | data]; simpl.
  - apply applyUpdate_twice.
  - apply filter_twice.
Qed.

(** The scenarios of section 8 of the specification, run on the
    reconciler: a broadcast record with id 7 enters the empty
    collection once; the key ["RO-3"] removes the record with id 3 and
    leaves the one with id 7; of two records with id 5 in one message
    the second stays; and the key ["ZZ-9"], whose prefix is unknown,
    leaves the record with id 9 in place. *)
Theorem reconciler_scenarios :
  reconcile [] (update [mkEntity 7 "Batch A"]) = [mkEntity 7 "Batch A"] /\
  reconcile [mkEntity 3 "a"; mkEntity 7 "b"] (delete ["RO-3"%string]) =
    [mkEntity 7 "b"] /\
  reconcile [] (update [mkEntity 5 "v:1"; mkEntity 5 "v:2"]) =
    [mkEntity 5 "v:2"] /\
  reconcile [mkEntity 9 "c"] (delete ["ZZ-9"%string]) = [mkEntity 9 "c"].
Proof.
  split; [reflexivity |]. split; [reflexivity |].
  split; reflexivity.
Qed.

End ReconcilerFacts.

(* ================================================================== *)
(** ** The WebSocket service *)
(* ================================================================== *)

Module ServiceFacts.
Import WebSocketService ServiceNotions.
Local Open Scope list_scope.

(** *** Arrays, maps and sets *)

Lemma nth_error_adjust_same {A : Type} (f : A -> A) (l : list A) :
  forall i, nth_error (adjust i f l) i = option_map f (nth_error l i).
Proof.
  induction l as [| x l IH]; intros [| i]; simpl; try reflexivity.
  apply IH.
Qed.

Lemma nth_error_adjust_other {A : Type} (f : A -> A) (l : list A) :
  forall i j, i <> j -> nth_error (adjust i f l) j = nth_error l j.
Proof.
  induction l as [| x l IH]; intros [| i] [| j] Hij; simpl;
    try reflexivity; try congruence.
  apply IH. congruence.
Qed.

Lemma length_adjust {A : Type} (f : A -> A) (l : list A) :
  forall i, List.length (adjust i f l) = List.length l.
Proof.
  induction l as [| x l IH]; intros [| i]; simpl; try reflexivity.
  now rewrite IH.
Qed.

Lemma map_adjust {A B : Type} (g : A -> B) (f : A -> A) (l : list A) :
  forall i,
    (forall x, nth_error l i = Some x -> g (f x) = g x) ->
    map g (adjust i f l) = map g l.
Proof.
  induction l as [| x l IH]; intros [| i] H; simpl; try reflexivity.
  - now rewrite H.
  - now rewrite IH.
Qed.

Lemma Forall_adjust {A : Type} (P : A -> Prop) (f : A -> A) (l : list A) :
  forall i,
    Forall P l -> (forall x, nth_error l i = Some x -> P (f x)) ->
    Forall P (adjust i f l).
Proof.
  induction l as [| x l IH]; intros [| i] Hl Hf; simpl; try exact Hl;
    inversion Hl; subst; constructor; auto.
Qed.

Lemma get_set_same {V : Type} (k : channel) (v : V) (m : list (channel * V)) :
  Map.get k (Map.set k v m) = Some v.
Proof.
  induction m as [| [k' v'] m IH]; simpl.
  - now rewrite String.eqb_refl.
  - destruct (String.eqb k' k) eqn:He; simpl; now rewrite He.
Qed.

Lemma get_set_other {V : Type} (k k' : channel) (v : V)
  (m : list (channel * V)) :
  k' <> k -> Map.get k' (Map.set k v m) = Map.get k' m.
Proof.
  intro Hne. induction m as [| [k0 v0] m IH]; simpl.
  - destruct (String.eqb_spec k k'); [congruence | reflexivity].
  - destruct (String.eqb_spec k0 k) as [-> | Hk]; simpl.
    + destruct (String.eqb_spec k k'); [congruence | reflexivity].
    + now rewrite IH.
Qed.

Lemma get_delete_same {V : Type} (k : channel) (m : list (channel * V)) :
  Map.get k (Map.delete k m) = None.
Proof.
  unfold Map.delete.
  induction m as [| [k' v'] m IH]; simpl; [reflexivity |].
  destruct (String.eqb k' k) eqn:He; simpl; [exact IH | now rewrite He].
Qed.

Lemma get_delete_other {V : Type} (k k' : channel) (m : list (channel * V)) :
  k' <> k -> Map.get k' (Map.delete k m) = Map.get k' m.
Proof.
  intro Hne. unfold Map.delete.
  induction m as [| [k0 v0] m IH]; simpl; [reflexivity |].
  destruct (String.eqb_spec k0 k) as [-> | Hk]; simpl.
  - destruct (String.eqb_spec k k'); [congruence | exact IH].
  - now rewrite IH.
Qed.

Lemma has_In_keys {V : Type} (k : channel) (m : list (channel * V)) :
  Map.has k m = true <-> In k (Map.keys m).
Proof.
  unfold Map.has, Map.keys.
  induction m as [| [k' v'] m IH]; simpl; [split; [discriminate | tauto] |].
  destruct (String.eqb_spec k' k) as [-> | Hk]; [tauto |].
  rewrite IH. tauto.
Qed.

Lemma keys_set {V : Type} (k : channel) (v : V) (m : list (channel * V)) :
  Map.keys (Map.set k v m) =
  if Map.has k m then Map.keys m else Map.keys m ++ [k].
Proof.
  unfold Map.has, Map.keys.
  induction m as [| [k' v'] m IH]; simpl; [reflexivity |].
  destruct (String.eqb k' k); simpl; [reflexivity |].
  rewrite IH. now destruct (Map.get k m).
Qed.

Lemma NoDup_keys_set {V : Type} (k : channel) (v : V)
  (m : list (channel * V)) :
  NoDup (Map.keys m) -> NoDup (Map.keys (Map.set k v m)).
Proof.
  intro H. rewrite keys_set.
  destruct (Map.has k m) eqn:Hhas; [exact H |].
  apply NoDup_app; [exact H | apply NoDup_cons; [easy | constructor] |].
  intros a Ha [<- | []].
  apply has_In_keys in Ha. congruence.
Qed.

Lemma NoDup_keys_delete {V : Type} (k : channel) (m : list (channel * V)) :
  NoDup (Map.keys m) -> NoDup (Map.keys (Map.delete k m)).
Proof.
  unfold Map.keys, Map.delete.
  induction m as [| [k' v'] m IH]; simpl; intro H; [constructor |].
  inversion H as [| ? ? Hnotin Hm]; subst.
  destruct (String.eqb k' k); simpl; [now apply IH |].
  constructor; [| now apply IH].
  intro Hin. apply Hnotin.
  apply in_map_iff in Hin as (x & <- & Hx).
  apply filter_In in Hx as [Hx _]. now apply in_map.
Qed.

Lemma In_CallbackSet_delete (x cb : callback) (s : list callback) :
  In x (CallbackSet.delete cb s) <-> In x s /\ x <> cb.
Proof.
  unfold CallbackSet.delete. rewrite filter_In, negb_true_iff.
  destruct (Nat.eqb_spec cb x); split; intros [H1 H2]; split;
    congruence || auto.
Qed.

(** *** What the methods leave alone *)

Ltac break_match :=
  repeat match goal with
         | |- context [match ?x with _ => _ end] =>
             lazymatch x with
             | context [match _ with _ => _ end] => fail
             | _ => destruct x eqn:?; cbn
             end
         end.

Ltac run_method :=
  unfold sameTransports, policy, subscribe, unsubscribe, sendUpdate,
    sendDelete, subscribeToChannels, reconnected, reconnectionFailed,
    handleMessage, send, socketSend, bind, modify, ret, worldOf;
  cbn; break_match; auto.

Lemma send_sameTransports (m : frame) (w : world) :
  sameTransports w (worldOf (send m w)) /\
  this (worldOf (send m w)) = this w.
Proof. destruct w as [[] []]. run_method. Qed.

Lemma subscribe_sameTransports (ch : channel) (cb : callback) (w : world) :
  sameTransports w (worldOf (subscribe ch cb w)).
Proof. destruct w as [[] []]. run_method. Qed.

Lemma unsubscribe_sameTransports (ch : channel) (cb : callback) (w : world) :
  sameTransports w (worldOf (unsubscribe ch cb w)).
Proof. destruct w as [[] []]. run_method. Qed.

Lemma reconnected_sameTransports (w : world) :
  sameTransports w (reconnected w) /\ this (reconnected w) = this w.
Proof.
  unfold reconnected.
  destruct (_ >? 0); [| repeat split].
  unfold subscribeToChannels.
  destruct (send_sameTransports
              (subscribeFrame (Map.keys (subscribers (this w)))) w)
    as [Hsame Hthis].
  destruct (send _ w) as [a w' | e w']; [split; assumption |].
  simpl in Hsame, Hthis. destruct w' as [[] []]. exact (conj Hsame Hthis).
Qed.

Lemma handleMessage_sameTransports (data : incoming) (w : world) :
  sameTransports w (handleMessage data w) /\
  subscribers (this (handleMessage data w)) = subscribers (this w).
Proof. destruct w as [[] []]. run_method. Qed.

(** *** Invariants of the reachable worlds *)

Lemma subscribe_keys (ch : channel) (cb : callback) (w : world) :
  NoDup (Map.keys (subscribers (this w))) ->
  NoDup (Map.keys (subscribers (this (worldOf (subscribe ch cb w))))).
Proof.
  destruct w as [[] []]. cbn. intro H.
  run_method; repeat apply NoDup_keys_set; exact H.
Qed.

Lemma unsubscribe_keys (ch : channel) (cb : callback) (w : world) :
  NoDup (Map.keys (subscribers (this w))) ->
  NoDup (Map.keys (subscribers (this (worldOf (unsubscribe ch cb w))))).
Proof.
  destruct w as [[] []]. cbn. intro H.
  run_method; try apply NoDup_keys_delete; repeat apply NoDup_keys_set;
    exact H.
Qed.

(** A world with the transports, the policy and the registry keys of a
    world that satisfies the invariant satisfies it. *)
Lemma invariant_sameTransports (w w' : world) :
  invariant w -> sameTransports w w' ->
  NoDup (Map.keys (subscribers (this w'))) -> invariant w'.
Proof.
  intros [Hk Hm Hd Ha Hs] (Hso & _ & Hp) Hk'.
  unfold policy in Hp. injection Hp as Hp1 Hp2 Hp3.
  constructor; congruence.
Qed.

Lemma promised_not_connecting (k : socket) :
  state k <> CONNECTING -> promised k.
Proof. intros H Hk. contradiction. Qed.

Lemma connect_invariant (who : caller) (w : world) :
  invariant w -> invariant (connect who w).
Proof.
  intros [Hk Hm Hd Ha Hs]. destruct w as [[] []].
  constructor; cbn in *; try assumption.
  apply Forall_app. split; [exact Hs |].
  constructor; [easy | constructor].
Qed.

Lemma setSockets_invariant (l : list socket) (w : world) :
  invariant w -> Forall promised l -> invariant (setSockets l w).
Proof.
  intros [Hk Hm Hd Ha Hs] Hl. destruct w as [[] []].
  constructor; cbn in *; assumption.
Qed.

(** Settling the promise of a transport that is not connecting. *)
Lemma resolve_invariant (t : socketId) (w : world) :
  invariant w -> stateOf t w <> Some CONNECTING -> invariant (resolve t w).
Proof.
  intros Hinv Hstate. unfold resolve, stateOf in *.
  destruct (nth_error (sockets (env w)) t) as [k |] eqn:Hk; [| exact Hinv].
  destruct (promise k); try exact Hinv.
  assert (Hinv' : invariant
            (setSockets (adjust t (setPromise Fulfilled) (sockets (env w))) w)).
  { apply setSockets_invariant; [exact Hinv |].
    apply Forall_adjust; [apply Hinv |].
    intros x Hx. rewrite Hk in Hx. injection Hx as <-.
    apply promised_not_connecting. simpl in *. congruence. }
  destruct (origin k); [exact Hinv' |].
  destruct (reconnected_sameTransports
              (setSockets (adjust t (setPromise Fulfilled) (sockets (env w))) w))
    as [Hsame Hthis].
  apply (invariant_sameTransports _ _ Hinv' Hsame).
  rewrite Hthis. apply Hinv'.
Qed.

Lemma reject_invariant (t : socketId) (w : world) :
  invariant w -> stateOf t w <> Some CONNECTING -> invariant (reject t w).
Proof.
  intros Hinv Hstate. unfold reject, stateOf in *.
  destruct (nth_error (sockets (env w)) t) as [k |] eqn:Hk; [| exact Hinv].
  destruct (promise k); try exact Hinv.
  assert (Hinv' : invariant
            (setSockets (adjust t (setPromise Rejected) (sockets (env w))) w)).
  { apply setSockets_invariant; [exact Hinv |].
    apply Forall_adjust; [apply Hinv |].
    intros x Hx. rewrite Hk in Hx. injection Hx as <-.
    apply promised_not_connecting. simpl in *. congruence. }
  destruct (origin k); [exact Hinv' |].
  unfold reconnectionFailed.
  destruct Hinv' as [Hk' Hm Hd Ha Hs].
  destruct (setSockets _ w) as [[] []]. constructor; assumption.
Qed.

Lemma attemptReconnect_invariant (w : world) :
  invariant w -> invariant (attemptReconnect w).
Proof.
  intros [Hk Hm Hd Ha Hs]. destruct w as [[] []]. unfold attemptReconnect.
  cbn in *. destruct (Z.geb_spec reconnectAttempts0 maxReconnectAttempts0);
    constructor; cbn; try assumption; lia.
Qed.

Lemma close_invariant (w : world) : invariant w -> invariant (close w).
Proof.
  intros [Hk Hm Hd Ha Hs]. destruct w as [[] []]. unfold close.
  cbn in *. destruct ws0 as [t |]; constructor; cbn; try assumption.
  - constructor.
  - apply Forall_adjust; [exact Hs |].
    intros x _. apply promised_not_connecting.
    destruct (state x) eqn:Hx; simpl; congruence.
Qed.

Lemma step_invariant (e : event) (w w' : world) :
  invariant w -> step e w = Some w' -> invariant w'.
Proof.
  intros Hinv Hstep. destruct e; simpl in Hstep.
  - injection Hstep as <-. now apply connect_invariant.
  - injection Hstep as <-.
    apply (invariant_sameTransports w); [exact Hinv | |].
    + apply subscribe_sameTransports.
    + apply subscribe_keys, Hinv.
  - injection Hstep as <-.
    apply (invariant_sameTransports w); [exact Hinv | |].
    + apply unsubscribe_sameTransports.
    + apply unsubscribe_keys, Hinv.
  - injection Hstep as <-. unfold sendUpdate.
    destruct (send_sameTransports (updateFrame ch data) w) as [Hs Ht].
    apply (invariant_sameTransports w); [exact Hinv | exact Hs |].
    rewrite Ht. apply Hinv.
  - injection Hstep as <-. unfold sendDelete.
    destruct (send_sameTransports (deleteFrame ch keys) w) as [Hs Ht].
    apply (invariant_sameTransports w); [exact Hinv | exact Hs |].
    rewrite Ht. apply Hinv.
  - injection Hstep as <-. now apply close_invariant.
  - destruct (stateOf t w) as [[] |] eqn:Hstate; try discriminate.
    injection Hstep as <-. apply resolve_invariant.
    + destruct Hinv as [Hk Hm Hd Ha Hs]. destruct w as [[] []].
      constructor; cbn in *; try assumption; try lia.
      apply Forall_adjust; [exact Hs |].
      intros x _. now apply promised_not_connecting.
    + unfold stateOf. destruct w as [[] []]. cbn.
      rewrite nth_error_adjust_same.
      destruct (nth_error sockets0 t); simpl; congruence.
  - destruct (stateOf t w) as [[] |] eqn:Hstate; try discriminate.
    injection Hstep as <-.
    destruct (handleMessage_sameTransports data w) as [Hs Ht].
    apply (invariant_sameTransports w); [exact Hinv | exact Hs |].
    rewrite Ht. apply Hinv.
  - assert (Hgo : forall w1,
              w1 = log "WebSocket error"
                     (setSockets
                        (adjust t
                           (fun k => match state k with
                                     | CONNECTING => setState CLOSING k
                                     | _ => k
                                     end) (sockets (env w))) w) ->
              invariant (reject t w1)).
    { intros w1 ->. apply reject_invariant.
      - destruct Hinv as [Hk Hm Hd Ha Hs]. destruct w as [[] []].
        constructor; cbn in *; try assumption.
        apply Forall_adjust; [exact Hs |].
        intros x Hx. rewrite Forall_forall in Hs.
        apply nth_error_In in Hx. specialize (Hs x Hx).
        destruct (state x) eqn:Hsx; [now apply promised_not_connecting | | |];
          exact Hs.
      - unfold stateOf. destruct w as [[] []]. cbn.
        rewrite nth_error_adjust_same.
        destruct (nth_error sockets0 t) as [k |]; simpl; [| congruence].
        destruct (state k) eqn:Hsk; simpl; congruence. }
    destruct (stateOf t w) as [[] |]; try discriminate;
      injection Hstep as <-; now apply Hgo.
  - assert (Hgo : invariant
              (attemptReconnect
                 (setWebsocketId None
                    (setConnected false
                       (log "WebSocket closed"
                          (setSockets
                             (adjust t (setState CLOSED) (sockets (env w)))
                             w)))))).
    { apply attemptReconnect_invariant.
      destruct Hinv as [Hk Hm Hd Ha Hs]. destruct w as [[] []].
      constructor; cbn in *; try assumption.
      apply Forall_adjust; [exact Hs |].
      intros x _. now apply promised_not_connecting. }
    destruct (stateOf t w) as [[] |]; try discriminate;
      injection Hstep as <-; exact Hgo.
  - destruct (nth_error (timers (env w)) i) as [[d []] |]; try discriminate.
    injection Hstep as <-. apply connect_invariant.
    destruct Hinv as [Hk Hm Hd Ha Hs]. destruct w as [[] []].
    constructor; cbn in *; assumption.
Qed.

Lemma initial_invariant : invariant initial.
Proof. constructor; cbn; try constructor; lia. Qed.

Lemma reachable_invariant (w : world) : reachable w -> invariant w.
Proof.
  induction 1 as [| e w w' _ IH Hstep];
    [exact initial_invariant | exact (step_invariant e w w' IH Hstep)].
Qed.

Lemma run_reachable (trace : list event) :
  forall w w', reachable w -> run trace w = Some w' -> reachable w'.
Proof.
  induction trace as [| e trace IH]; intros w w' Hw Hrun; simpl in Hrun.
  - now injection Hrun as <-.
  - destruct (step e w) as [w1 |] eqn:Hstep; [| discriminate].
    apply (IH w1); [| exact Hrun]. exact (reachable_step e w w1 Hw Hstep).
Qed.

(** *** Transports and promises *)

Lemma nth_promise_adjust (f : socket -> socket) (l : list socket) (i t : nat) :
  (forall x, promise (f x) = promise x) ->
  option_map promise (nth_error (adjust i f l) t) =
  option_map promise (nth_error l t).
Proof.
  intro Hf. destruct (Nat.eq_dec i t) as [-> | Hne].
  - rewrite nth_error_adjust_same. destruct (nth_error l t); simpl; [| reflexivity].
    now rewrite Hf.
  - now rewrite nth_error_adjust_other.
Qed.

Lemma sockets_resolve (t : socketId) (w : world) :
  sockets (env (resolve t w)) =
  match nth_error (sockets (env w)) t with
  | Some k =>
      match promise k with
      | Pending => adjust t (setPromise Fulfilled) (sockets (env w))
      | _ => sockets (env w)
      end
  | None => sockets (env w)
  end.
Proof.
  unfold resolve.
  destruct (nth_error (sockets (env w)) t) as [k |]; [| reflexivity].
  destruct (promise k); try reflexivity.
  destruct (origin k).
  - now destruct w as [[] []].
  - destruct (reconnected_sameTransports
                (setSockets (adjust t (setPromise Fulfilled) (sockets (env w))) w))
      as [(Hs & _) _].
    rewrite Hs. now destruct w as [[] []].
Qed.

Lemma sockets_reject (t : socketId) (w : world) :
  sockets (env (reject t w)) =
  match nth_error (sockets (env w)) t with
  | Some k =>
      match promise k with
      | Pending => adjust t (setPromise Rejected) (sockets (env w))
      | _ => sockets (env w)
      end
  | None => sockets (env w)
  end.
Proof.
  unfold reject.
  destruct (nth_error (sockets (env w)) t) as [k |]; [| reflexivity].
  destruct (promise k); try reflexivity.
  destruct (origin k); now destruct w as [[] []].
Qed.

Lemma sockets_attemptReconnect (w : world) :
  sockets (env (attemptReconnect w)) = sockets (env w).
Proof.
  unfold attemptReconnect. destruct w as [[] []]. cbn.
  now destruct (_ >=? _).
Qed.

Lemma promise_after_connect (who : caller) (w : world) (t : socketId)
  (p : promiseState) :
  promiseOf t w = Some p -> promiseOf t (connect who w) = Some p.
Proof.
  unfold promiseOf. destruct w as [[] []]. cbn. intro H.
  rewrite nth_error_app1; [exact H |].
  apply nth_error_Some. destruct (nth_error sockets0 t); [| discriminate].
  discriminate.
Qed.

(** A promise changes only while it is pending, and only by the [open]
    or the [error] event of its own transport. *)
Lemma promise_settled_by_own_transport
  (e : event) (w w' : world) (t : socketId) (p : promiseState) :
  step e w = Some w' -> promiseOf t w = Some p ->
  promiseOf t w' = Some p \/
  (p = Pending /\
   ((e = onopen t /\ promiseOf t w' = Some Fulfilled) \/
    (e = onerror t /\ promiseOf t w' = Some Rejected))).
Proof.
  intros Hstep Hp. destruct e; simpl in Hstep.
  - injection Hstep as <-. left. now apply promise_after_connect.
  - injection Hstep as <-. left. unfold promiseOf in *.
    now rewrite (proj1 (subscribe_sameTransports ch cb w)).
  - injection Hstep as <-. left. unfold promiseOf in *.
    now rewrite (proj1 (unsubscribe_sameTransports ch cb w)).
  - injection Hstep as <-. left. unfold promiseOf, sendUpdate in *.
    now rewrite (proj1 (proj1 (send_sameTransports _ w))).
  - injection Hstep as <-. left. unfold promiseOf, sendDelete in *.
    now rewrite (proj1 (proj1 (send_sameTransports _ w))).
  - injection Hstep as <-. left. unfold promiseOf, close in *.
    destruct w as [[[t0 |] ? ? ? ? ? ?] []]; cbn in *; [| exact Hp].
    rewrite nth_promise_adjust; [exact Hp |].
    intro x. now destruct (state x).
  - destruct (stateOf t0 w) as [[] |]; try discriminate.
    injection Hstep as <-. unfold promiseOf in *.
    rewrite sockets_resolve. destruct w as [[] []]. cbn in *.
    rewrite nth_error_adjust_same.
    destruct (nth_error sockets0 t0) as [k |] eqn:Hk; simpl;
      [| left; now rewrite nth_promise_adjust].
    destruct (promise k) eqn:Hpk;
      try (left; now rewrite nth_promise_adjust).
    destruct (Nat.eq_dec t0 t) as [-> | Hne].
    + right. rewrite Hk in Hp. simpl in Hp. rewrite Hpk in Hp.
      injection Hp as <-. split; [reflexivity |]. left.
      split; [reflexivity |].
      now rewrite !nth_error_adjust_same, Hk.
    + left. rewrite nth_error_adjust_other by exact Hne.
      now rewrite nth_promise_adjust.
  - destruct (stateOf t0 w) as [[] |]; try discriminate.
    injection Hstep as <-. left. unfold promiseOf in *.
    now rewrite (proj1 (proj1 (handleMessage_sameTransports data w))).
  - assert (Hgo :
      promiseOf t
        (reject t0
           (log "WebSocket error"
              (setSockets
                 (adjust t0
                    (fun k => match state k with
                              | CONNECTING => setState CLOSING k
                              | _ => k
                              end) (sockets (env w))) w))) = Some p \/
      (p = Pending /\ t0 = t /\
       promiseOf t
         (reject t0
            (log "WebSocket error"
               (setSockets
                  (adjust t0
                     (fun k => match state k with
                               | CONNECTING => setState CLOSING k
                               | _ => k
                               end) (sockets (env w))) w))) = Some Rejected)).
    { unfold promiseOf in *. rewrite sockets_reject.
      destruct w as [[] []]. cbn in *.
      assert (Hkeep : forall x,
                promise match state x with
                        | CONNECTING => setState CLOSING x
                        | _ => x
                        end = promise x) by (intro x; now destruct (state x)).
      rewrite nth_error_adjust_same.
      destruct (nth_error sockets0 t0) as [k |] eqn:Hk; simpl;
        [| left; now rewrite nth_promise_adjust].
      rewrite Hkeep.
      destruct (promise k) eqn:Hpk;
        try (left; now rewrite nth_promise_adjust).
      destruct (Nat.eq_dec t0 t) as [-> | Hne].
      + right. rewrite Hk in Hp. simpl in Hp. rewrite Hpk in Hp.
        injection Hp as <-. split; [reflexivity |]. split; [reflexivity |].
        now rewrite !nth_error_adjust_same, Hk.
      + left. rewrite nth_error_adjust_other by exact Hne.
        now rewrite nth_promise_adjust. }
    destruct (stateOf t0 w) as [[] |]; try discriminate;
      injection Hstep as <-;
      (destruct Hgo as [Hgo | (-> & -> & Hgo)];
       [now left | right; split; [reflexivity | right; now split]]).
  - assert (Hgo :
      promiseOf t
        (attemptReconnect
           (setWebsocketId None
              (setConnected false
                 (log "WebSocket closed"
                    (setSockets
                       (adjust t0 (setState CLOSED) (sockets (env w))) w)))))
      = Some p).
    { unfold promiseOf in *. rewrite sockets_attemptReconnect.
      destruct w as [[] []]. cbn in *. now rewrite nth_promise_adjust. }
    destruct (stateOf t0 w) as [[] |]; try discriminate;
      injection Hstep as <-; now left.
  - destruct (nth_error (timers (env w)) i) as [[d []] |]; try discriminate.
    injection Hstep as <-. left. apply promise_after_connect.
    unfold promiseOf in *. now destruct w as [[] []].
Qed.

Lemma connecting_pending (w : world) (t : socketId) :
  invariant w -> stateOf t w = Some CONNECTING ->
  exists k, nth_error (sockets (env w)) t = Some k /\
            state k = CONNECTING /\ promise k = Pending.
Proof.
  intros Hinv Hstate. unfold stateOf in Hstate.
  destruct (nth_error (sockets (env w)) t) as [k |] eqn:Hk; [| discriminate].
  injection Hstate as Hsk. exists k. split; [reflexivity |].
  split; [exact Hsk |].
  pose proof (inv_sockets w Hinv) as Hs. rewrite Forall_forall in Hs.
  apply (Hs k); [now apply nth_error_In in Hk | exact Hsk].
Qed.

(** C5, counterexample.  A second [connect()] while the first attempt
    is in flight opens a second transport: both are connecting, the
    service holds the second, and when the first opens only the first
    caller's promise is fulfilled. *)
Lemma second_connect_opens_second_transport :
  exists w1 w2 w3,
    step callConnect initial = Some w1 /\
    stateOf 0%nat w1 = Some CONNECTING /\
    step callConnect w1 = Some w2 /\
    sockets (env w2) =
      [mkSocket CONNECTING Application Pending;
       mkSocket CONNECTING Application Pending] /\
    ws (this w2) = Some 1%nat /\
    step (onopen 0%nat) w2 = Some w3 /\
    promiseOf 0%nat w3 = Some Fulfilled /\ promiseOf 1%nat w3 = Some Pending.
Proof. do 3 eexists. repeat split. Qed.

(** C5, amended.  Every [connect()] call opens a new transport, also
    while an earlier attempt is in flight: the transport is added to
    those that exist, connecting and with a pending promise, and the
    service holds the newest.  Each call's promise is settled by its
    own transport only: a promise changes only from pending, to
    fulfilled at the [open] event of its transport or to rejected at
    its [error] event; and in a reachable world the [open] event of a
    transport fulfils its promise. *)
Theorem connect_opens_its_own_transport (w : world) (who : caller) :
  (sockets (env (connect who w)) =
     sockets (env w) ++ [mkSocket CONNECTING who Pending] /\
   ws (this (connect who w)) = Some (List.length (sockets (env w)))) /\
  (forall e w' t p,
     step e w = Some w' -> promiseOf t w = Some p ->
     promiseOf t w' = Some p \/
     (p = Pending /\
      ((e = onopen t /\ promiseOf t w' = Some Fulfilled) \/
       (e = onerror t /\ promiseOf t w' = Some Rejected)))) /\
  (reachable w ->
   forall t w', step (onopen t) w = Some w' ->
                promiseOf t w' = Some Fulfilled).
Proof.
  split; [now destruct w as [[] []] |].
  split; [intros e w' t p; apply promise_settled_by_own_transport |].
  intros Hw t w' Hstep.
  assert (Hstate : stateOf t w = Some CONNECTING).
  { simpl in Hstep. now destruct (stateOf t w) as [[] |]. }
  destruct (connecting_pending w t (reachable_invariant w Hw) Hstate)
    as (k & Hk & _ & Hp).
  assert (Hbefore : promiseOf t w = Some Pending)
    by (unfold promiseOf; now rewrite Hk, <- Hp).
  destruct (promise_settled_by_own_transport _ _ _ t Pending Hstep Hbefore)
    as [Hsame | (_ & [(_ & Hful) | (Habs & _)])].
  - exfalso. simpl in Hstep. rewrite Hstate in Hstep.
    injection Hstep as <-. unfold promiseOf in Hsame.
    rewrite sockets_resolve in Hsame. destruct w as [[] []]. cbn in *.
    rewrite nth_error_adjust_same, Hk in Hsame. simpl in Hsame.
    rewrite Hp in Hsame. rewrite nth_error_adjust_same in Hsame.
    rewrite nth_error_adjust_same, Hk in Hsame. discriminate Hsame.
  - exact Hful.
  - discriminate Habs.
Qed.

(** *** Reconnection *)

Lemma scheduled_sameTransports (w w' : world) :
  sameTransports w w' -> scheduled w' = scheduled w /\ policy w' = policy w.
Proof. intros (_ & Ht & Hp). unfold scheduled. now rewrite Ht. Qed.

Lemma reject_schedule (t : socketId) (w : world) :
  timers (env (reject t w)) = timers (env w) /\
  policy (reject t w) = policy w.
Proof.
  unfold reject.
  destruct (nth_error (sockets (env w)) t) as [k |]; [| now split].
  destruct (promise k); try now split.
  destruct (origin k); now destruct w as [[] []].
Qed.

Lemma attemptReconnect_exhausted (w : world) :
  maxReconnectAttempts (this w) <= reconnectAttempts (this w) ->
  attemptReconnect w = log "Max reconnection attempts reached" w.
Proof.
  intro H. unfold attemptReconnect.
  destruct (Z.geb_spec (reconnectAttempts (this w))
              (maxReconnectAttempts (this w))); [reflexivity | lia].
Qed.

Lemma attemptReconnect_schedules (w : world) :
  reconnectAttempts (this w) < maxReconnectAttempts (this w) ->
  scheduled (attemptReconnect w) =
    scheduled w ++
    [reconnectDelay (this w) * 2 ^ (reconnectAttempts (this w) + 1 - 1)] /\
  reconnectAttempts (this (attemptReconnect w)) =
    reconnectAttempts (this w) + 1.
Proof.
  intro H. unfold attemptReconnect, scheduled.
  destruct (Z.geb_spec (reconnectAttempts (this w))
              (maxReconnectAttempts (this w))); [lia |].
  destruct w as [[] []]. cbn [this env timers setTimers log
    setReconnectAttempts reconnectAttempts reconnectDelay
    maxReconnectAttempts sockets wire console invoked].
  now rewrite map_app.
Qed.

Lemma timeout_schedule (i : nat) (d : Z) (w : world) :
  nth_error (timers (env w)) i = Some (mkTimer d false) ->
  map delay (adjust i (fun _ => mkTimer d true) (timers (env w))) =
  map delay (timers (env w)).
Proof.
  intro H. apply map_adjust. intros x Hx.
  rewrite H in Hx. now injection Hx as <-.
Qed.

(** A turn of the event loop in which no transport opens or closes
    sets no timer and leaves the policy alone. *)
Lemma step_keeps_schedule (e : event) (w w' : world) :
  (forall t, e <> onopen t) -> (forall t, e <> onclose t) ->
  step e w = Some w' ->
  scheduled w' = scheduled w /\ policy w' = policy w.
Proof.
  intros Hopen Hclose Hstep. destruct e; simpl in Hstep.
  - injection Hstep as <-. now destruct w as [[] []].
  - injection Hstep as <-.
    apply scheduled_sameTransports, subscribe_sameTransports.
  - injection Hstep as <-.
    apply scheduled_sameTransports, unsubscribe_sameTransports.
  - injection Hstep as <-.
    apply scheduled_sameTransports, send_sameTransports.
  - injection Hstep as <-.
    apply scheduled_sameTransports, send_sameTransports.
  - injection Hstep as <-. unfold close.
    now destruct w as [[[t0 |] ? ? ? ? ? ?] []].
  - now elim (Hopen t).
  - destruct (stateOf t w) as [[] |]; try discriminate.
    injection Hstep as <-.
    apply scheduled_sameTransports, handleMessage_sameTransports.
  - assert (Hgo : forall w1,
              timers (env w1) = timers (env w) -> policy w1 = policy w ->
              scheduled (reject t w1) = scheduled w /\
              policy (reject t w1) = policy w).
    { intros w1 Ht Hp. destruct (reject_schedule t w1) as [Ht' Hp'].
      unfold scheduled. now rewrite Ht', Hp', Ht, Hp. }
    destruct (stateOf t w) as [[] |]; try discriminate;
      injection Hstep as <-; apply Hgo; now destruct w as [[] []].
  - now elim (Hclose t).
  - destruct (nth_error (timers (env w)) i) as [[d []] |] eqn:Hi;
      try discriminate.
    injection Hstep as <-. pose proof (timeout_schedule i d w Hi) as Hmap.
    unfold scheduled. destruct w as [[] []]. cbn in *. now rewrite Hmap.
Qed.

Lemma close_or_not (e : event) :
  (exists t, e = onclose t) \/ (forall t, e <> onclose t).
Proof.
  destruct e; try (right; intros ?; discriminate).
  left. now exists t.
Qed.

(** Once the ceiling is reached, a turn of the event loop in which no
    transport opens sets no timer and leaves the counter alone. *)
Lemma step_exhausted (e : event) (w w' : world) :
  (forall t, e <> onopen t) ->
  maxReconnectAttempts (this w) <= reconnectAttempts (this w) ->
  step e w = Some w' ->
  scheduled w' = scheduled w /\ policy w' = policy w.
Proof.
  intros Hopen Hmax Hstep.
  destruct (close_or_not e) as [[t ->] | Hclose];
    [| now apply (step_keeps_schedule e)].
  simpl in Hstep.
  assert (Hgo : forall w1,
            timers (env w1) = timers (env w) -> policy w1 = policy w ->
            scheduled (attemptReconnect w1) = scheduled w /\
            policy (attemptReconnect w1) = policy w).
  { intros w1 Ht Hp. rewrite attemptReconnect_exhausted.
    - unfold scheduled, policy in *. destruct w1 as [[] []].
      cbn in *. now rewrite Ht, Hp.
    - unfold policy in Hp. injection Hp as -> -> _. exact Hmax. }
  destruct (stateOf t w) as [[] |]; try discriminate;
    injection Hstep as <-; apply Hgo; now destruct w as [[] []].
Qed.

Lemma run_exhausted (trace : list event) :
  forall w w',
    noOpen trace = true ->
    maxReconnectAttempts (this w) <= reconnectAttempts (this w) ->
    run trace w = Some w' ->
    scheduled w' = scheduled w /\ policy w' = policy w.
Proof.
  induction trace as [| e trace IH]; intros w w' Hno Hmax Hrun;
    simpl in Hrun, Hno.
  - injection Hrun as <-. now split.
  - apply andb_true_iff in Hno as [He Hno].
    destruct (step e w) as [w1 |] eqn:Hstep; [| discriminate].
    assert (Hopen : forall t, e <> onopen t)
      by (intros t ->; discriminate He).
    destruct (step_exhausted e w w1 Hopen Hmax Hstep) as [Hs Hp].
    assert (Hmax1 : maxReconnectAttempts (this w1) <= reconnectAttempts (this w1)).
    { unfold policy in Hp. injection Hp as -> -> _. exact Hmax. }
    destruct (IH w1 w' Hno Hmax1 Hrun) as [Hs' Hp'].
    split; congruence.
Qed.

Lemma quiescent_socket (w : world) (t : socketId) :
  quiescent w = true ->
  stateOf t w = Some CLOSED \/ stateOf t w = None.
Proof.
  unfold quiescent, stateOf. intro H.
  apply andb_true_iff in H as [Hs _]. rewrite forallb_forall in Hs.
  destruct (nth_error (sockets (env w)) t) as [k |] eqn:Hk; [| now right].
  left. apply nth_error_In in Hk. specialize (Hs k Hk). simpl.
  now destruct (state k).
Qed.

Lemma quiescent_timer (w : world) (i : nat) (tm : timer) :
  quiescent w = true -> nth_error (timers (env w)) i = Some tm ->
  fired tm = true.
Proof.
  unfold quiescent. intros H Hi.
  apply andb_true_iff in H as [_ Ht]. rewrite forallb_forall in Ht.
  apply Ht. now apply nth_error_In in Hi.
Qed.

Lemma quiescent_sameTransports (w w' : world) :
  sameTransports w w' -> quiescent w = true -> quiescent w' = true.
Proof. intros (Hs & Ht & _). unfold quiescent. now rewrite Hs, Ht. Qed.

Lemma forallb_adjust {A : Type} (p : A -> bool) (f : A -> A) (l : list A) :
  forall i,
    (forall x, p x = true -> p (f x) = true) ->
    forallb p l = true -> forallb p (adjust i f l) = true.
Proof.
  induction l as [| x l IH]; intros [| i] Hf Hl; simpl in *; try exact Hl;
    apply andb_true_iff in Hl as [Hx Hl]; apply andb_true_iff; auto.
Qed.

(** While nothing is in flight, only a [connect()] call of the
    application can change that: any other event that can occur leaves
    every transport closed and sets no timer. *)
Lemma step_quiescent (e : event) (w w' : world) :
  e <> callConnect -> quiescent w = true -> step e w = Some w' ->
  quiescent w' = true /\ scheduled w' = scheduled w.
Proof.
  intros He Hq Hstep. destruct e; simpl in Hstep.
  - now elim He.
  - injection Hstep as <-.
    pose proof (subscribe_sameTransports ch cb w) as Hs.
    split; [now apply (quiescent_sameTransports w) |
            now apply scheduled_sameTransports].
  - injection Hstep as <-.
    pose proof (unsubscribe_sameTransports ch cb w) as Hs.
    split; [now apply (quiescent_sameTransports w) |
            now apply scheduled_sameTransports].
  - injection Hstep as <-.
    pose proof (proj1 (send_sameTransports (updateFrame ch data) w)) as Hs.
    split; [now apply (quiescent_sameTransports w) |
            now apply scheduled_sameTransports].
  - injection Hstep as <-.
    pose proof (proj1 (send_sameTransports (deleteFrame ch keys) w)) as Hs.
    split; [now apply (quiescent_sameTransports w) |
            now apply scheduled_sameTransports].
  - injection Hstep as <-. unfold close, quiescent, scheduled in *.
    destruct w as [[[t0 |] ? ? ? ? ? ?] []]; cbn in *; [| now split].
    split; [| reflexivity].
    apply andb_true_iff in Hq as [Hs Ht]. apply andb_true_iff.
    split; [| exact Ht].
    apply forallb_adjust; [| exact Hs].
    intros x Hx. destruct (state x) eqn:Hsx; try discriminate Hx.
    now rewrite Hsx.
  - destruct (quiescent_socket w t Hq) as [H | H]; rewrite H in Hstep;
      discriminate.
  - destruct (quiescent_socket w t Hq) as [H | H]; rewrite H in Hstep;
      discriminate.
  - destruct (quiescent_socket w t Hq) as [H | H]; rewrite H in Hstep;
      discriminate.
  - destruct (quiescent_socket w t Hq) as [H | H]; rewrite H in Hstep;
      discriminate.
  - destruct (nth_error (timers (env w)) i) as [[d f] |] eqn:Hi;
      [| discriminate].
    pose proof (quiescent_timer w i _ Hq Hi) as Hf. simpl in Hf. subst f.
    discriminate.
Qed.

Lemma run_quiescent (trace : list event) :
  forall w w',
    callsConnect trace = false -> quiescent w = true ->
    run trace w = Some w' ->
    quiescent w' = true /\ scheduled w' = scheduled w.
Proof.
  induction trace as [| e trace IH]; intros w w' Hno Hq Hrun;
    simpl in Hrun, Hno.
  - injection Hrun as <-. now split.
  - apply orb_false_iff in Hno as [He Hno].
    destruct (step e w) as [w1 |] eqn:Hstep; [| discriminate].
    assert (Hne : e <> callConnect) by (intros ->; discriminate He).
    destruct (step_quiescent e w w1 Hne Hq Hstep) as [Hq1 Hs1].
    destruct (IH w1 w' Hno Hq1 Hrun) as [Hq' Hs'].
    split; congruence.
Qed.

Lemma resolve_timers (t : socketId) (w : world) :
  timers (env (resolve t w)) = timers (env w).
Proof.
  unfold resolve.
  destruct (nth_error (sockets (env w)) t) as [k |]; [| reflexivity].
  destruct (promise k); try reflexivity.
  destruct (origin k); [now destruct w as [[] []] |].
  rewrite (proj1 (proj2 (proj1 (reconnected_sameTransports _)))).
  now destruct w as [[] []].
Qed.

(** What the [close] event of a transport does to the service, and
    that no other event sets a timer: reconnection starts from a
    [close] event only. *)
Theorem reconnection_only_after_close (e : event) (w w' : world) :
  step e w = Some w' ->
  (forall t, e = onclose t ->
     connected (this w') = false /\
     websocketId (this w') = None /\
     stateOf t w' = Some CLOSED) /\
  ((forall t, e <> onclose t) -> scheduled w' = scheduled w).
Proof.
  intro Hstep. split.
  - intros t ->. simpl in Hstep.
    assert (Hgo : forall w1,
              connected (this w1) = false -> websocketId (this w1) = None ->
              stateOf t w1 = Some CLOSED ->
              connected (this (attemptReconnect w1)) = false /\
              websocketId (this (attemptReconnect w1)) = None /\
              stateOf t (attemptReconnect w1) = Some CLOSED).
    { intros w1 Hc Hi Hs. unfold stateOf in *.
      rewrite sockets_attemptReconnect. unfold attemptReconnect.
      destruct w1 as [[] []]. cbn in *. now destruct (_ >=? _). }
    assert (Hclosed : forall k,
              nth_error (sockets (env w)) t = Some k ->
              stateOf t
                (setWebsocketId None
                   (setConnected false
                      (log "WebSocket closed"
                         (setSockets
                            (adjust t (setState CLOSED) (sockets (env w)))
                            w)))) = Some CLOSED).
    { intros k Hk. unfold stateOf. destruct w as [[] []]. cbn in *.
      now rewrite nth_error_adjust_same, Hk. }
    unfold stateOf in Hstep.
    destruct (nth_error (sockets (env w)) t) as [k |] eqn:Hk;
      [| discriminate].
    simpl in Hstep. destruct (state k); try discriminate;
      injection Hstep as <-;
      (apply Hgo; [now destruct w as [[] []] | now destruct w as [[] []] |
                   now apply (Hclosed k)]).
  - intro Hne. destruct e; simpl in Hstep.
    + injection Hstep as <-. now destruct w as [[] []].
    + injection Hstep as <-.
      apply scheduled_sameTransports, subscribe_sameTransports.
    + injection Hstep as <-.
      apply scheduled_sameTransports, unsubscribe_sameTransports.
    + injection Hstep as <-.
      apply scheduled_sameTransports, send_sameTransports.
    + injection Hstep as <-.
      apply scheduled_sameTransports, send_sameTransports.
    + injection Hstep as <-. unfold close.
      now destruct w as [[[t0 |] ? ? ? ? ? ?] []].
    + destruct (stateOf t w) as [[] |]; try discriminate.
      injection Hstep as <-. unfold scheduled. rewrite resolve_timers.
      now destruct w as [[] []].
    + destruct (stateOf t w) as [[] |]; try discriminate.
      injection Hstep as <-.
      apply scheduled_sameTransports, handleMessage_sameTransports.
    + assert (Hgo : forall w1,
                timers (env w1) = timers (env w) ->
                scheduled (reject t w1) = scheduled w).
      { intros w1 Ht. unfold scheduled.
        now rewrite (proj1 (reject_schedule t w1)), Ht. }
      destruct (stateOf t w) as [[] |]; try discriminate;
        injection Hstep as <-; apply Hgo; now destruct w as [[] []].
    + now elim (Hne t).
    + destruct (nth_error (timers (env w)) i) as [[d []] |] eqn:Hi;
        try discriminate.
      injection Hstep as <-. pose proof (timeout_schedule i d w Hi) as Hmap.
      unfold scheduled. destruct w as [[] []]. cbn in *. now rewrite Hmap.
Qed.

(** The first [close] of a connection: the service is disconnected and
    the first attempt is scheduled. *)
Lemma reconnection_only_after_close_witness :
  exists w w',
    run [callConnect; onopen 0%nat] initial = Some w /\
    step (onclose 0%nat) w = Some w' /\
    connected (this w') = false /\
    websocketId (this w') = None /\
    stateOf 0%nat w' = Some CLOSED.
Proof.
  eexists.
  match goal with
  | |- exists w', run ?tr initial = Some ?w0 /\ _ =>
      assert (Hrun : run tr initial = Some w0) by (vm_compute; reflexivity);
      assert (Hstep : exists w1, step (onclose 0%nat) w0 = Some w1)
        by (eexists; vm_compute; reflexivity);
      destruct Hstep as [w1 Hstep];
      exists w1;
      exact (conj Hrun
               (conj Hstep
                  (proj1 (reconnection_only_after_close
                            (onclose 0%nat) w0 w1 Hstep) 0%nat eq_refl)))
  end.
Defined.

(** The [close] event of a transport, while the ceiling is not
    reached, schedules the next attempt. *)
Lemma backoff_step (w w' : world) (t : socketId) (n : Z) :
  reachable w -> step (onclose t) w = Some w' ->
  reconnectAttempts (this w) = n - 1 -> n <= 10 ->
  scheduled w' = scheduled w ++ [1000 * 2 ^ (n - 1)] /\
  reconnectAttempts (this w') = n.
Proof.
  intros Hw Hstep Hn Hle.
  pose proof (reachable_invariant w Hw) as [_ Hmax Hdelay _ _].
  assert (Hgo : forall w1,
            policy w1 = policy w -> timers (env w1) = timers (env w) ->
            scheduled (attemptReconnect w1) =
              scheduled w ++ [1000 * 2 ^ (n - 1)] /\
            reconnectAttempts (this (attemptReconnect w1)) = n).
  { intros w1 Hp Ht. unfold policy in Hp. injection Hp as Ha Hm Hd.
    destruct (attemptReconnect_schedules w1) as [Hs Hc]; [lia |].
    rewrite Hs, Hc, Hd, Hdelay, Ha, Hn. unfold scheduled. rewrite Ht.
    split; [| lia]. now replace (n - 1 + 1 - 1) with (n - 1) by lia. }
  simpl in Hstep.
  destruct (stateOf t w) as [[] |]; try discriminate;
    injection Hstep as <-; apply Hgo; now destruct w as [[] []].
Qed.

(** A turn of the event loop in which no transport opens either
    leaves the timers and the counter alone, or schedules the attempt
    that follows the counter. *)
Lemma step_backoff (e : event) (w w' : world) :
  reachable w -> (forall t, e <> onopen t) -> step e w = Some w' ->
  (scheduled w' = scheduled w /\
   reconnectAttempts (this w') = reconnectAttempts (this w)) \/
  (scheduled w' = scheduled w ++ [1000 * 2 ^ reconnectAttempts (this w)] /\
   reconnectAttempts (this w') = reconnectAttempts (this w) + 1).
Proof.
  intros Hw Hopen Hstep.
  pose proof (reachable_invariant w Hw) as [_ Hmax _ Hc _].
  assert (Hsame : scheduled w' = scheduled w /\ policy w' = policy w ->
                  scheduled w' = scheduled w /\
                  reconnectAttempts (this w') = reconnectAttempts (this w)).
  { intros [Hs Hp]. split; [exact Hs |]. unfold policy in Hp.
    now injection Hp as -> _ _. }
  destruct (close_or_not e) as [[t ->] | Hclose];
    [| left; now apply Hsame, (step_keeps_schedule e)].
  destruct (Z.eq_dec (reconnectAttempts (this w)) 10) as [Hten | Hless].
  - left. apply Hsame, (step_exhausted (onclose t)); [exact Hopen | lia |
                                                     exact Hstep].
  - right.
    destruct (backoff_step w w' t (reconnectAttempts (this w) + 1) Hw Hstep)
      as [Hs Ha]; [lia | lia |].
    split; [| exact Ha].
    now replace (reconnectAttempts (this w) + 1 - 1)
      with (reconnectAttempts (this w)) in Hs by lia.
Qed.

Lemma run_backoff (trace : list event) :
  forall w w',
    reachable w -> noOpen trace = true -> run trace w = Some w' ->
    exists k,
      scheduled w' =
        scheduled w ++ delaysFrom (reconnectAttempts (this w)) k /\
      reconnectAttempts (this w') =
        reconnectAttempts (this w) + Z.of_nat k.
Proof.
  induction trace as [| e trace IH]; intros w w' Hw Hno Hrun;
    simpl in Hrun, Hno.
  - injection Hrun as <-. exists 0%nat. simpl.
    split; [now rewrite app_nil_r | lia].
  - apply andb_true_iff in Hno as [He Hno].
    destruct (step e w) as [w1 |] eqn:Hstep; [| discriminate].
    assert (Hopen : forall t, e <> onopen t)
      by (intros t ->; discriminate He).
    pose proof (reachable_step e w w1 Hw Hstep) as Hw1.
    destruct (IH w1 w' Hw1 Hno Hrun) as (k & Hs & Ha).
    destruct (step_backoff e w w1 Hw Hopen Hstep) as [[Hs1 Ha1] | [Hs1 Ha1]].
    + exists k. now rewrite Hs, Ha, Hs1, Ha1.
    + exists (S k). rewrite Hs, Ha, Hs1, Ha1. simpl delaysFrom.
      split; [now rewrite <- app_assoc | lia].
Qed.

(** C6.  The delay before reconnection attempt [n], counted from 1
    since the last successful open (the counter stands at [n - 1] when
    the attempt is scheduled), is [1000 * 2^(n-1)] milliseconds: this
    is what the [close] event of a transport passes to [setTimeout] in
    every reachable world, for [n] up to the ceiling of 10.  Whatever
    happens while no transport opens, the delays scheduled are those of
    the attempts that follow the counter, one after the other.  In the
    run of consecutive failures from the initial state the delays are
    those of attempts 1, 2, ... in this order; for attempts 1 to 5
    they are 1000, 2000, 4000, 8000 and 16000. *)
Theorem backoff_delays :
  (forall w w' t n,
     reachable w -> step (onclose t) w = Some w' ->
     reconnectAttempts (this w) = n - 1 -> n <= 10 ->
     scheduled w' = scheduled w ++ [1000 * 2 ^ (n - 1)] /\
     reconnectAttempts (this w') = n) /\
  (forall w trace w',
     reachable w -> noOpen trace = true -> run trace w = Some w' ->
     exists k,
       scheduled w' =
         scheduled w ++ delaysFrom (reconnectAttempts (this w)) k /\
       reconnectAttempts (this w') =
         reconnectAttempts (this w) + Z.of_nat k) /\
  (forall k, (k <= 9)%nat ->
     option_map scheduled (run (failureRun k) initial) =
     Some (map (fun n => 1000 * 2 ^ (Z.of_nat n - 1)) (seq 1 (S k)))) /\
  option_map scheduled (run (failureRun 4) initial) =
    Some [1000; 2000; 4000; 8000; 16000].
Proof.
  split; [| split; [| split; [| reflexivity]]].
  - intros w w' t n. apply backoff_step.
  - intros w trace w'. apply run_backoff.
  - intros k Hk.
    do 10 (destruct k as [| k]; [vm_compute; reflexivity |]). lia.
Qed.

(** *** Who opened a transport *)

Lemma originOf_adjust (f : socket -> socket) (l : list socket) (i t : nat) :
  (forall x, origin (f x) = origin x) ->
  option_map origin (nth_error (adjust i f l) t) =
  option_map origin (nth_error l t).
Proof.
  intro Hf. destruct (Nat.eq_dec i t) as [-> | Hne].
  - rewrite nth_error_adjust_same. destruct (nth_error l t); simpl; [| reflexivity].
    now rewrite Hf.
  - now rewrite nth_error_adjust_other.
Qed.

Lemma origin_after_connect (who : caller) (w : world) (t : socketId)
  (o : caller) :
  originOf t w = Some o -> originOf t (connect who w) = Some o.
Proof.
  unfold originOf. destruct w as [[] []]. cbn. intro H.
  rewrite nth_error_app1; [exact H |].
  apply nth_error_Some. destruct (nth_error sockets0 t); discriminate.
Qed.

(** The transports stay, and who opened a transport does not change. *)
Lemma origin_step (e : event) (w w' : world) (t : socketId) (o : caller) :
  step e w = Some w' -> originOf t w = Some o -> originOf t w' = Some o.
Proof.
  intros Hstep Ho. destruct e; simpl in Hstep.
  - injection Hstep as <-. now apply origin_after_connect.
  - injection Hstep as <-. unfold originOf in *.
    now rewrite (proj1 (subscribe_sameTransports ch cb w)).
  - injection Hstep as <-. unfold originOf in *.
    now rewrite (proj1 (unsubscribe_sameTransports ch cb w)).
  - injection Hstep as <-. unfold originOf, sendUpdate in *.
    now rewrite (proj1 (proj1 (send_sameTransports _ w))).
  - injection Hstep as <-. unfold originOf, sendDelete in *.
    now rewrite (proj1 (proj1 (send_sameTransports _ w))).
  - injection Hstep as <-. unfold originOf, close in *.
    destruct w as [[[t0 |] ? ? ? ? ? ?] []]; cbn in *; [| exact Ho].
    rewrite originOf_adjust; [exact Ho |].
    intro x. now destruct (state x).
  - destruct (stateOf t0 w) as [[] |]; try discriminate.
    injection Hstep as <-. unfold originOf in *.
    rewrite sockets_resolve. destruct w as [[] []]. cbn in *.
    destruct (nth_error (adjust t0 (setState OPEN) sockets0) t0) as [k |];
      [destruct (promise k) |]; now rewrite ?originOf_adjust.
  - destruct (stateOf t0 w) as [[] |]; try discriminate.
    injection Hstep as <-. unfold originOf in *.
    now rewrite (proj1 (proj1 (handleMessage_sameTransports data w))).
  - assert (Hkeep : forall x,
              origin match state x with
                     | CONNECTING => setState CLOSING x
                     | _ => x
                     end = origin x) by (intro x; now destruct (state x)).
    assert (Hgo : forall w1,
              sockets (env w1) =
                adjust t0
                  (fun k => match state k with
                            | CONNECTING => setState CLOSING k
                            | _ => k
                            end) (sockets (env w)) ->
              originOf t (reject t0 w1) = Some o).
    { intros w1 H1. unfold originOf in *. rewrite sockets_reject, H1.
      destruct (nth_error _ t0) as [k |];
        [destruct (promise k) |]; now rewrite ?originOf_adjust. }
    destruct (stateOf t0 w) as [[] |]; try discriminate;
      injection Hstep as <-; apply Hgo; now destruct w as [[] []].
  - assert (Hgo : forall w1,
              sockets (env w1) =
                adjust t0 (setState CLOSED) (sockets (env w)) ->
              originOf t (attemptReconnect w1) = Some o).
    { intros w1 H1. unfold originOf in *.
      rewrite sockets_attemptReconnect, H1. now rewrite originOf_adjust. }
    destruct (stateOf t0 w) as [[] |]; try discriminate;
      injection Hstep as <-; apply Hgo; now destruct w as [[] []].
  - destruct (nth_error (timers (env w)) i) as [[d []] |]; try discriminate.
    injection Hstep as <-. apply origin_after_connect.
    unfold originOf in *. now destruct w as [[] []].
Qed.

Lemma origin_run (trace : list event) :
  forall w w' t o,
    run trace w = Some w' -> originOf t w = Some o -> originOf t w' = Some o.
Proof.
  induction trace as [| e trace IH]; intros w w' t o Hrun Ho; simpl in Hrun.
  - now injection Hrun as <-.
  - destruct (step e w) as [w1 |] eqn:Hstep; [| discriminate].
    apply (IH w1 w' t o Hrun). exact (origin_step e w w1 t o Hstep Ho).
Qed.

Lemma attemptsFailed_sameTransports (w w' : world) :
  sameTransports w w' -> attemptsFailed w = true -> attemptsFailed w' = true.
Proof. intros (Hs & Ht & _). unfold attemptsFailed. now rewrite Hs, Ht. Qed.

Lemma attemptsFailed_intro (w : world) :
  forallb settled (sockets (env w)) = true ->
  forallb fired (timers (env w)) = true ->
  attemptsFailed w = true.
Proof. intros Hs Ht. unfold attemptsFailed. now rewrite Hs, Ht. Qed.

(** Once the ceiling is reached and the attempts have failed, a turn of
    the event loop either is the [open] event of a transport of the
    application, or leaves things so and sets no timer. *)
Lemma step_attemptsFailed (e : event) (w w' : world) :
  maxReconnectAttempts (this w) <= reconnectAttempts (this w) ->
  attemptsFailed w = true -> step e w = Some w' ->
  (exists t, e = onopen t /\ originOf t w = Some Application) \/
  (attemptsFailed w' = true /\ scheduled w' = scheduled w /\
   policy w' = policy w).
Proof.
  intros Hmax Hfailed Hstep.
  pose proof Hfailed as Hboth. unfold attemptsFailed in Hboth.
  apply andb_true_iff in Hboth as [Hsockets Htimers].
  destruct e.
  - right. split; [| now apply (step_exhausted callConnect)].
    simpl in Hstep. injection Hstep as <-.
    destruct w as [[] []]. cbn in *. apply attemptsFailed_intro; cbn;
      [| exact Htimers].
    rewrite forallb_app, Hsockets. reflexivity.
  - right. split; [| now apply (step_exhausted (callSubscribe ch cb))].
    simpl in Hstep. injection Hstep as <-.
    apply (attemptsFailed_sameTransports w); [| exact Hfailed].
    apply subscribe_sameTransports.
  - right. split; [| now apply (step_exhausted (callUnsubscribe ch cb))].
    simpl in Hstep. injection Hstep as <-.
    apply (attemptsFailed_sameTransports w); [| exact Hfailed].
    apply unsubscribe_sameTransports.
  - right. split; [| now apply (step_exhausted (callSendUpdate ch data))].
    simpl in Hstep. injection Hstep as <-.
    apply (attemptsFailed_sameTransports w); [| exact Hfailed].
    apply send_sameTransports.
  - right. split; [| now apply (step_exhausted (callSendDelete ch keys))].
    simpl in Hstep. injection Hstep as <-.
    apply (attemptsFailed_sameTransports w); [| exact Hfailed].
    apply send_sameTransports.
  - right. split; [| now apply (step_exhausted callClose)].
    simpl in Hstep. injection Hstep as <-. unfold close.
    destruct w as [[[t0 |] ? ? ? ? ? ?] []]; cbn in *; [| exact Hfailed].
    apply attemptsFailed_intro; cbn; [| exact Htimers].
    apply forallb_adjust; [| exact Hsockets].
    intros x Hx. unfold settled in *.
    destruct (origin x) eqn:Ho, (state x) eqn:Hs; cbn; rewrite ?Ho, ?Hs;
      congruence.
  - left. exists t. split; [reflexivity |].
    simpl in Hstep. unfold stateOf, originOf in *.
    destruct (nth_error (sockets (env w)) t) as [k |] eqn:Hk;
      [| discriminate].
    rewrite forallb_forall in Hsockets.
    pose proof (Hsockets k (nth_error_In _ _ Hk)) as Hsettled.
    simpl in Hstep |- *. unfold settled in Hsettled.
    destruct (origin k); [reflexivity |].
    destruct (state k); discriminate.
  - right. split; [| now apply (step_exhausted (onmessage t data))].
    simpl in Hstep. destruct (stateOf t w) as [[] |]; try discriminate.
    injection Hstep as <-.
    apply (attemptsFailed_sameTransports w); [| exact Hfailed].
    apply handleMessage_sameTransports.
  - right. split; [| now apply (step_exhausted (onerror t))].
    simpl in Hstep.
    assert (Hgo : forall w1,
              sockets (env w1) =
                adjust t
                  (fun k => match state k with
                            | CONNECTING => setState CLOSING k
                            | _ => k
                            end) (sockets (env w)) ->
              timers (env w1) = timers (env w) ->
              attemptsFailed (reject t w1) = true).
    { intros w1 H1 H2. apply attemptsFailed_intro.
      - assert (Hfirst : forallb settled (sockets (env w1)) = true).
        { rewrite H1. apply forallb_adjust; [| exact Hsockets].
          intros x Hx. unfold settled in *.
          destruct (origin x) eqn:Ho, (state x) eqn:Hs; cbn;
            rewrite ?Ho, ?Hs; congruence. }
        rewrite sockets_reject.
        destruct (nth_error (sockets (env w1)) t) as [k |];
          [destruct (promise k) |]; try exact Hfirst.
        apply forallb_adjust; [| exact Hfirst].
        intros x Hx. exact Hx.
      - now rewrite (proj1 (reject_schedule t w1)), H2. }
    destruct (stateOf t w) as [[] |]; try discriminate;
      injection Hstep as <-; apply Hgo; now destruct w as [[] []].
  - right. split; [| now apply (step_exhausted (onclose t))].
    simpl in Hstep.
    assert (Hgo : forall w1,
              sockets (env w1) =
                adjust t (setState CLOSED) (sockets (env w)) ->
              timers (env w1) = timers (env w) ->
              policy w1 = policy w ->
              attemptsFailed (attemptReconnect w1) = true).
    { intros w1 H1 H2 H3. apply attemptsFailed_intro.
      - rewrite sockets_attemptReconnect, H1.
        apply forallb_adjust; [| exact Hsockets].
        intros x Hx. unfold settled in *. cbn.
        now destruct (origin x).
      - rewrite attemptReconnect_exhausted.
        + destruct w1 as [[] []]. cbn in *. now rewrite H2.
        + unfold policy in H3. injection H3 as -> -> _. exact Hmax. }
    destruct (stateOf t w) as [[] |]; try discriminate;
      injection Hstep as <-; apply Hgo; now destruct w as [[] []].
  - exfalso. simpl in Hstep.
    destruct (nth_error (timers (env w)) i) as [[d f] |] eqn:Hi;
      [| discriminate].
    rewrite forallb_forall in Htimers.
    pose proof (Htimers _ (nth_error_In _ _ Hi)) as Hf. simpl in Hf.
    subst f. discriminate.
Qed.

Lemma run_attemptsFailed (trace : list event) :
  forall w w',
    maxReconnectAttempts (this w) <= reconnectAttempts (this w) ->
    attemptsFailed w = true -> run trace w = Some w' ->
    scheduled w' = scheduled w \/
    exists t, In (onopen t) trace /\ originOf t w' = Some Application.
Proof.
  induction trace as [| e trace IH]; intros w w' Hmax Hfailed Hrun;
    simpl in Hrun.
  - injection Hrun as <-. now left.
  - destruct (step e w) as [w1 |] eqn:Hstep; [| discriminate].
    destruct (step_attemptsFailed e w w1 Hmax Hfailed Hstep)
      as [(t & -> & Ho) | (Hfailed1 & Hs1 & Hp1)].
    + right. exists t. split; [now left |].
      apply (origin_run trace w1 w' t _ Hrun).
      exact (origin_step _ w w1 t _ Hstep Ho).
    + assert (Hmax1 : maxReconnectAttempts (this w1) <=
                      reconnectAttempts (this w1)).
      { unfold policy in Hp1. injection Hp1 as -> -> _. exact Hmax. }
      destruct (IH w1 w' Hmax1 Hfailed1 Hrun) as [Hs | (t & Hin & Ho)].
      * left. congruence.
      * right. exists t. split; [now right | exact Ho].
Qed.

(** C7, amended.  In a reachable world whose attempt counter stands at the
    ceiling of 10 (ten attempts were scheduled since the last open), no
    further attempt is scheduled, whatever happens, as long as no
    transport opens.  Once the attempts have failed (every timer has
    fired and every transport that a timer opened is closed), a timer
    is set again only after a transport that a [connect()] call of the
    application opened has opened; and if no transport at all is in
    flight, only after the application has called [connect()] again.
    Every [open] event sets the counter to zero, so that the next
    [close] schedules attempt 1, with the base delay. *)
Theorem retries_stop_at_ceiling (w : world) :
  reachable w ->
  (reconnectAttempts (this w) = 10 ->
   (forall trace w',
      noOpen trace = true -> run trace w = Some w' ->
      scheduled w' = scheduled w /\ reconnectAttempts (this w') = 10) /\
   (attemptsFailed w = true ->
    forall trace w',
      run trace w = Some w' -> scheduled w' <> scheduled w ->
      exists t, In (onopen t) trace /\ originOf t w' = Some Application) /\
   (quiescent w = true ->
    forall trace w',
      run trace w = Some w' -> scheduled w' <> scheduled w ->
      callsConnect trace = true)) /\
  (forall t w',
     step (onopen t) w = Some w' ->
     reconnectAttempts (this w') = 0 /\
     forall t' w'',
       step (onclose t') w' = Some w'' ->
       scheduled w'' = scheduled w' ++ [1000]).
Proof.
  intro Hw. pose proof (reachable_invariant w Hw) as [_ Hmax _ _ _].
  split.
  - intro Hten. split; [| split].
    + intros trace w' Hno Hrun.
      destruct (run_exhausted trace w w' Hno ltac:(lia) Hrun) as [Hs Hp].
      split; [exact Hs |]. unfold policy in Hp. injection Hp as -> _ _.
      exact Hten.
    + intros Hfailed trace w' Hrun Hchanged.
      destruct (run_attemptsFailed trace w w' ltac:(lia) Hfailed Hrun)
        as [Hs | Hopen]; [contradiction | exact Hopen].
    + intros Hq trace w' Hrun Hchanged.
      destruct (callsConnect trace) eqn:Hc; [reflexivity |].
      destruct (run_quiescent trace w w' Hc Hq Hrun) as [_ Hs].
      contradiction.
  - intros t w' Hstep.
    assert (Hzero : reconnectAttempts (this w') = 0).
    { simpl in Hstep. destruct (stateOf t w) as [[] |]; try discriminate.
      injection Hstep as <-. unfold resolve.
      destruct (nth_error _ t) as [k |]; [| now destruct w as [[] []]].
      destruct (promise k); try now destruct w as [[] []].
      destruct (origin k); [now destruct w as [[] []] |].
      rewrite (proj2 (reconnected_sameTransports _)).
      now destruct w as [[] []]. }
    split; [exact Hzero |].
    intros t' w'' Hclose.
    pose proof (reachable_step _ _ _ Hw Hstep) as Hw'.
    destruct backoff_step with (w := w') (w' := w'') (t := t') (n := 1)
      as [Hs _]; try assumption; lia.
Qed.

(** The world after ten failed attempts: the counter stands at 10, ten
    timers were set and all have fired, every transport is closed. *)
Lemma retries_stop_at_ceiling_witness :
  exists w,
    run (failureRun 10) initial = Some w /\
    reconnectAttempts (this w) = 10 /\
    attemptsFailed w = true /\
    quiescent w = true /\
    List.length (scheduled w) = 10%nat /\
    (forall trace w',
       noOpen trace = true -> run trace w = Some w' ->
       scheduled w' = scheduled w /\ reconnectAttempts (this w') = 10) /\
    (forall trace w',
       run trace w = Some w' -> scheduled w' <> scheduled w ->
       exists t, In (onopen t) trace /\ originOf t w' = Some Application) /\
    (forall trace w',
       run trace w = Some w' -> scheduled w' <> scheduled w ->
       callsConnect trace = true).
Proof.
  eexists. split; [vm_compute; reflexivity |].
  match goal with
  | |- reconnectAttempts (this ?w0) = _ /\ _ =>
      assert (Hw : reachable w0)
        by (apply (run_reachable (failureRun 10) initial);
            [constructor | vm_compute; reflexivity]);
      destruct (retries_stop_at_ceiling w0 Hw) as [Hten _];
      destruct (Hten eq_refl) as (Hnone & Hopen & Honly)
  end.
  split; [reflexivity |]. split; [reflexivity |]. split; [reflexivity |].
  split; [reflexivity |].
  split; [exact Hnone | split; [exact (Hopen eq_refl) | exact (Honly eq_refl)]].
Defined.

(** C7, counterexample.  The application calls [connect()] twice, one
    call after the other.  The first transport opens and is lost; the
    second stays in flight while ten reconnection attempts fail.  The
    counter then stands at the ceiling, all ten timers have fired and
    every transport that a timer opened is closed.  Now the second
    transport opens and is lost: the counter is back at zero and an
    eleventh timer is set, with the base delay, although [connect()]
    has not been called again. *)
Lemma retrying_resumes_without_connect :
  exists w w',
    run ([callConnect; callConnect; onopen 0%nat; onclose 0%nat] ++
         flat_map
           (fun j => [timeout (j - 1); onerror (j + 1); onclose (j + 1)]%nat)
           (seq 1 10)) initial = Some w /\
    reconnectAttempts (this w) = 10 /\
    attemptsFailed w = true /\
    List.length (scheduled w) = 10%nat /\
    callsConnect [onopen 1%nat; onclose 1%nat] = false /\
    run [onopen 1%nat; onclose 1%nat] w = Some w' /\
    reconnectAttempts (this w') = 1 /\
    scheduled w' = scheduled w ++ [1000].
Proof.
  eexists. eexists.
  split; [vm_compute; reflexivity |].
  split; [reflexivity |]. split; [reflexivity |]. split; [reflexivity |].
  split; [reflexivity |].
  split; [vm_compute; reflexivity |].
  split; reflexivity.
Qed.

(** *** Subscriptions *)

Lemma send_when_open (m : frame) (w : world) (t : socketId) :
  ws (this w) = Some t -> connected (this w) = true ->
  stateOf t w = Some OPEN ->
  send m w = Return tt (setWire (wire (env w) ++ [(t, m)]) w).
Proof.
  unfold send, socketSend, stateOf. intros -> -> H.
  destruct (nth_error (sockets (env w)) t) as [k |]; [| discriminate].
  simpl in H. injection H as ->. reflexivity.
Qed.

Lemma reconnected_when_open (w : world) (t : socketId) :
  ws (this w) = Some t -> connected (this w) = true ->
  stateOf t w = Some OPEN ->
  reconnected w =
  match Map.keys (subscribers (this w)) with
  | [] => w
  | _ :: _ =>
      setWire
        (wire (env w) ++
         [(t, subscribeFrame (Map.keys (subscribers (this w))))]) w
  end.
Proof.
  intros Hws Hc Hs. unfold reconnected, subscribeToChannels.
  rewrite (send_when_open _ w t Hws Hc Hs).
  destruct (Map.keys (subscribers (this w))) as [| c cs]; [reflexivity |].
  rewrite Z.gtb_ltb.
  destruct (Z.ltb_spec 0 (Z.of_nat (List.length (c :: cs))));
    [reflexivity | simpl List.length in *; lia].
Qed.

(** C8.  The service is connected with a listener on
    ["main:orders"], the transport closes, the reconnection timer fires
    and opens transport 1; before it is open the application calls
    [connect()], which puts transport 2 in [this.ws].  When transport 1
    opens, the reconnect has succeeded and the registry holds the
    channel, but the [subscribe] message goes to [this.ws], which is
    still connecting: [send] throws, the [catch] logs the failure, and
    nothing is put on the wire besides the first subscription. *)
Lemma resubscription_lost_when_handle_replaced :
  exists w,
    run [callConnect; onopen 0%nat; callSubscribe "main:orders" 1%nat;
         onclose 0%nat; timeout 0%nat; callConnect; onopen 1%nat] initial
    = Some w /\
    nth_error (sockets (env w)) 1 = Some (mkSocket OPEN ReconnectTimer Fulfilled) /\
    Map.keys (subscribers (this w)) = ["main:orders"%string] /\
    wire (env w) = [(0%nat, subscribeFrame ["main:orders"%string])] /\
    console (env w) =
      ["WebSocket connected"; "WebSocket closed"; "Attempting to reconnect";
       "WebSocket connected"; "Reconnection failed"]%string.
Proof. eexists. split; [vm_compute; reflexivity |]. repeat split. Qed.

(** The promise of a [connect()] call of the reconnection timer is
    fulfilled while [this.ws] is its transport, which is open. *)
Lemma resolve_reconnect (w : world) (t : socketId) (k : socket) :
  nth_error (sockets (env w)) t = Some k ->
  state k = OPEN -> promise k = Pending -> origin k = ReconnectTimer ->
  ws (this w) = Some t -> connected (this w) = true ->
  resolve t w =
  let w' := setSockets (adjust t (setPromise Fulfilled) (sockets (env w))) w in
  match Map.keys (subscribers (this w)) with
  | [] => w'
  | _ :: _ =>
      setWire
        (wire (env w) ++
         [(t, subscribeFrame (Map.keys (subscribers (this w))))]) w'
  end.
Proof.
  intros Hk Hs Hp Ho Hws Hc. unfold resolve. rewrite Hk, Hp, Ho.
  rewrite (reconnected_when_open _ t).
  - now destruct w as [[] []].
  - now destruct w as [[] []].
  - now destruct w as [[] []].
  - unfold stateOf. destruct w as [[] []]. cbn in Hk |- *.
    rewrite nth_error_adjust_same, Hk. cbn. now rewrite Hs.
Qed.

(** The reconnection that keeps its handle.  When a transport that
    the reconnection timer opened gets its [open] event in a reachable world, and [this.ws] still is
    that transport (no later [connect()] has replaced it), then the
    service sends on it one [subscribe] message with the channels of
    the registry, each once and in registration order, or nothing when
    the registry is empty; the registry is left as it was, no listener
    is called, and the transport cannot open a second time. *)
Theorem resubscribe_after_reconnect (w : world) (t : socketId) :
  reachable w ->
  stateOf t w = Some CONNECTING ->
  originOf t w = Some ReconnectTimer ->
  ws (this w) = Some t ->
  exists w',
    step (onopen t) w = Some w' /\
    wire (env w') =
      wire (env w) ++
      match Map.keys (subscribers (this w)) with
      | [] => []
      | _ :: _ => [(t, subscribeFrame (Map.keys (subscribers (this w))))]
      end /\
    NoDup (Map.keys (subscribers (this w))) /\
    subscribers (this w') = subscribers (this w) /\
    invoked (env w') = invoked (env w) /\
    step (onopen t) w' = None.
Proof.
  intros Hw Hstate Horigin Hws.
  pose proof (reachable_invariant w Hw) as Hinv.
  destruct (connecting_pending w t Hinv Hstate) as (k & Hk & Hsk & Hp).
  unfold originOf in Horigin. rewrite Hk in Horigin.
  simpl in Horigin. injection Horigin as Ho.
  pose proof (inv_keys w Hinv) as Hkeys.
  simpl step. rewrite Hstate. eexists. split; [reflexivity |].
  rewrite (resolve_reconnect _ t (setState OPEN k));
    try reflexivity; try assumption;
    try (destruct w as [[] []]; cbn in *; try assumption;
         now rewrite nth_error_adjust_same, Hk).
  assert (Hstill : forall w1,
            sockets (env w1) =
              adjust t (setPromise Fulfilled)
                (adjust t (setState OPEN) (sockets (env w))) ->
            step (onopen t) w1 = None).
  { intros w1 H1. simpl. unfold stateOf.
    now rewrite H1, !nth_error_adjust_same, Hk. }
  destruct w as [[ws0 wid0 c0 subs0 a0 m0 d0] [so0 wi0 ti0 co0 in0]].
  cbn in Hkeys, Hstill |- *.
  destruct (map fst subs0) as [| c cs] eqn:Hfst; cbn.
  - rewrite app_nil_r. repeat split; try assumption.
    now apply Hstill.
  - repeat split; try assumption. now apply Hstill.
Qed.

(** A listener on ["main:orders"], the connection lost, the first
    attempt succeeding: one [subscribe] message on the new transport. *)
Lemma resubscribe_after_reconnect_witness :
  exists w w',
    run [callConnect; onopen 0%nat; callSubscribe "main:orders" 1%nat;
         onclose 0%nat; timeout 0%nat] initial = Some w /\
    step (onopen 1%nat) w = Some w' /\
    wire (env w') =
      wire (env w) ++ [(1%nat, subscribeFrame ["main:orders"%string])].
Proof.
  eexists.
  match goal with
  | |- exists w', run ?tr initial = Some ?w0 /\ _ =>
      assert (Hrun : run tr initial = Some w0) by (vm_compute; reflexivity);
      assert (Hw : reachable w0)
        by (exact (run_reachable tr initial w0 reachable_initial Hrun));
      destruct (resubscribe_after_reconnect w0 1%nat Hw
                  eq_refl eq_refl eq_refl) as (w' & Hstep & Hwire & _);
      exists w'; exact (conj Hrun (conj Hstep Hwire))
  end.
Defined.

(** What [unsubscribe(channel, callback)], the body of the function
    that [subscribe] returns, does in any world: it returns, touches
    neither the wire nor the console, takes that listener and no other
    out of the channel, drops the entry of a channel that is left
    without listener, and leaves the other channels alone. *)
Lemma unsubscribe_removes_listener (ch : channel) (cb : callback) (w : world) :
  exists w',
    unsubscribe ch cb w = Return tt w' /\
    env w' = env w /\
    (forall x, In x (listeners ch w') <-> In x (listeners ch w) /\ x <> cb) /\
    (listeners ch w' = [] -> Map.has ch (subscribers (this w')) = false) /\
    (forall ch', ch' <> ch ->
       Map.get ch' (subscribers (this w')) =
       Map.get ch' (subscribers (this w))).
Proof.
  unfold unsubscribe, listeners, Map.has.
  destruct w as [[ws0 wid0 c0 subs0 a0 m0 d0] b0].
  cbn -[Map.delete Map.set Map.get].
  destruct (Map.get ch subs0) as [callbacks |] eqn:Hget.
  - destruct (Z.eqb_spec (CallbackSet.size (CallbackSet.delete cb callbacks)) 0)
      as [Hsize | Hsize]; eexists; (split; [reflexivity |]);
      cbn -[Map.delete Map.set Map.get].
    + rewrite get_delete_same.
      assert (Hnil : CallbackSet.delete cb callbacks = []).
      { unfold CallbackSet.size in Hsize.
        destruct (CallbackSet.delete cb callbacks); [reflexivity |].
        simpl in Hsize. lia. }
      split; [reflexivity |]. split; [| split; [reflexivity |]].
      * intro x. rewrite <- In_CallbackSet_delete, Hnil. tauto.
      * intros ch' Hne.
        now rewrite get_delete_other, get_set_other by exact Hne.
    + rewrite get_set_same.
      split; [reflexivity |]. split; [| split].
      * intro x. apply In_CallbackSet_delete.
      * intro Hnil. rewrite Hnil in Hsize. now elim Hsize.
      * intros ch' Hne. now rewrite get_set_other by exact Hne.
  - eexists. split; [reflexivity |]. cbn. rewrite Hget.
    repeat split; tauto.
Qed.

(** C9, counterexample.  On the service as constructed, not connected,
    the first listener of ["main:orders"] is registered and nothing is
    sent: [send] finds no open connection and logs it. *)
Lemma first_listener_while_disconnected :
  exists w',
    subscribe "main:orders" 1%nat initial =
      Return ("main:orders"%string, 1%nat) w' /\
    listeners "main:orders" initial = [] /\
    listeners "main:orders" w' = [1%nat] /\
    wire (env w') = [] /\
    console (env w') = ["WebSocket not connected"%string].
Proof. eexists. repeat split. Qed.

(** [subscribe] on an open connection. *)
Lemma subscribe_when_open
  (w : world) (t : socketId) (ch : channel) (cb : callback) :
  ws (this w) = Some t -> connected (this w) = true ->
  stateOf t w = Some OPEN ->
  exists w',
    subscribe ch cb w = Return (ch, cb) w' /\
    wire (env w') =
      wire (env w) ++
      (if Map.has ch (subscribers (this w)) then []
       else [(t, subscribeFrame [ch])]) /\
    listeners ch w' = CallbackSet.add cb (listeners ch w) /\
    (forall ch', ch' <> ch ->
       Map.get ch' (subscribers (this w')) =
       Map.get ch' (subscribers (this w))).
Proof.
  intros Hws Hc Hopen.
  assert (Hsend : forall w1,
            ws (this w1) = ws (this w) ->
            connected (this w1) = connected (this w) ->
            sockets (env w1) = sockets (env w) ->
            subscribeToChannels (inl ch) w1 =
            Return tt (setWire (wire (env w1) ++ [(t, subscribeFrame [ch])]) w1)).
  { intros w1 H1 H2 H3. unfold subscribeToChannels.
    apply send_when_open; try congruence.
    unfold stateOf in *. now rewrite H3. }
  unfold subscribe, bind, modify, ret, listeners, Map.has.
  destruct (Map.get ch (subscribers (this w))) as [callbacks |] eqn:Hget;
    cbn [negb].
  - eexists. split; [rewrite Hget; reflexivity |].
    destruct w as [[ws0 wid0 c0 subs0 a0 m0 d0] [so0 wi0 ti0 co0 in0]].
    cbn in Hget |- *. rewrite get_set_same, app_nil_r.
    repeat split. intros ch' Hne. now apply get_set_other.
  - rewrite Hsend by (now destruct w as [[] []]).
    eexists. split; [reflexivity |].
    destruct w as [[ws0 wid0 c0 subs0 a0 m0 d0] [so0 wi0 ti0 co0 in0]].
    cbn in Hget |- *. rewrite !get_set_same.
    repeat split. intros ch' Hne. now rewrite !get_set_other by exact Hne.
Qed.

(** [subscribe] on a service that is not connected: the listener is
    registered, nothing is sent, and for a channel without entry the
    attempt is logged. *)
Lemma subscribe_when_disconnected
  (w : world) (ch : channel) (cb : callback) :
  ws (this w) = None \/ connected (this w) = false ->
  exists w',
    subscribe ch cb w = Return (ch, cb) w' /\
    wire (env w') = wire (env w) /\
    console (env w') =
      console (env w) ++
      (if Map.has ch (subscribers (this w)) then []
       else ["WebSocket not connected"%string]) /\
    listeners ch w' = CallbackSet.add cb (listeners ch w) /\
    (forall ch', ch' <> ch ->
       Map.get ch' (subscribers (this w')) =
       Map.get ch' (subscribers (this w))).
Proof.
  intros Hoff.
  assert (Hsend : forall w1,
            ws (this w1) = ws (this w) ->
            connected (this w1) = connected (this w) ->
            subscribeToChannels (inl ch) w1 =
            Return tt (log "WebSocket not connected" w1)).
  { intros w1 H1 H2. unfold subscribeToChannels, send. rewrite H1, H2.
    destruct Hoff as [-> | ->]; [reflexivity |].
    now destruct (ws (this w)). }
  unfold subscribe, bind, modify, ret, listeners, Map.has.
  destruct (Map.get ch (subscribers (this w))) as [callbacks |] eqn:Hget;
    cbn [negb].
  - eexists. split; [rewrite Hget; reflexivity |].
    destruct w as [[ws0 wid0 c0 subs0 a0 m0 d0] [so0 wi0 ti0 co0 in0]].
    cbn in Hget |- *. rewrite get_set_same, app_nil_r.
    repeat split. intros ch' Hne. now apply get_set_other.
  - rewrite Hsend by (now destruct w as [[] []]).
    eexists. split; [reflexivity |].
    destruct w as [[ws0 wid0 c0 subs0 a0 m0 d0] [so0 wi0 ti0 co0 in0]].
    cbn in Hget |- *. rewrite !get_set_same.
    repeat split. intros ch' Hne. now rewrite !get_set_other by exact Hne.
Qed.

(** C9, amended.  While the connection is open ([this.ws] is an open
    transport and [connected] is set), [subscribe(channel, listener)]
    returns the unsubscribe function for that channel and listener,
    adds the listener to the channel, leaves the other channels alone,
    and sends one [subscribe] message for the channel exactly when the
    registry has no entry for it, hence only for a channel without
    listener, and for every such channel when no entry is empty.
    While the service is not connected ([this.ws] unset or [connected]
    unset) the listener is registered all the same and nothing is sent;
    the attempt for a channel without entry is logged.  The unsubscribe
    function, in whatever world it is called, sends nothing, removes
    that listener only, and drops the entry of a channel that is left
    without listener. *)
Theorem subscribe_emits_for_new_channel
  (w : world) (ch : channel) (cb : callback) :
  (forall t,
     ws (this w) = Some t -> connected (this w) = true ->
     stateOf t w = Some OPEN ->
     exists w',
       subscribe ch cb w = Return (ch, cb) w' /\
       wire (env w') =
         wire (env w) ++
         (if Map.has ch (subscribers (this w)) then []
          else [(t, subscribeFrame [ch])]) /\
       listeners ch w' = CallbackSet.add cb (listeners ch w) /\
       (forall ch', ch' <> ch ->
          Map.get ch' (subscribers (this w')) =
          Map.get ch' (subscribers (this w)))) /\
  (ws (this w) = None \/ connected (this w) = false ->
   exists w',
     subscribe ch cb w = Return (ch, cb) w' /\
     wire (env w') = wire (env w) /\
     console (env w') =
       console (env w) ++
       (if Map.has ch (subscribers (this w)) then []
        else ["WebSocket not connected"%string]) /\
     listeners ch w' = CallbackSet.add cb (listeners ch w) /\
     (forall ch', ch' <> ch ->
        Map.get ch' (subscribers (this w')) =
        Map.get ch' (subscribers (this w)))) /\
  (Map.has ch (subscribers (this w)) = false -> listeners ch w = []) /\
  ((forall l, Map.get ch (subscribers (this w)) = Some l -> l <> []) ->
   listeners ch w = [] -> Map.has ch (subscribers (this w)) = false) /\
  (exists w1,
     unsubscribe ch cb w = Return tt w1 /\
     env w1 = env w /\
     (forall x, In x (listeners ch w1) <-> In x (listeners ch w) /\ x <> cb) /\
     (listeners ch w1 = [] -> Map.has ch (subscribers (this w1)) = false) /\
     (forall ch', ch' <> ch ->
        Map.get ch' (subscribers (this w1)) =
        Map.get ch' (subscribers (this w)))).
Proof.
  split; [intro t; apply subscribe_when_open |].
  split; [apply subscribe_when_disconnected |].
  split; [| split; [| apply unsubscribe_removes_listener]].
  - unfold listeners, Map.has.
    now destruct (Map.get ch (subscribers (this w))).
  - unfold listeners, Map.has. intros Hne.
    destruct (Map.get ch (subscribers (this w))) as [l |]; [| reflexivity].
    intros ->. now elim (Hne [] eq_refl).
Qed.

(** The first listener of ["main:orders"] on an open connection. *)
Lemma subscribe_emits_for_new_channel_witness :
  exists w w',
    run [callConnect; onopen 0%nat] initial = Some w /\
    subscribe "main:orders" 1%nat w = Return ("main:orders"%string, 1%nat) w' /\
    wire (env w') = [(0%nat, subscribeFrame ["main:orders"%string])].
Proof.
  eexists.
  match goal with
  | |- exists w', run ?tr initial = Some ?w0 /\ _ =>
      assert (Hrun : run tr initial = Some w0) by (vm_compute; reflexivity);
      destruct (proj1 (subscribe_emits_for_new_channel w0
                         "main:orders"%string 1%nat)
                  0%nat eq_refl eq_refl eq_refl)
        as (w' & Hsub & Hwire & _);
      exists w'; exact (conj Hrun (conj Hsub Hwire))
  end.
Defined.

End ServiceFacts.

(* ================================================================== *)
(** ** Composite keys: what decodes and what does not *)
(* ================================================================== *)

Module KeyCodecFacts.
Import JS KeyUtils KeyNotions JSFacts KeyUtilsFacts.

Lemma split_not_nil (sep : ascii) (s : string) : split sep s <> [].
Proof.
  induction s as [| c s IH]; simpl; [discriminate |].
  destruct (Ascii.eqb c sep); [discriminate |].
  destruct (split sep s); [contradiction | discriminate].
Qed.

Lemma noDash_trimStart (s : string) :
  noDash s = true -> noDash (trimStart s) = true.
Proof.
  induction s as [| c s IH]; simpl; [reflexivity |].
  intro H. destruct (isWhiteSpace c); [| exact H].
  apply IH. now apply andb_true_iff in H as [_ H].
Qed.

Lemma digitValue_nonneg (c : ascii) : isDigit c = true -> 0 <= digitValue c.
Proof.
  unfold isDigit, digitValue. intro H.
  apply andb_true_iff in H as [H _]. apply Nat.leb_le in H. lia.
Qed.

Lemma readDigits_nonneg (s : string) :
  forall seen acc n, 0 <= acc -> readDigits s seen acc = Some n -> 0 <= n.
Proof.
  induction s as [| c s IH]; intros seen acc n Hacc; cbn [readDigits].
  - destruct seen; [| discriminate]. intro H. injection H as <-. exact Hacc.
  - destruct (isDigit c) eqn:Hc.
    + apply IH. pose proof (digitValue_nonneg c Hc). lia.
    + destruct seen; [| discriminate]. intro H. injection H as <-. exact Hacc.
Qed.

(** [parseInt] of a segment without minus sign is the Number value of
    an integer that is not negative. *)
Lemma parseInt_noDash (s : string) (n : Z) :
  noDash s = true -> parseInt s = Some n ->
  exists m, 0 <= m /\ n = toNumber m.
Proof.
  intros Hs. apply noDash_trimStart in Hs. unfold parseInt.
  destruct (trimStart s) as [| c r]; [discriminate |].
  destruct (Ascii.eqb_spec c "-") as [-> | Hc]; [discriminate |].
  assert (Hor : forall o : option Z,
             o = option_map toNumber (readDigits r false 0) \/
             o = option_map toNumber (readDigits (String c r) false 0) ->
             o = Some n -> exists m, 0 <= m /\ n = toNumber m).
  { intros o [-> | ->];
      match goal with
      | |- option_map _ ?x = _ -> _ =>
          destruct x as [m |] eqn:Hm; [| discriminate]
      end;
      intro H; injection H as <-; exists m; split; try reflexivity;
      apply (readDigits_nonneg _ _ _ _ (Z.le_refl 0) Hm). }
  destruct c as [[] [] [] [] [] [] [] []];
    try (exfalso; apply Hc; reflexivity); apply Hor; auto.
Qed.

Lemma parseInt_noDash_nonneg (s : string) (n : Z) :
  noDash s = true -> parseInt s = Some n -> 0 <= n.
Proof.
  intros Hs Hn. destruct (parseInt_noDash s n Hs Hn) as (m & Hm & ->).
  now apply toNumber_nonneg.
Qed.

(** What a decoded key is made of. *)
Lemma decoded_parts (key : string) (p : parsedKey) :
  parseJiraKey key = Some p ->
  0 <= id p /\ noDash (prefix p) = true /\
  type p = getProperty typeMap (prefix p) /\ type p <> Undefined.
Proof.
  unfold parseJiraKey.
  destruct (String.eqb key ""); [discriminate |].
  destruct (split "-" key) as [| q [| idStr [| x l]]] eqn:Hsplit;
    try discriminate.
  destruct (parseInt idStr) as [n |] eqn:Hn; [| discriminate].
  assert (Hq : noDash q = true)
    by (apply (split_segments_noDash key); rewrite Hsplit; now left).
  assert (Hi : noDash idStr = true)
    by (apply (split_segments_noDash key); rewrite Hsplit; right; now left).
  destruct (getProperty typeMap q) eqn:Hget; try discriminate;
    intro H; injection H as <-; simpl;
    (split; [exact (parseInt_noDash_nonneg idStr n Hi Hn) |]);
    (split; [exact Hq |]); (split; [now rewrite Hget | discriminate]).
Qed.

(** A decoded id is a Number. *)
Lemma decoded_number (key : string) (p : parsedKey) :
  parseJiraKey key = Some p -> isNumber (id p).
Proof.
  unfold parseJiraKey.
  destruct (String.eqb key ""); [discriminate |].
  destruct (split "-" key) as [| q [| idStr [| x l]]] eqn:Hsplit;
    try discriminate.
  destruct (parseInt idStr) as [n |] eqn:Hn; [| discriminate].
  assert (Hi : noDash idStr = true)
    by (apply (split_segments_noDash key); rewrite Hsplit; right; now left).
  destruct (parseInt_noDash idStr n Hi Hn) as (m & Hm & ->).
  destruct (getProperty typeMap q); try discriminate;
    intro H; injection H as <-; simpl; now apply toNumber_idempotent.
Qed.

(** The decoder knows no negative id.  A key that [parseJiraKey]
    accepts has an id that is not negative, a prefix without
    separator, and the type that [typeMap] holds for the prefix.  The
    encoder does make keys for negative ids: [createJiraKey] of an
    entity type and a negative id returns a key with two separators,
    which [parseJiraKey] and [getIdFromKey] reject. *)
Theorem decoder_knows_no_negative_id :
  (forall key p,
     parseJiraKey key = Some p ->
     0 <= id p /\ noDash (prefix p) = true /\
     type p = getProperty typeMap (prefix p) /\ type p <> Undefined) /\
  (forall type id,
     In type entityTypes -> id < 0 ->
     exists key,
       createJiraKey type id = Some key /\ parseJiraKey key = None /\
       getIdFromKey key = None).
Proof.
  split; [exact decoded_parts |].
  intros type id Hin Hid.
  assert (Hcase : exists p, getProperty prefixMap type = Own p /\
                            noDash p = true /\ p <> EmptyString).
  { simpl in Hin.
    destruct Hin as [<- | [<- | [<- | [<- | [<- | []]]]]];
      eexists; (split; [reflexivity | split; [reflexivity | discriminate]]). }
  destruct Hcase as (p & Hp & Hd & Hne).
  unfold createJiraKey, getIdFromKey. rewrite Hp.
  eexists. split; [reflexivity |].
  assert (Hnone : parseJiraKey (p ++ "-" ++ numberToString id) = None).
  { unfold parseJiraKey. rewrite append_not_empty by exact Hne.
    unfold numberToString.
    destruct (Z.ltb_spec id 0) as [_ | Hge]; [| lia].
    cbv zeta.
    set (m := if shortest (- id) <? 10 ^ 21 then decimal (shortest (- id))
              else exponential (shortest (- id))).
    change ("-" ++ "-" ++ m) with (String "-" (String "-" m)).
    rewrite split_app_dash by exact Hd.
    cbn [split]. rewrite Ascii.eqb_refl.
    pose proof (split_not_nil "-" m) as Hm.
    destruct (split "-" m); [contradiction | reflexivity]. }
  now rewrite Hnone.
Qed.

Lemma ownProperty_prefixMap (type : string) :
  ownProperty prefixMap type = None <-> ~ In type entityTypes.
Proof.
  unfold entityTypes. unfold prefixMap. cbn [ownProperty map fst In].
  repeat match goal with
         | |- context [String.eqb ?a type] =>
             destruct (String.eqb_spec a type);
               [split; [discriminate | tauto] |]
         end.
  split; [tauto | reflexivity].
Qed.

Lemma inherited_In (name : string) :
  existsb (String.eqb name) objectPrototype = true <->
  In name objectPrototype.
Proof.
  rewrite existsb_exists. split.
  - intros (x & Hx & Heq). apply String.eqb_eq in Heq. now subst.
  - intro H. exists name. split; [exact H | apply String.eqb_refl].
Qed.

Lemma split_head (c : ascii) (s : string) :
  c <> "-"%char ->
  exists seg segs, split "-" (String c s) = String c seg :: segs.
Proof.
  intro Hc. simpl. destruct (Ascii.eqb_spec c "-"); [contradiction |].
  destruct (split "-" s) as [| seg segs]; eauto.
Qed.

(** No name of [typeMap], own or inherited, starts with an [f] or with
    a bracket. *)
Lemma getProperty_other_initial (c : ascii) (seg : string) :
  c = "f"%char \/ c = "["%char ->
  getProperty typeMap (String c seg) = Undefined.
Proof. intros [-> | ->]; reflexivity. Qed.

(** A key that starts with the text of an inherited member decodes to
    nothing, whatever the spelling of the text and whatever follows
    it. *)
Lemma inherited_text_never_decodes (text rest : string) :
  inheritedForm text -> parseJiraKey (text ++ "-" ++ rest) = None.
Proof.
  intro Hform.
  assert (Hhead : exists c t, text = String c t /\
                              (c = "f"%char \/ c = "["%char)).
  { destruct Hform as [-> | Hpre]; [eexists _, _; split; [reflexivity | auto] |].
    destruct text as [| c t]; [discriminate |].
    exists c, t. split; [reflexivity |]. left.
    change ((if ascii_dec "f" c then String.prefix "unction" t else false) =
            true) in Hpre.
    destruct (ascii_dec "f" c) as [<- | _]; [reflexivity | discriminate]. }
  destruct Hhead as (c & t & -> & Hc).
  assert (Hnd : c <> "-"%char) by (destruct Hc as [-> | ->]; discriminate).
  unfold parseJiraKey.
  change ((String c t ++ "-" ++ rest)%string)
    with (String c (t ++ "-" ++ rest)%string).
  destruct (split_head c (t ++ "-" ++ rest) Hnd) as (seg & segs & ->).
  cbn [String.eqb].
  destruct segs as [| idStr [| x l]]; try reflexivity.
  rewrite (getProperty_other_initial c seg Hc).
  now destruct (parseInt idStr).
Qed.

Lemma inheritedToString_form (name : string) :
  In name objectPrototype -> inheritedForm (inheritedToString name).
Proof.
  intro H. simpl in H.
  repeat (destruct H as [<- | H]; [(now left) || (now right) |]).
  destruct H.
Qed.

(** The encoder and a type it does not know.  [createJiraKey]
    returns [null] exactly for a type name that is neither one of the
    five entity types nor the name of a member that [prefixMap]
    inherits from [Object.prototype].  For an inherited name the
    guard [if (!prefix)] does not fire and a key comes back, which
    starts with the text of the inherited member and the separator.
    No such key decodes, whatever spelling the engine gives the text
    of a native function and however the id is printed: a key that
    starts with [[object Object]] or with the word [function] has a
    first segment that is no name of [typeMap]. *)
Theorem createJiraKey_unknown_type (type : string) (id : Z) :
  (createJiraKey type id = None <->
   ~ In type entityTypes /\ ~ In type objectPrototype) /\
  (forall key,
     createJiraKey type id = Some key -> ~ In type entityTypes ->
     In type objectPrototype /\
     (exists text rest, key = text ++ "-" ++ rest /\ inheritedForm text) /\
     parseJiraKey key = None /\ getIdFromKey key = None) /\
  (forall text rest,
     inheritedForm text ->
     parseJiraKey (text ++ "-" ++ rest) = None /\
     getIdFromKey (text ++ "-" ++ rest) = None).
Proof.
  assert (Hgen : forall text rest,
             inheritedForm text ->
             parseJiraKey (text ++ "-" ++ rest) = None /\
             getIdFromKey (text ++ "-" ++ rest) = None).
  { intros text rest Hform. unfold getIdFromKey.
    now rewrite (inherited_text_never_decodes text rest Hform). }
  split; [| split; [| exact Hgen]].
  - unfold createJiraKey, getProperty.
    destruct (ownProperty prefixMap type) as [p |] eqn:Hown.
    + assert (Hin : In type entityTypes).
      { destruct (ownProperty_prefixMap type) as [_ H].
        destruct (in_dec string_dec type entityTypes) as [Hin | Hnot];
          [exact Hin | rewrite (H Hnot) in Hown; discriminate]. }
      split; [discriminate | tauto].
    + apply ownProperty_prefixMap in Hown.
      destruct (existsb (String.eqb type) objectPrototype) eqn:Hinh.
      * apply inherited_In in Hinh. split; [discriminate | tauto].
      * split; [| reflexivity]. intros _. split; [exact Hown |].
        rewrite <- inherited_In. congruence.
  - intros key Hkey Hnot. unfold createJiraKey, getProperty in Hkey.
    apply ownProperty_prefixMap in Hnot. rewrite Hnot in Hkey.
    destruct (existsb (String.eqb type) objectPrototype) eqn:Hinh;
      [| discriminate].
    apply inherited_In in Hinh. injection Hkey as <-.
    pose proof (inheritedToString_form type Hinh) as Hform.
    split; [exact Hinh |].
    split; [exists (inheritedToString type), (numberToString id); auto |].
    exact (Hgen _ _ Hform).
Qed.

Lemma ownProperty_typeMap (p ty : string) :
  ownProperty typeMap p = Some ty ->
  In p prefixes /\ getProperty prefixMap ty = Own p.
Proof.
  unfold typeMap. cbn [ownProperty].
  repeat match goal with
         | |- context [String.eqb ?a p] =>
             destruct (String.eqb_spec a p);
               [subst p; intro H; injection H as <-;
                split; [simpl; auto 10 | reflexivity] |]
         end.
  discriminate.
Qed.

(** Decoding and encoding again.  When [parseJiraKey] accepts a key
    with one of the five prefixes and an id below [10^21], then
    [createJiraKey] of the decoded type and id returns a key, the
    canonical one, which decodes to the same object (type, id and
    prefix) as the key, so that [getIdFromKey] agrees on the two.  In
    the safe range the canonical key is the prefix, the separator and
    the decimal digits of the id. *)
Theorem decoded_key_reencodes (key : string) (p : parsedKey) (ty : string) :
  parseJiraKey key = Some p -> type p = Own ty -> id p < 10 ^ 21 ->
  In (prefix p) prefixes /\
  exists canonical,
    createJiraKey ty (id p) = Some canonical /\
    parseJiraKey canonical = Some p /\
    getIdFromKey canonical = getIdFromKey key /\
    (id p <= maxSafeInteger ->
     canonical = prefix p ++ "-" ++ decimal (id p)).
Proof.
  intros Hparse Hty Hid.
  destruct (decoded_parts key p Hparse) as (Hnn & Hd & Hget & _).
  pose proof (decoded_number key p Hparse) as Hnum.
  rewrite Hty in Hget. unfold getProperty in Hget.
  destruct (ownProperty typeMap (prefix p)) as [ty' |] eqn:Hown;
    [| destruct (existsb _ _); discriminate].
  injection Hget as ->.
  destruct (ownProperty_typeMap _ _ Hown) as [Hin Hpre].
  split; [exact Hin |].
  destruct (numberToString_number (id p) Hnum) as (Hprint & Hback & Hc);
    [lia |].
  exists (prefix p ++ "-" ++ decimal (shortest (id p))).
  unfold createJiraKey. rewrite Hpre, Hprint.
  split; [reflexivity |].
  destruct (prefix_decodes (prefix p) (shortest (id p)) Hin Hc)
    as (ty0 & Hown0 & Hp0).
  rewrite Hown in Hown0. injection Hown0 as <-.
  rewrite Hback in Hp0.
  assert (Hsame : parseJiraKey (prefix p ++ "-" ++ decimal (shortest (id p))) =
                  Some p).
  { rewrite Hp0. destruct p as [t i q]. simpl in *. now subst t. }
  split; [exact Hsame |].
  split; [unfold getIdFromKey; now rewrite Hsame, Hparse |].
  intro Hsafe. unfold maxSafeInteger in Hsafe.
  now rewrite shortest_safe by lia.
Qed.

(** The key ["RO-18446744073709551616"] decodes to the id [2^64], and
    its canonical key is ["RO-18446744073709552000"]. *)
Lemma decoded_key_reencodes_witness :
  parseJiraKey "RO-18446744073709551616" =
    Some (mkParsedKey (Own "repair_order") (2 ^ 64) "RO") /\
  createJiraKey "repair_order" (2 ^ 64) = Some "RO-18446744073709552000" /\
  parseJiraKey "RO-18446744073709552000" =
    Some (mkParsedKey (Own "repair_order") (2 ^ 64) "RO").
Proof.
  assert (Hparse : parseJiraKey "RO-18446744073709551616" =
                   Some (mkParsedKey (Own "repair_order") (2 ^ 64) "RO"))
    by (vm_compute; reflexivity).
  assert (Hid : 2 ^ 64 < 10 ^ 21) by lia.
  destruct (decoded_key_reencodes "RO-18446744073709551616" _ "repair_order"
              Hparse eq_refl Hid)
    as (_ & canonical & Hc & Hp & _).
  assert (Hkey : createJiraKey "repair_order" (2 ^ 64) =
                 Some "RO-18446744073709552000")
    by (vm_compute; reflexivity).
  change (createJiraKey "repair_order" (2 ^ 64) = Some canonical) in Hc.
  rewrite Hkey in Hc. injection Hc as <-.
  exact (conj Hparse (conj Hkey Hp)).
Defined.

End KeyCodecFacts.

(* ================================================================== *)
(** ** The collection under any sequence of messages *)
(* ================================================================== *)

Module CollectionFacts.
Import KeyUtils Reconciler ReconcilerNotions ReconcilerFacts.
Local Open Scope list_scope.

Lemma NoDup_ids_filter (p : entity -> bool) (c : list entity) :
  NoDup (map id c) -> NoDup (map id (filter p c)).
Proof.
  induction c as [| o c IH]; simpl; intro H; [constructor |].
  inversion H as [| ? ? Hnot Hc]; subst.
  destruct (p o); simpl; [| now apply IH].
  constructor; [| now apply IH].
  intro Hin. apply Hnot.
  apply in_map_iff in Hin as (x & Hx & Hin).
  apply filter_In in Hin as [Hin _].
  rewrite <- Hx. now apply in_map.
Qed.

Lemma reconcile_unique (c : list entity) (m : message) :
  NoDup (map id c) -> NoDup (map id (reconcile c m)).
Proof.
  intro H. destruct m as [data | keys]; simpl.
  - rewrite ids_applyUpdate. now apply NoDup_firstSeen.
  - now apply NoDup_ids_filter.
Qed.

Lemma fold_unique (ms : list message) :
  forall c, NoDup (map id c) -> NoDup (map id (fold_left reconcile ms c)).
Proof.
  induction ms as [| m ms IH]; intros c H; simpl; [exact H |].
  apply IH. now apply reconcile_unique.
Qed.

(** The ids stay unique.  A collection whose records have distinct
    ids keeps distinct ids under any sequence of [update] and
    [delete] messages; in particular the collection that starts empty
    never holds two records with the same id (the id is the React key
    of a table row). *)
Theorem ids_stay_unique (ms : list message) (c : list entity) :
  NoDup (map id c) ->
  NoDup (map id (fold_left reconcile ms c)) /\
  NoDup (map id (fold_left reconcile ms [])).
Proof.
  intro H. split; apply fold_unique; [exact H | constructor].
Qed.

Lemma ids_stay_unique_witness :
  NoDup (map id (fold_left reconcile
                   [update [mkEntity 5 "a"; mkEntity 7 "b"; mkEntity 5 "c"];
                    delete ["RO-7"%string];
                    update [mkEntity 7 "d"; mkEntity 5 "e"]] [])).
Proof. apply (ids_stay_unique _ []). constructor. Defined.

Lemma nth_replaceOrAppend (c : list entity) (r : entity) :
  forall n o,
    nth_error c n = Some o ->
    nth_error (replaceOrAppend c r) n = Some o \/
    (nth_error (replaceOrAppend c r) n = Some r /\ id r = id o).
Proof.
  induction c as [| x c IH]; intros [| n] o H; simpl in H; try discriminate.
  - injection H as ->. simpl.
    destruct (Z.eqb_spec (id o) (id r)); simpl; [right | left]; auto.
  - simpl. destruct (Z.eqb_spec (id x) (id r)); simpl; [now left |].
    now apply IH.
Qed.

Lemma nth_applyUpdate (data : list entity) :
  forall c n o,
    nth_error c n = Some o ->
    exists o',
      nth_error (applyUpdate c data) n = Some o' /\ id o' = id o /\
      (o' = o \/ In o' data).
Proof.
  induction data as [| r data IH]; intros c n o H.
  - exists o. auto.
  - change (applyUpdate c (r :: data)) with (applyUpdate (upsert c r) data).
    rewrite upsert_replaceOrAppend.
    destruct (nth_replaceOrAppend c r n o H) as [H1 | [H1 Hid]].
    + destruct (IH _ n o H1) as (o' & Hn & Hi & Ho).
      exists o'. repeat split; auto. destruct Ho; [now left | right; now right].
    + destruct (IH _ n r H1) as (o' & Hn & Hi & Ho).
      exists o'. split; [exact Hn |]. split; [congruence |].
      right. destruct Ho as [-> | Ho]; [now left | now right].
Qed.

Lemma length_ids {A : Type} (f : A -> Z) (l : list A) :
  List.length l = List.length (map f l).
Proof. now rewrite length_map. Qed.

Lemma length_firstSeen (l : list entity) :
  forall seen, (List.length (firstSeen seen l) <= List.length l)%nat.
Proof.
  induction l as [| r l IH]; intro seen; simpl; [lia |].
  destruct (existsb _ seen); simpl.
  - specialize (IH seen). lia.
  - specialize (IH (seen ++ [id r])). lia.
Qed.

(** An [update] message keeps the positions.  The ids of the
    collection after the message are the ids before it, in the same
    order, followed by the new ids in the order in which the message
    first names them; the record at each position keeps its id, and
    is the old record or a record of the message; a record whose id
    the message does not name stays; and every record afterwards is
    an old one or one of the message.  The collection never shrinks
    and grows by at most the number of records of the message. *)
Theorem update_keeps_positions (c data : list entity) :
  map id (applyUpdate c data) = map id c ++ firstSeen (map id c) data /\
  (List.length c <= List.length (applyUpdate c data)
   <= List.length c + List.length data)%nat /\
  (forall n o,
     nth_error c n = Some o ->
     exists o',
       nth_error (applyUpdate c data) n = Some o' /\ id o' = id o /\
       (o' = o \/ In o' data)) /\
  (forall o,
     In o c -> ~ In (id o) (map id data) -> In o (applyUpdate c data)) /\
  (forall o, In o (applyUpdate c data) -> In o c \/ In o data).
Proof.
  split; [apply ids_applyUpdate |].
  split.
  { rewrite (length_ids id (applyUpdate c data)), ids_applyUpdate, length_app,
      length_map.
    pose proof (length_firstSeen data (map id c)). lia. }
  split; [intros n o; apply nth_applyUpdate |].
  split.
  - intros o Hin Hnot.
    apply In_nth_error in Hin as (n & Hn).
    destruct (nth_applyUpdate data c n o Hn) as (o' & Hn' & Hid & [-> | Hd]).
    + eapply nth_error_In, Hn'.
    + exfalso. apply Hnot. rewrite <- Hid. now apply in_map.
  - revert c. induction data as [| r data IH]; intros c o Hin; [now left |].
    change (applyUpdate c (r :: data)) with (applyUpdate (upsert c r) data)
      in Hin.
    destruct (IH _ o Hin) as [H | H]; [| right; now right].
    rewrite upsert_replaceOrAppend in H.
    clear - H. induction c as [| x c IHc]; simpl in H.
    + destruct H as [<- | []]. right. now left.
    + destruct (id x =? id r); destruct H as [<- | H].
      * right. now left.
      * left. now right.
      * left. now left.
      * destruct (IHc H) as [H1 | H1]; [left; now right | now right].
Qed.

End CollectionFacts.

(* ================================================================== *)
(** ** The registry, the wire and the connection *)
(* ================================================================== *)

Module RegistryFacts.
Import WebSocketService ServiceNotions ServiceFacts RegistryNotions.
Local Open Scope list_scope.

Lemma set_set {V : Type} (k : channel) (v v' : V) (m : list (channel * V)) :
  Map.set k v (Map.set k v' m) = Map.set k v m.
Proof.
  induction m as [| [k0 v0] m IH]; simpl.
  - now rewrite String.eqb_refl.
  - destruct (String.eqb k0 k) eqn:He; simpl; rewrite He; [reflexivity |].
    now rewrite IH.
Qed.

Lemma get_set {V : Type} (k k' : channel) (v : V) (m : list (channel * V)) :
  Map.get k' (Map.set k v m) =
  if String.eqb k k' then Some v else Map.get k' m.
Proof.
  destruct (String.eqb_spec k k') as [<- | Hne].
  - apply get_set_same.
  - apply get_set_other. congruence.
Qed.

Lemma get_delete {V : Type} (k k' : channel) (m : list (channel * V)) :
  Map.get k' (Map.delete k m) =
  if String.eqb k k' then None else Map.get k' m.
Proof.
  destruct (String.eqb_spec k k') as [<- | Hne].
  - apply get_delete_same.
  - apply get_delete_other. congruence.
Qed.

(** The listeners of every channel after [subscribe]. *)
Lemma listeners_subscribe (ch ch' : channel) (cb : callback) (w : world) :
  listeners ch' (worldOf (subscribe ch cb w)) =
  if String.eqb ch ch'
  then match subscribe ch cb w with
       | Return _ _ => CallbackSet.add cb (listeners ch w)
       | Throw _ _ => listeners ch w
       end
  else listeners ch' w.
Proof.
  unfold listeners. destruct w as [[] []].
  unfold subscribe, subscribeToChannels, send, socketSend, bind, modify, ret,
    worldOf, Map.has.
  cbn -[Map.get Map.set].
  destruct (Map.get ch subscribers0) as [l |] eqn:Hget;
    cbn -[Map.get Map.set].
  - rewrite Hget, get_set. now destruct (String.eqb ch ch').
  - destruct ws0 as [t |]; [destruct connected0 |];
      cbn -[Map.get Map.set];
      [destruct (nth_error sockets0 t) as [k |];
       [destruct (state k) |] |..];
      cbn -[Map.get Map.set];
      rewrite ?set_set, ?get_set_same, ?get_set;
      destruct (String.eqb ch ch') eqn:He; try reflexivity;
      rewrite ?get_set, ?He; try reflexivity.
    all: rewrite Hget; reflexivity.
Qed.

Lemma listeners_unsubscribe (ch ch' : channel) (cb : callback) (w : world) :
  listeners ch' (worldOf (unsubscribe ch cb w)) =
  if String.eqb ch ch' then CallbackSet.delete cb (listeners ch w)
  else listeners ch' w.
Proof.
  unfold listeners. destruct w as [[] []].
  unfold unsubscribe, worldOf.
  cbn -[Map.get Map.set Map.delete CallbackSet.delete].
  destruct (Map.get ch subscribers0) as [l |] eqn:Hget;
    cbn -[Map.get Map.set Map.delete CallbackSet.delete].
  - unfold CallbackSet.size.
    destruct (CallbackSet.delete cb l) as [| x l'] eqn:Hl;
      cbn -[Map.get Map.set Map.delete CallbackSet.delete].
    + rewrite get_delete, get_set. now destruct (String.eqb ch ch').
    + destruct (Z.eqb_spec (Z.of_nat (S (List.length l'))) 0) as [H0 | _];
        [lia |].
      cbn -[Map.get Map.set Map.delete CallbackSet.delete].
      rewrite get_set. now destruct (String.eqb ch ch').
  - destruct (String.eqb_spec ch ch') as [<- | _]; [| reflexivity].
    now rewrite Hget.
Qed.

(** Only [subscribe], [unsubscribe] and [close] touch the registry. *)
Lemma this_resolve (t : socketId) (w : world) : this (resolve t w) = this w.
Proof.
  unfold resolve.
  destruct (nth_error (sockets (env w)) t) as [k |]; [| reflexivity].
  destruct (promise k); try reflexivity.
  destruct (origin k); [now destruct w as [[] []] |].
  destruct (reconnected_sameTransports
              (setSockets (adjust t (setPromise Fulfilled) (sockets (env w))) w))
    as [_ ->].
  now destruct w as [[] []].
Qed.

Lemma this_reject (t : socketId) (w : world) : this (reject t w) = this w.
Proof.
  unfold reject, reconnectionFailed.
  destruct (nth_error (sockets (env w)) t) as [k |]; [| reflexivity].
  destruct (promise k); try reflexivity.
  destruct (origin k); now destruct w as [[] []].
Qed.

Lemma subscribers_attemptReconnect (w : world) :
  subscribers (this (attemptReconnect w)) = subscribers (this w).
Proof.
  unfold attemptReconnect. destruct w as [[] []]. cbn.
  now destruct (_ >=? _).
Qed.

Lemma step_subscribers (e : event) (w w' : world) :
  step e w = Some w' ->
  match e with
  | callSubscribe _ _ | callUnsubscribe _ _ | callClose => True
  | _ => subscribers (this w') = subscribers (this w)
  end.
Proof.
  intro Hstep. destruct e; simpl in Hstep; try exact I.
  - injection Hstep as <-. now destruct w as [[] []].
  - injection Hstep as <-. unfold sendUpdate.
    now destruct (send_sameTransports (updateFrame ch data) w) as [_ ->].
  - injection Hstep as <-. unfold sendDelete.
    now destruct (send_sameTransports (deleteFrame ch keys) w) as [_ ->].
  - destruct (stateOf t w) as [[] |]; try discriminate.
    injection Hstep as <-. rewrite this_resolve. now destruct w as [[] []].
  - destruct (stateOf t w) as [[] |]; try discriminate.
    injection Hstep as <-. apply handleMessage_sameTransports.
  - destruct (stateOf t w) as [[] |]; try discriminate;
      injection Hstep as <-; rewrite this_reject; now destruct w as [[] []].
  - destruct (stateOf t w) as [[] |]; try discriminate;
      injection Hstep as <-; rewrite subscribers_attemptReconnect;
      now destruct w as [[] []].
  - destruct (nth_error (timers (env w)) i) as [[d []] |]; try discriminate.
    injection Hstep as <-. now destruct w as [[] []].
Qed.

Lemma listeners_close (ch : channel) (w : world) :
  listeners ch (close w) = [] \/ close w = w.
Proof.
  unfold close, listeners. destruct w as [[] []]. cbn.
  destruct ws0; [left | right]; reflexivity.
Qed.

Lemma NoDup_CallbackSet_add (cb : callback) (s : list callback) :
  NoDup s -> NoDup (CallbackSet.add cb s).
Proof.
  intro H. unfold CallbackSet.add, CallbackSet.has.
  destruct (existsb (Nat.eqb cb) s) eqn:He; [exact H |].
  apply NoDup_app; [exact H | repeat constructor; easy |].
  intros a Ha [<- | []].
  assert (existsb (Nat.eqb cb) s = true); [| congruence].
  apply existsb_exists. exists cb. split; [exact Ha | apply Nat.eqb_refl].
Qed.

Lemma NoDup_CallbackSet_delete (cb : callback) (s : list callback) :
  NoDup s -> NoDup (CallbackSet.delete cb s).
Proof. apply NoDup_filter. Qed.

(** No listener is registered twice on a channel. *)
Lemma step_distinct (e : event) (w w' : world) :
  (forall ch, NoDup (listeners ch w)) -> step e w = Some w' ->
  forall ch, NoDup (listeners ch w').
Proof.
  intros Hw Hstep ch.
  pose proof (step_subscribers e w w' Hstep) as Hsub.
  assert (Hsame : subscribers (this w') = subscribers (this w) ->
                  NoDup (listeners ch w')).
  { intro H. unfold listeners. rewrite H. apply Hw. }
  destruct e; auto; simpl in Hstep; injection Hstep as <-.
  - rewrite listeners_subscribe.
    destruct (String.eqb ch0 ch); [| apply Hw].
    destruct (subscribe ch0 cb w); [apply NoDup_CallbackSet_add |]; apply Hw.
  - rewrite listeners_unsubscribe.
    destruct (String.eqb ch0 ch); [apply NoDup_CallbackSet_delete |];
      apply Hw.
  - destruct (listeners_close ch w) as [-> | ->]; [constructor | apply Hw].
Qed.

Lemma reachable_distinct (w : world) :
  reachable w -> forall ch, NoDup (listeners ch w).
Proof.
  induction 1 as [| e w w' _ IH Hstep]; [intro; constructor |].
  exact (step_distinct e w w' IH Hstep).
Qed.

(** What a turn of the event loop adds to the listener calls. *)
Lemma invoked_send (m : frame) (w : world) :
  invoked (env (worldOf (send m w))) = invoked (env w).
Proof. destruct w as [[] []]. run_method. Qed.

Lemma invoked_reconnected (w : world) :
  invoked (env (reconnected w)) = invoked (env w).
Proof.
  unfold reconnected. destruct (_ >? 0); [| reflexivity].
  unfold subscribeToChannels.
  pose proof (invoked_send (subscribeFrame (Map.keys (subscribers (this w)))) w)
    as H.
  destruct (send _ w) as [a w1 | err w1]; simpl in H; [exact H |].
  now destruct w1 as [[] []].
Qed.

Lemma invoked_resolve (t : socketId) (w : world) :
  invoked (env (resolve t w)) = invoked (env w).
Proof.
  unfold resolve.
  destruct (nth_error (sockets (env w)) t) as [k |]; [| reflexivity].
  destruct (promise k); try reflexivity.
  destruct (origin k); [now destruct w as [[] []] |].
  rewrite invoked_reconnected. now destruct w as [[] []].
Qed.

Lemma invoked_reject (t : socketId) (w : world) :
  invoked (env (reject t w)) = invoked (env w).
Proof.
  unfold reject, reconnectionFailed.
  destruct (nth_error (sockets (env w)) t) as [k |]; [| reflexivity].
  destruct (promise k); try reflexivity.
  destruct (origin k); now destruct w as [[] []].
Qed.

Lemma invoked_handleMessage (data : incoming) (w : world) :
  invoked (env (handleMessage data w)) = invoked (env w) ++ dispatched data w.
Proof.
  unfold dispatched, addressed, listeners, handleMessage.
  destruct w as [[] []].
  destruct data as [| type [c |] wid]; cbn -[Map.get];
    rewrite ?app_nil_r; try reflexivity.
  - destruct (String.eqb type "connected"); cbn -[Map.get];
      rewrite ?app_nil_r; try reflexivity.
    destruct (String.eqb c ""); cbn -[Map.get];
      rewrite ?app_nil_r; try reflexivity.
    destruct (Map.get c subscribers0); destruct (String.eqb c "__messages__");
      cbn; rewrite ?app_nil_r; reflexivity.
  - destruct (String.eqb type "connected"); cbn; now rewrite ?app_nil_r.
Qed.

Lemma step_invoked (e : event) (w w' : world) :
  step e w = Some w' ->
  invoked (env w') =
  invoked (env w) ++
  match e with onmessage _ data => dispatched data w | _ => [] end.
Proof.
  intro Hstep. destruct e; simpl in Hstep; rewrite ?app_nil_r.
  - injection Hstep as <-. now destruct w as [[] []].
  - injection Hstep as <-. destruct w as [[] []]. run_method.
  - injection Hstep as <-. destruct w as [[] []]. run_method.
  - injection Hstep as <-. apply invoked_send.
  - injection Hstep as <-. apply invoked_send.
  - injection Hstep as <-. destruct w as [[] []]. unfold close. cbn.
    now destruct ws0.
  - destruct (stateOf t w) as [[] |]; try discriminate.
    injection Hstep as <-. rewrite invoked_resolve. now destruct w as [[] []].
  - destruct (stateOf t w) as [[] |]; try discriminate.
    injection Hstep as <-. apply invoked_handleMessage.
  - destruct (stateOf t w) as [[] |]; try discriminate;
      injection Hstep as <-; rewrite invoked_reject; now destruct w as [[] []].
  - destruct (stateOf t w) as [[] |]; try discriminate;
      injection Hstep as <-; destruct w as [[] []]; unfold attemptReconnect;
      cbn; now destruct (_ >=? _).
  - destruct (nth_error (timers (env w)) i) as [[d []] |]; try discriminate.
    injection Hstep as <-. now destruct w as [[] []].
Qed.

Lemma In_dispatched (data : incoming) (w : world) (cb : callback)
  (ch : channel) :
  In (cb, ch) (dispatched data w) <->
  addressed data = Some ch /\ In cb (listeners ch w).
Proof.
  unfold dispatched. destruct (addressed data) as [c |].
  - rewrite in_map_iff. split.
    + intros (x & Hx & Hin). injection Hx as -> ->. now split.
    + intros [Hc Hin]. injection Hc as ->. now exists cb.
  - simpl. split; [tauto | intros [H _]; discriminate].
Qed.

Lemma NoDup_tagged (c : channel) (l : list callback) :
  NoDup l -> NoDup (map (fun cb => (cb, c)) l).
Proof.
  induction 1 as [| x l Hx _ IH]; simpl; constructor; [| exact IH].
  rewrite in_map_iff. intros (y & Hy & Hin). injection Hy as ->. auto.
Qed.

(** Dispatch of an incoming message.  In a world that the service can
    reach, [handleMessage] calls the listeners registered on the
    channel of the message, in the order of their registration and
    each of them once, and no other listener.  A text that is not
    JSON, the confirmation of the connection and a message without
    channel (or with the empty channel, which is falsy) reach no
    listener, and neither does a message on a channel that has no
    entry in the registry.  The message changes neither the registry
    nor the handle, the flag, the transports, the timers or what is on
    the wire.  (A listener is a function taken by identity, which
    returns normally, as the listeners of [useWebSocket] do.) *)
Theorem message_reaches_each_listener_once
  (w w' : world) (t : socketId) (data : incoming) :
  reachable w ->
  step (onmessage t data) w = Some w' ->
  invoked (env w') = invoked (env w) ++ dispatched data w /\
  NoDup (dispatched data w) /\
  (forall cb ch,
     In (cb, ch) (dispatched data w) <->
     addressed data = Some ch /\ In cb (listeners ch w)) /\
  (forall ch,
     addressed data = Some ch ->
     Map.has ch (subscribers (this w)) = false -> dispatched data w = []) /\
  subscribers (this w') = subscribers (this w) /\
  ws (this w') = ws (this w) /\
  connected (this w') = connected (this w) /\
  wire (env w') = wire (env w) /\
  sameTransports w w'.
Proof.
  intros Hreach Hstep.
  split; [exact (step_invoked _ _ _ Hstep) |].
  split.
  { unfold dispatched. destruct (addressed data) as [c |]; [| constructor].
    apply NoDup_tagged. now apply reachable_distinct. }
  split; [intros; apply In_dispatched |].
  split.
  { intros ch Ha Hhas. unfold dispatched, listeners, Map.has in *.
    rewrite Ha. now destruct (Map.get ch (subscribers (this w))). }
  simpl in Hstep. destruct (stateOf t w) as [[] |]; try discriminate.
  injection Hstep as <-.
  destruct (handleMessage_sameTransports data w) as [Hsame Hsub].
  repeat split; try exact Hsub; try apply Hsame;
    destruct w as [[] []]; run_method.
Qed.

Lemma message_reaches_each_listener_once_witness :
  exists w w',
    reachable w /\
    step (onmessage 0%nat (parsed "update" (Some "main:orders") None)) w =
      Some w' /\
    invoked (env w') = [(7%nat, "main:orders"); (8%nat, "main:orders")].
Proof.
  assert (H : exists w,
             run [callConnect; onopen 0%nat;
                  callSubscribe "main:orders" 7%nat;
                  callSubscribe "main:orders" 8%nat;
                  callSubscribe "main:orders" 7%nat] initial = Some w)
    by (eexists; vm_compute; reflexivity).
  destruct H as [w Hw].
  assert (Hreach : reachable w)
    by exact (run_reachable _ _ _ reachable_initial Hw).
  assert (H : exists w',
             step (onmessage 0%nat (parsed "update" (Some "main:orders") None))
               w = Some w').
  { vm_compute in Hw. injection Hw as <-. eexists. vm_compute. reflexivity. }
  destruct H as [w' Hstep].
  exists w, w'. split; [exact Hreach |]. split; [exact Hstep |].
  destruct (message_reaches_each_listener_once w w' 0%nat _ Hreach Hstep)
    as (Hinv & _).
  rewrite Hinv. vm_compute in Hw. injection Hw as <-. reflexivity.
Defined.

(** A listener that is not registered on a channel stays unregistered,
    and is not called for the channel, in a turn that is no
    [subscribe] call for it. *)
Lemma step_not_listening (e : event) (w w' : world) (ch : channel)
  (cb : callback) :
  e <> callSubscribe ch cb ->
  ~ In cb (listeners ch w) ->
  step e w = Some w' ->
  ~ In cb (listeners ch w') /\
  exists calls,
    invoked (env w') = invoked (env w) ++ calls /\ ~ In (cb, ch) calls.
Proof.
  intros Hne Hnot Hstep. split.
  - pose proof (step_subscribers e w w' Hstep) as Hsub.
    assert (Hsame : subscribers (this w') = subscribers (this w) ->
                    ~ In cb (listeners ch w')).
    { intro H. unfold listeners. rewrite H. exact Hnot. }
    destruct e; auto; simpl in Hstep; injection Hstep as <-.
    + rewrite listeners_subscribe.
      destruct (String.eqb_spec ch0 ch) as [-> | _]; [| exact Hnot].
      destruct (subscribe ch cb0 w); [| exact Hnot].
      unfold CallbackSet.add. destruct (CallbackSet.has cb0 (listeners ch w));
        [exact Hnot |].
      rewrite in_app_iff. intros [H | [-> | []]]; [auto | congruence].
    + rewrite listeners_unsubscribe.
      destruct (String.eqb_spec ch0 ch) as [-> | _]; [| exact Hnot].
      rewrite In_CallbackSet_delete. tauto.
    + destruct (listeners_close ch w) as [-> | ->]; [easy | exact Hnot].
  - eexists. split; [exact (step_invoked e w w' Hstep) |].
    destruct e; try easy.
    rewrite In_dispatched. tauto.
Qed.

Lemma run_not_listening (ch : channel) (cb : callback) (trace : list event) :
  forall w w',
    ~ In (callSubscribe ch cb) trace ->
    ~ In cb (listeners ch w) ->
    run trace w = Some w' ->
    ~ In cb (listeners ch w') /\
    exists calls,
      invoked (env w') = invoked (env w) ++ calls /\ ~ In (cb, ch) calls.
Proof.
  induction trace as [| e trace IH]; intros w w' Htrace Hnot Hrun;
    simpl in Hrun.
  - injection Hrun as <-. split; [exact Hnot |].
    exists []. now rewrite app_nil_r.
  - destruct (step e w) as [w1 |] eqn:Hstep; [| discriminate].
    assert (Hne : e <> callSubscribe ch cb)
      by (intros ->; apply Htrace; now left).
    destruct (step_not_listening e w w1 ch cb Hne Hnot Hstep)
      as (Hnot1 & calls1 & Hinv1 & Hcalls1).
    destruct (IH w1 w') as (Hnot' & calls & Hinv & Hcalls);
      [intro; apply Htrace; now right | exact Hnot1 | exact Hrun |].
    split; [exact Hnot' |].
    exists (calls1 ++ calls). split.
    + now rewrite Hinv, Hinv1, app_assoc.
    + rewrite in_app_iff. tauto.
Qed.

(** After [unsubscribe(channel, callback)], the cleanup of the effect
    of [useWebSocket], the listener is not registered on the channel
    and is not called for a message of the channel, whatever happens
    to the service afterwards (messages, losses and reconnections,
    other subscriptions, [close()]), as long as [subscribe] is not
    called with this channel and this listener again. *)
Theorem no_call_after_unsubscribe
  (ch : channel) (cb : callback) (trace : list event) (w w' : world) :
  ~ In (callSubscribe ch cb) trace ->
  run (callUnsubscribe ch cb :: trace) w = Some w' ->
  ~ In cb (listeners ch w') /\
  exists calls,
    invoked (env w') = invoked (env w) ++ calls /\ ~ In (cb, ch) calls.
Proof.
  intros Htrace Hrun.
  change (run trace (worldOf (unsubscribe ch cb w)) = Some w') in Hrun.
  assert (Hgone : ~ In cb (listeners ch (worldOf (unsubscribe ch cb w)))).
  { rewrite listeners_unsubscribe, String.eqb_refl, In_CallbackSet_delete.
    tauto. }
  destruct (run_not_listening ch cb trace _ w' Htrace Hgone Hrun)
    as (Hnot & calls & Hinv & Hcalls).
  split; [exact Hnot |]. exists calls. split; [| exact Hcalls].
    rewrite Hinv. f_equal.
    rewrite (step_invoked (callUnsubscribe ch cb) w _ eq_refl).
    apply app_nil_r.
Qed.

Lemma no_call_after_unsubscribe_witness :
  exists w w',
    run [callUnsubscribe "main:orders" 7%nat;
         onmessage 0%nat (parsed "update" (Some "main:orders") None)] w =
      Some w' /\
    In (7%nat, "main:orders") (invoked (env w)) /\
    invoked (env w') = invoked (env w) ++ [(8%nat, "main:orders")].
Proof.
  assert (H : exists w,
             run [callConnect; onopen 0%nat;
                  callSubscribe "main:orders" 7%nat;
                  callSubscribe "main:orders" 8%nat;
                  onmessage 0%nat (parsed "update" (Some "main:orders") None)]
               initial = Some w)
    by (eexists; vm_compute; reflexivity).
  destruct H as [w Hw].
  assert (H : exists w',
             run [callUnsubscribe "main:orders" 7%nat;
                  onmessage 0%nat (parsed "update" (Some "main:orders") None)]
               w = Some w').
  { vm_compute in Hw. injection Hw as <-. eexists. vm_compute. reflexivity. }
  destruct H as [w' Hrun].
  exists w, w'. split; [exact Hrun |].
  destruct (no_call_after_unsubscribe "main:orders" 7%nat
              [onmessage 0%nat (parsed "update" (Some "main:orders") None)]
              w w' ltac:(intros [H | []]; discriminate) Hrun)
    as (_ & calls & Hinv & _).
  vm_compute in Hw. injection Hw as <-.
  vm_compute in Hrun. injection Hrun as <-.
  split; [vm_compute; tauto | reflexivity].
Defined.

(** *** What goes on the wire *)

Lemma openHandle_same (w w' : world) :
  this w' = this w -> sockets (env w') = sockets (env w) ->
  openHandle w' = openHandle w.
Proof. unfold openHandle, stateOf. now intros -> ->. Qed.

Lemma wire_send (m : frame) (w : world) :
  wire (env (worldOf (send m w))) =
  wire (env w) ++
  match openHandle w with Some t => [(t, m)] | None => [] end.
Proof.
  unfold openHandle, stateOf, send, socketSend, worldOf.
  destruct w as [[] []]. cbn.
  destruct ws0 as [t |]; cbn; [| now rewrite app_nil_r].
  destruct connected0; cbn;
    [| destruct (nth_error sockets0 t) as [k |]; cbn;
       [destruct (state k) |]; now rewrite app_nil_r].
  destruct (nth_error sockets0 t) as [k |]; cbn; [| now rewrite app_nil_r].
  destruct (state k); cbn; now rewrite ?app_nil_r.
Qed.

Lemma wire_reconnected (w : world) :
  wire (env (reconnected w)) =
  wire (env w) ++
  match openHandle w, Map.keys (subscribers (this w)) with
  | Some t, c :: cs => [(t, subscribeFrame (c :: cs))]
  | _, _ => []
  end.
Proof.
  unfold reconnected, subscribeToChannels.
  destruct (Map.keys (subscribers (this w))) as [| c cs] eqn:Hkeys.
  - cbn. destruct (openHandle w); now rewrite app_nil_r.
  - replace (Z.of_nat (List.length (c :: cs)) >? 0) with true
      by (symmetry; apply Z.gtb_lt; simpl List.length; lia).
    pose proof (wire_send (subscribeFrame (c :: cs)) w) as H.
    destruct (send _ w) as [a w1 | err w1]; simpl in H;
      [exact H | now destruct w1 as [[] []]].
Qed.

Lemma reconnected_handle (w : world) :
  openHandle (reconnected w) = openHandle w.
Proof.
  destruct (reconnected_sameTransports w) as [(Hs & _) Ht].
  now apply openHandle_same.
Qed.

Lemma subscribe_handle (ch : channel) (cb : callback) (w : world) :
  ws (this (worldOf (subscribe ch cb w))) = ws (this w) /\
  connected (this (worldOf (subscribe ch cb w))) = connected (this w).
Proof. destruct w as [[] []]. run_method. Qed.

Lemma wire_subscribe (ch : channel) (cb : callback) (w : world) :
  wire (env (worldOf (subscribe ch cb w))) =
  wire (env w) ++
  match openHandle w with
  | Some t => map (pair t) (requested (callSubscribe ch cb) w)
  | None => []
  end.
Proof.
  unfold subscribe, bind, modify, ret, subscribeToChannels, requested.
  destruct (Map.has ch (subscribers (this w))) eqn:Hhas; cbn [negb].
  - destruct w as [[] []]. cbn -[openHandle].
    destruct (openHandle _); now rewrite app_nil_r.
  - set (w0 := setSubscribers (Map.set ch [] (subscribers (this w))) w).
    pose proof (wire_send (subscribeFrame [ch]) w0) as H.
    assert (H0 : openHandle w0 = openHandle w)
      by (now destruct w as [[] []]).
    assert (H1 : wire (env w0) = wire (env w))
      by (now destruct w as [[] []]).
    rewrite H0, H1 in H.
    destruct (send (subscribeFrame [ch]) w0) as [a w1 | err w1];
      simpl in H |- *; destruct w1 as [[] []]; cbn in *; rewrite H;
      now destruct (openHandle w).
Qed.

Ltac quiet :=
  cbn -[openHandle];
  match goal with
  | |- context [openHandle ?x] => destruct (openHandle x)
  end;
  now rewrite app_nil_r.

Lemma requested_one (e : event) (w : world) :
  (List.length (requested e w) <= 1)%nat.
Proof.
  destruct e; simpl; auto.
  - destruct (Map.has _ _); simpl; auto.
  - destruct (originOf t w) as [[] |]; simpl; auto.
    destruct (Map.keys _); simpl; auto.
Qed.

(** What the service transmits.  In one turn of the event loop the
    service passes at most one message to [send]: the subscription
    of a channel that enters the registry, the data of [sendUpdate]
    or [sendDelete], or the re-subscription when a transport that the
    reconnection timer opened opens.  The message goes on the wire
    when, after the turn, [this.ws] is an open transport and
    [this.connected] is set, on that transport; otherwise nothing
    goes on the wire, and nothing of it is kept for later.  So every
    frame on the wire was passed to [send] in the turn that put it
    there, on the transport that was the open handle; [unsubscribe],
    [close()], incoming messages, errors, close events and timers
    transmit nothing. *)
Theorem frames_leave_on_the_open_handle (e : event) (w w' : world) :
  reachable w ->
  step e w = Some w' ->
  wire (env w') =
    wire (env w) ++
    match openHandle w' with
    | Some t => map (pair t) (requested e w)
    | None => []
    end /\
  (List.length (requested e w) <= 1)%nat /\
  (forall t f,
     In (t, f) (wire (env w')) ->
     In (t, f) (wire (env w)) \/
     (In f (requested e w) /\ ws (this w') = Some t /\
      connected (this w') = true /\ stateOf t w' = Some OPEN)).
Proof.
  intros Hreach Hstep.
  assert (Hwire : wire (env w') =
                  wire (env w) ++
                  match openHandle w' with
                  | Some t => map (pair t) (requested e w)
                  | None => []
                  end).
  { destruct e; simpl in Hstep; simpl requested.
    - injection Hstep as <-. destruct w as [[] []].
      quiet.
    - injection Hstep as <-.
      rewrite wire_subscribe.
      destruct (subscribe_sameTransports ch cb w) as (Hs & _).
      destruct (subscribe_handle ch cb w) as [Hws Hc].
      unfold openHandle, stateOf. now rewrite Hs, Hws, Hc.
    - injection Hstep as <-.
      unfold unsubscribe, worldOf. destruct w as [[] []]. cbn.
      destruct (Map.get ch subscribers0); cbn;
        [destruct (_ =? 0) |]; quiet.
    - injection Hstep as <-. unfold sendUpdate.
      rewrite wire_send.
      destruct (send_sameTransports (updateFrame ch data) w) as [(Hs & _) Ht].
      rewrite (openHandle_same w _ Ht Hs).
      now destruct (openHandle w).
    - injection Hstep as <-. unfold sendDelete.
      rewrite wire_send.
      destruct (send_sameTransports (deleteFrame ch keys) w) as [(Hs & _) Ht].
      rewrite (openHandle_same w _ Ht Hs).
      now destruct (openHandle w).
    - injection Hstep as <-. unfold close. destruct w as [[] []].
      cbn -[openHandle]. destruct ws0; quiet.
    - destruct (stateOf t w) as [[] |] eqn:Hstate; try discriminate.
      injection Hstep as <-.
      destruct (connecting_pending w t (reachable_invariant w Hreach) Hstate)
        as (k & Hk & Hsk & Hpk).
      unfold originOf. rewrite Hk. simpl option_map.
      unfold resolve.
      replace (nth_error
                 (sockets
                    (env
                       (setReconnectAttempts 0
                          (setConnected true
                             (log "WebSocket connected"
                                (setSockets
                                   (adjust t (setState OPEN)
                                      (sockets (env w))) w)))))) t)
        with (Some (setState OPEN k))
        by (destruct w as [[] []]; cbn in *;
            now rewrite nth_error_adjust_same, Hk).
      simpl promise. rewrite Hpk.
      simpl origin. destruct (origin k).
      + destruct w as [[] []]. quiet.
      + rewrite reconnected_handle, wire_reconnected.
        destruct w as [[] []]. cbn -[openHandle Map.keys].
        destruct (openHandle _); [| reflexivity].
        now destruct (Map.keys subscribers0).
    - destruct (stateOf t w) as [[] |]; try discriminate.
      injection Hstep as <-.
      replace (wire (env (handleMessage data w))) with (wire (env w))
        by (destruct w as [[] []]; run_method).
      quiet.
    - assert (Hgo : forall w1, wire (env (reject t w1)) = wire (env w1)).
      { intro w1. unfold reject, reconnectionFailed.
        destruct (nth_error (sockets (env w1)) t) as [k |]; [| reflexivity].
        destruct (promise k); try reflexivity.
        destruct (origin k); now destruct w1 as [[] []]. }
      destruct (stateOf t w) as [[] |]; try discriminate;
        injection Hstep as <-; rewrite Hgo; destruct w as [[] []]; quiet.
    - destruct (stateOf t w) as [[] |]; try discriminate;
        injection Hstep as <-; destruct w as [[] []];
        unfold attemptReconnect; cbn -[openHandle]; destruct (_ >=? _);
        quiet.
    - destruct (nth_error (timers (env w)) i) as [[d []] |]; try discriminate.
      injection Hstep as <-. destruct w as [[] []]. quiet. }
  split; [exact Hwire |]. split; [apply requested_one |].
  intros t f Hin. rewrite Hwire in Hin.
  apply in_app_or in Hin as [Hin | Hin]; [now left | right].
  destruct (openHandle w') as [t' |] eqn:Hopen; [| destruct Hin].
  apply in_map_iff in Hin as (f' & Hf & Hin). injection Hf as -> ->.
  split; [exact Hin |].
  unfold openHandle in Hopen.
  destruct (ws (this w')) as [t0 |]; [| discriminate].
  destruct (stateOf t0 w') as [[] |] eqn:Hst; try discriminate.
  destruct (connected (this w')); [| discriminate].
  injection Hopen as ->. auto.
Qed.

Lemma frames_leave_on_the_open_handle_witness :
  exists w w',
    reachable w /\
    step (callSendUpdate "main:orders" ["name"]) w = Some w' /\
    wire (env w') =
      wire (env w) ++ [(0%nat, updateFrame "main:orders" ["name"])].
Proof.
  assert (H : exists w,
             run [callConnect; onopen 0%nat;
                  callSubscribe "main:orders" 7%nat] initial = Some w)
    by (eexists; vm_compute; reflexivity).
  destruct H as [w Hw].
  assert (Hreach : reachable w)
    by exact (run_reachable _ _ _ reachable_initial Hw).
  exists w, (worldOf (sendUpdate "main:orders" ["name"] w)).
  split; [exact Hreach |]. split; [reflexivity |].
  destruct (frames_leave_on_the_open_handle
              (callSendUpdate "main:orders" ["name"]) w _ Hreach eq_refl)
    as (Hwire & _).
  rewrite Hwire. vm_compute in Hw. injection Hw as <-. reflexivity.
Defined.

(** *** Subscribing and unsubscribing *)

Lemma subscribe_result (ch : channel) (cb : callback) (w w1 : world)
  (r : channel * callback) :
  subscribe ch cb w = Return r w1 ->
  r = (ch, cb) /\ w1 = worldOf (subscribe ch cb w).
Proof.
  intro H. rewrite H. split; [| reflexivity].
  unfold subscribe, bind, ret in H.
  repeat match type of H with
         | match ?x with _ => _ end = _ => destruct x; try discriminate
         end.
  now injection H.
Qed.

Lemma unsubscribe_returns (ch : channel) (cb : callback) (w : world) :
  unsubscribe ch cb w = Return tt (worldOf (unsubscribe ch cb w)) /\
  env (worldOf (unsubscribe ch cb w)) = env w.
Proof. destruct w as [[] []]. run_method. Qed.

Lemma delete_add (cb : callback) (s : list callback) :
  CallbackSet.delete cb (CallbackSet.add cb s) = CallbackSet.delete cb s.
Proof.
  unfold CallbackSet.add, CallbackSet.delete.
  destruct (CallbackSet.has cb s); [reflexivity |].
  rewrite filter_app. simpl. rewrite Nat.eqb_refl. apply app_nil_r.
Qed.

Lemma delete_absent (cb : callback) (s : list callback) :
  ~ In cb s -> CallbackSet.delete cb s = s.
Proof.
  unfold CallbackSet.delete. induction s as [| x s IH]; [reflexivity |].
  intro H. simpl. destruct (Nat.eqb_spec cb x) as [-> | _].
  - exfalso. apply H. now left.
  - simpl. rewrite IH; [reflexivity |]. intro Hin. apply H. now right.
Qed.

(** The function that [subscribe(channel, callback)] returns undoes
    the registration: calling it removes the listener from the
    channel, leaves the listeners of every other channel and all that
    is outside the registry alone (no message goes to the server),
    and drops the entry of the channel when no listener is left.
    When the listener was not registered on the channel before, the
    listeners of every channel are again what they were.  (When it
    was, the set held it once, and the one call removes it.) *)
Theorem subscribe_then_unsubscribe
  (w w1 : world) (ch : channel) (cb : callback) (r : channel * callback) :
  subscribe ch cb w = Return r w1 ->
  exists w2,
    unsubscribe (fst r) (snd r) w1 = Return tt w2 /\
    env w2 = env w1 /\
    (forall ch',
       listeners ch' w2 =
       if String.eqb ch ch' then CallbackSet.delete cb (listeners ch w)
       else listeners ch' w) /\
    (~ In cb (listeners ch w) -> forall ch', listeners ch' w2 = listeners ch' w) /\
    (listeners ch w = [] -> Map.has ch (subscribers (this w2)) = false).
Proof.
  intro Hsub. destruct (subscribe_result ch cb w w1 r Hsub) as [-> Hw1].
  simpl fst. simpl snd.
  destruct (unsubscribe_returns ch cb w1) as [Hret Henv].
  exists (worldOf (unsubscribe ch cb w1)).
  assert (Hl : forall ch',
             listeners ch' (worldOf (unsubscribe ch cb w1)) =
             if String.eqb ch ch' then CallbackSet.delete cb (listeners ch w)
             else listeners ch' w).
  { intro ch'. rewrite listeners_unsubscribe.
    rewrite Hw1, !listeners_subscribe, String.eqb_refl, Hsub.
    destruct (String.eqb ch ch'); [apply delete_add | reflexivity]. }
  repeat split; try assumption.
  - intros Hnot ch'. rewrite Hl.
    destruct (String.eqb_spec ch ch') as [<- | _]; [| reflexivity].
    now apply delete_absent.
  - intro Hnil. specialize (Hl ch). rewrite String.eqb_refl, Hnil in Hl.
    destruct (unsubscribe_removes_listener ch cb w1)
      as (w2 & Hw2 & _ & _ & Hhas & _).
    rewrite Hret in Hw2. injection Hw2 as <-. apply Hhas. exact Hl.
Qed.

Lemma subscribe_then_unsubscribe_witness :
  exists w w1 w2,
    subscribe "main:orders" 7%nat w = Return ("main:orders", 7%nat) w1 /\
    unsubscribe "main:orders" 7%nat w1 = Return tt w2 /\
    listeners "main:orders" w1 = [8%nat; 7%nat] /\
    listeners "main:orders" w2 = listeners "main:orders" w.
Proof.
  assert (H : exists w,
             run [callConnect; onopen 0%nat;
                  callSubscribe "main:orders" 8%nat] initial = Some w)
    by (eexists; vm_compute; reflexivity).
  destruct H as [w Hw].
  assert (H : exists w1,
             subscribe "main:orders" 7%nat w =
             Return ("main:orders", 7%nat) w1).
  { vm_compute in Hw. injection Hw as <-. eexists. vm_compute. reflexivity. }
  destruct H as [w1 Hsub].
  destruct (subscribe_then_unsubscribe w w1 _ _ _ Hsub)
    as (w2 & Hun & _ & _ & Hsame & _).
  exists w, w1, w2. split; [exact Hsub |]. split; [exact Hun |].
  vm_compute in Hw. injection Hw as <-.
  vm_compute in Hsub. injection Hsub as <-.
  split; [reflexivity |].
  apply Hsame. vm_compute. intros [H | []]. discriminate.
Defined.

(** *** Closing *)

(** [close()] and the reconnection.  On a reachable service whose
    handle is an open or connecting transport, [close()] empties the
    registry, clears the handle, the flag and the connection id, and
    starts closing the transport, without sending anything and
    without setting a timer.  It does not take the [onclose] handler
    off the transport: the close event that follows runs
    [attemptReconnect] as after any loss, which (below the ceiling of
    ten attempts) sets the timer of the next attempt, and the timer
    opens a new transport and makes it the handle again. *)
Theorem close_does_not_stop_reconnection (w : world) (t : socketId) :
  reachable w ->
  ws (this w) = Some t ->
  stateOf t w = Some OPEN \/ stateOf t w = Some CONNECTING ->
  (subscribers (this (close w)) = [] /\
   ws (this (close w)) = None /\
   connected (this (close w)) = false /\
   websocketId (this (close w)) = None /\
   stateOf t (close w) = Some CLOSING /\
   wire (env (close w)) = wire (env w) /\
   scheduled (close w) = scheduled w) /\
  exists w2,
    step (onclose t) (close w) = Some w2 /\
    ws (this w2) = None /\
    scheduled w2 =
      scheduled w ++
      (if reconnectAttempts (this w) <? 10
       then [1000 * 2 ^ reconnectAttempts (this w)] else []) /\
    (reconnectAttempts (this w) < 10 ->
     exists w3,
       step (timeout (List.length (timers (env w)))) w2 = Some w3 /\
       ws (this w3) = Some (List.length (sockets (env w))) /\
       stateOf (List.length (sockets (env w))) w3 = Some CONNECTING /\
       originOf (List.length (sockets (env w))) w3 = Some ReconnectTimer).
Proof.
  intros Hreach Hws Hstate.
  destruct (reachable_invariant w Hreach) as [_ Hmax Hdelay Hatt _].
  destruct w as [[] []]. cbn in Hws, Hmax, Hdelay, Hatt. subst.
  unfold stateOf in Hstate. cbn in Hstate.
  destruct (nth_error sockets0 t) as [k |] eqn:Hk;
    [| destruct Hstate; discriminate].
  assert (Hclosing : nth_error
                       (adjust t
                          (fun k => match state k with
                                    | CONNECTING | OPEN => setState CLOSING k
                                    | _ => k
                                    end) sockets0) t =
                     Some (setState CLOSING k)).
  { rewrite nth_error_adjust_same, Hk. simpl.
    destruct Hstate as [H | H]; injection H as ->; reflexivity. }
  split.
  { unfold close, stateOf, scheduled. cbn. rewrite Hclosing.
    repeat split. }
  unfold step, close, stateOf, scheduled, attemptReconnect.
  cbn -[Z.mul Z.pow Z.add Z.sub].
  rewrite Hclosing. cbn -[Z.mul Z.pow Z.add Z.sub].
  replace (reconnectAttempts0 + 1 - 1) with reconnectAttempts0 by lia.
  destruct (Z.geb_spec reconnectAttempts0 10) as [Hge | Hlt];
    destruct (Z.ltb_spec reconnectAttempts0 10) as [Hlt' | Hge']; try lia.
  - eexists. split; [reflexivity |]. cbn. split; [reflexivity |].
    split; [now rewrite app_nil_r | lia].
  - eexists. split; [reflexivity |]. cbn -[Z.mul Z.pow Z.add Z.sub].
    split; [reflexivity |].
    split; [now rewrite map_app |].
    intros _. rewrite nth_error_app2, Nat.sub_diag by lia.
    cbn -[Z.mul Z.pow Z.add Z.sub].
    eexists. split; [reflexivity |]. cbn -[Z.mul Z.pow Z.add Z.sub].
    rewrite !length_adjust.
    split; [reflexivity |].
    unfold originOf. cbn -[Z.mul Z.pow Z.add Z.sub].
    rewrite !nth_error_app2 by (rewrite !length_adjust; lia).
    rewrite !length_adjust, Nat.sub_diag. split; reflexivity.
Qed.

(** *** One connection at a time *)

Lemma stateOf_adjust (f : socket -> socket) (t t' : socketId) (w : world) :
  stateOf t' (setSockets (adjust t f (sockets (env w))) w) =
  if Nat.eqb t t'
  then option_map (fun k => state (f k)) (nth_error (sockets (env w)) t)
  else stateOf t' w.
Proof.
  unfold stateOf. destruct w as [[] []]. cbn.
  destruct (Nat.eqb_spec t t') as [<- | Hne].
  - rewrite nth_error_adjust_same. now destruct (nth_error sockets0 t).
  - now rewrite nth_error_adjust_other.
Qed.

Lemma stateOf_same (w w' : world) (t : socketId) :
  sockets (env w') = sockets (env w) -> stateOf t w' = stateOf t w.
Proof. unfold stateOf. now intros ->. Qed.

Lemma stateOf_resolve (t t' : socketId) (w : world) :
  stateOf t' (resolve t w) = stateOf t' w.
Proof.
  unfold stateOf at 1. rewrite sockets_resolve.
  destruct (nth_error (sockets (env w)) t) as [k |] eqn:Hk; [| reflexivity].
  destruct (promise k); try reflexivity.
  change (stateOf t'
            (setSockets (adjust t (setPromise Fulfilled) (sockets (env w))) w) =
          stateOf t' w).
  rewrite stateOf_adjust, Hk.
  destruct (Nat.eqb_spec t t') as [<- | _]; [| reflexivity].
  unfold stateOf. now rewrite Hk.
Qed.

Lemma stateOf_reject (t t' : socketId) (w : world) :
  stateOf t' (reject t w) = stateOf t' w.
Proof.
  unfold stateOf at 1. rewrite sockets_reject.
  destruct (nth_error (sockets (env w)) t) as [k |] eqn:Hk; [| reflexivity].
  destruct (promise k); try reflexivity.
  change (stateOf t'
            (setSockets (adjust t (setPromise Rejected) (sockets (env w))) w) =
          stateOf t' w).
  rewrite stateOf_adjust, Hk.
  destruct (Nat.eqb_spec t t') as [<- | _]; [| reflexivity].
  unfold stateOf. now rewrite Hk.
Qed.

Lemma timers_reject (t : socketId) (w : world) :
  timers (env (reject t w)) = timers (env w).
Proof.
  unfold reject, reconnectionFailed.
  destruct (nth_error (sockets (env w)) t) as [k |]; [| reflexivity].
  destruct (promise k); try reflexivity.
  destruct (origin k); now destruct w as [[] []].
Qed.

(** The calls and events that leave the transports, the timers, the
    handle and the flag alone. *)
Lemma step_leaves_connection (e : event) (w w' : world) :
  step e w = Some w' ->
  match e with
  | callSubscribe _ _ | callUnsubscribe _ _ | callSendUpdate _ _
  | callSendDelete _ _ | onmessage _ _ =>
      sockets (env w') = sockets (env w) /\
      timers (env w') = timers (env w) /\
      ws (this w') = ws (this w) /\
      connected (this w') = connected (this w)
  | _ => True
  end.
Proof.
  intro Hstep. destruct e; try exact I; simpl in Hstep.
  - injection Hstep as <-.
    destruct (subscribe_sameTransports ch cb w) as (Hs & Ht & _).
    destruct (subscribe_handle ch cb w) as [Hws Hc]. auto.
  - injection Hstep as <-.
    destruct (unsubscribe_sameTransports ch cb w) as (Hs & Ht & _).
    repeat split; try assumption; destruct w as [[] []]; run_method.
  - injection Hstep as <-. unfold sendUpdate.
    destruct (send_sameTransports (updateFrame ch data) w)
      as [(Hs & Ht & _) ->]. auto.
  - injection Hstep as <-. unfold sendDelete.
    destruct (send_sameTransports (deleteFrame ch keys) w)
      as [(Hs & Ht & _) ->]. auto.
  - destruct (stateOf t w) as [[] |]; try discriminate.
    injection Hstep as <-.
    destruct (handleMessage_sameTransports data w) as [(Hs & Ht & _) _].
    repeat split; try assumption; destruct w as [[] []]; run_method.
Qed.

Lemma single_same (w w' : world) :
  sockets (env w') = sockets (env w) ->
  timers (env w') = timers (env w) ->
  ws (this w') = ws (this w) ->
  connected (this w') = connected (this w) ->
  single w -> single w'.
Proof.
  intros Hs Ht Hws Hc [H1 H2 H3 H4 H5].
  constructor; unfold stateOf in *; rewrite ?Hs, ?Ht, ?Hws, ?Hc; assumption.
Qed.

Lemma alive_open_or_connecting (s : readyState) :
  s = CONNECTING \/ s = OPEN -> alive s = true.
Proof. now intros [-> | ->]. Qed.

Lemma step_single (e : event) (w w' : world) :
  e <> callConnect -> single w -> step e w = Some w' -> single w'.
Proof.
  intros Hne Hw Hstep.
  pose proof (step_leaves_connection e w w' Hstep) as Hleave.
  destruct e; try congruence;
    try (destruct Hleave as (Hs & Ht & Hws & Hc);
         now apply (single_same w w')).
  - (* close() *)
    simpl in Hstep. injection Hstep as <-. unfold close.
    destruct (ws (this w)) as [t |] eqn:Hws; [| exact Hw].
    set (closing := fun k : socket =>
                      match state k with
                      | CONNECTING | OPEN => setState CLOSING k
                      | _ => k
                      end).
    set (w1 := setSockets (adjust t closing (sockets (env w))) w).
    assert (Hst : forall t', stateOf t'
                    (setSubscribers []
                       (setWebsocketId None
                          (setConnected false (setWs None w1)))) =
                  stateOf t' w1)
      by (intro; subst w1; now destruct w as [[] []]).
    assert (Hst1 : forall t' s, stateOf t' w1 = Some s ->
                     exists s0, stateOf t' w = Some s0 /\
                                alive s0 = alive s /\
                                (s = CONNECTING \/ s = OPEN -> s0 = s /\ t' <> t)).
    { intros t' s. subst w1. rewrite stateOf_adjust.
      destruct (Nat.eqb_spec t t') as [<- | Hd].
      - unfold stateOf. destruct (nth_error (sockets (env w)) t) as [k |];
          [| discriminate].
        simpl. intro H. injection H as <-. exists (state k).
        split; [reflexivity |]. subst closing. cbv beta.
        destruct (state k) eqn:Hk; simpl; rewrite ?Hk;
          (split; [reflexivity | intros [? | ?]; discriminate]).
      - intro H. exists s. repeat split; auto. }
    destruct Hw as [H1 H2 H3 H4 H5].
    constructor.
    + intros a b s s' Ha Hb Hsa Hsb. rewrite Hst in Ha, Hb.
      destruct (Hst1 a s Ha) as (sa & Ha0 & Haa & _).
      destruct (Hst1 b s' Hb) as (sb & Hb0 & Hbb & _).
      apply (H1 a b sa sb); congruence.
    + intros i j d d'. replace (timers (env _)) with (timers (env w))
        by (subst w1; now destruct w as [[] []]).
      apply H2.
    + intros a s i d Ha Hsa. rewrite Hst in Ha.
      destruct (Hst1 a s Ha) as (sa & Ha0 & Haa & _).
      replace (timers (env _)) with (timers (env w))
        by (subst w1; now destruct w as [[] []]).
      apply (H3 a sa i d); congruence.
    + intros a Ha. rewrite Hst in Ha. exfalso.
      destruct Ha as [Ha | Ha];
        destruct (Hst1 a _ Ha) as (sa & Ha0 & _ & Hsame);
        destruct Hsame as [-> Hd]; auto;
        specialize (H4 a); rewrite Ha0 in H4;
        assert (Some t = Some a) by (rewrite <- Hws; apply H4; auto);
        congruence.
    + subst w1. destruct w as [[] []]. cbn. discriminate.
  - (* a transport opens *)
    simpl in Hstep.
    destruct (stateOf t w) as [[] |] eqn:Hstate; try discriminate.
    injection Hstep as <-.
    set (w1 := setSockets (adjust t (setState OPEN) (sockets (env w))) w).
    assert (Hst : forall t',
               stateOf t'
                 (resolve t
                    (setReconnectAttempts 0
                       (setConnected true (log "WebSocket connected" w1)))) =
               if Nat.eqb t t' then Some OPEN else stateOf t' w).
    { intro t'. rewrite stateOf_resolve.
      transitivity (stateOf t' w1);
        [subst w1; now destruct w as [[] []] |].
      subst w1. rewrite stateOf_adjust.
      destruct (Nat.eqb t t'); [| reflexivity].
      unfold stateOf in Hstate.
      now destruct (nth_error (sockets (env w)) t). }
    assert (Htm : timers
                    (env
                       (resolve t
                          (setReconnectAttempts 0
                             (setConnected true
                                (log "WebSocket connected" w1))))) =
                  timers (env w))
      by (rewrite resolve_timers; subst w1; now destruct w as [[] []]).
    assert (Hthis : this
                      (resolve t
                         (setReconnectAttempts 0
                            (setConnected true
                               (log "WebSocket connected" w1)))) =
                    this (setReconnectAttempts 0 (setConnected true w)))
      by (rewrite this_resolve; subst w1; now destruct w as [[] []]).
    assert (Hwsw : ws (this w) = Some t)
      by (apply Hw; left; exact Hstate).
    destruct Hw as [H1 H2 H3 H4 H5].
    constructor; rewrite ?Htm, ?Hthis.
    + intros a b s s' Ha Hb Hsa Hsb. rewrite Hst in Ha, Hb.
      destruct (Nat.eqb_spec t a) as [<- | Hta];
        destruct (Nat.eqb_spec t b) as [<- | Htb]; try reflexivity.
      * apply (H1 t b CONNECTING s'); auto.
      * apply (H1 a t s CONNECTING); auto.
      * apply (H1 a b s s'); auto.
    + exact H2.
    + intros a s i d Ha Hsa. rewrite Hst in Ha.
      destruct (Nat.eqb_spec t a) as [<- | Hta].
      * apply (H3 t CONNECTING i d); auto.
      * apply (H3 a s i d); auto.
    + intros a Ha. rewrite !Hst in Ha.
      replace (ws (this (setReconnectAttempts 0 (setConnected true w))))
        with (ws (this w)) by (now destruct w as [[] []]).
      destruct (Nat.eqb_spec t a) as [E | Hta];
        [now rewrite <- E | now apply H4].
    + intros _. exists t.
      replace (ws (this (setReconnectAttempts 0 (setConnected true w))))
        with (ws (this w)) by (now destruct w as [[] []]).
      split; [exact Hwsw |]. now rewrite Hst, Nat.eqb_refl.
  - (* an error *)
    simpl in Hstep.
    set (failed := fun k : socket =>
                     match state k with
                     | CONNECTING => setState CLOSING k
                     | _ => k
                     end) in Hstep.
    set (w1 := setSockets (adjust t failed (sockets (env w))) w) in Hstep.
    assert (Hw' : w' = reject t (log "WebSocket error" w1))
      by (destruct (stateOf t w) as [[] |]; congruence).
    clear Hstep. subst w'.
    assert (Hst1 : forall t' s,
               stateOf t' (reject t (log "WebSocket error" w1)) = Some s ->
               exists s0, stateOf t' w = Some s0 /\
                          alive s0 = alive s /\
                          (s = CONNECTING \/ s = OPEN -> s0 = s)).
    { intros t' s. rewrite stateOf_reject.
      replace (stateOf t' (log "WebSocket error" w1)) with (stateOf t' w1)
        by (subst w1; now destruct w as [[] []]).
      subst w1. rewrite stateOf_adjust.
      destruct (Nat.eqb_spec t t') as [<- | Hd].
      - unfold stateOf. destruct (nth_error (sockets (env w)) t) as [k |];
          [| discriminate].
        simpl. intro H. injection H as <-. exists (state k).
        split; [reflexivity |]. subst failed. cbv beta.
        destruct (state k) eqn:Hk; simpl; rewrite ?Hk;
          (split; [reflexivity | intros [? | ?]; congruence]).
      - intro H. exists s. repeat split; auto. }
    assert (Htm : timers (env (reject t (log "WebSocket error" w1))) =
                  timers (env w))
      by (rewrite timers_reject; subst w1; now destruct w as [[] []]).
    assert (Hthis : this (reject t (log "WebSocket error" w1)) = this w)
      by (rewrite this_reject; subst w1; now destruct w as [[] []]).
    destruct Hw as [H1 H2 H3 H4 H5].
    constructor; rewrite ?Htm, ?Hthis.
    + intros a b s s' Ha Hb Hsa Hsb.
      destruct (Hst1 a s Ha) as (sa & Ha0 & Haa & _).
      destruct (Hst1 b s' Hb) as (sb & Hb0 & Hbb & _).
      apply (H1 a b sa sb); congruence.
    + exact H2.
    + intros a s i d Ha Hsa.
      destruct (Hst1 a s Ha) as (sa & Ha0 & Haa & _).
      apply (H3 a sa i d); congruence.
    + intros a Ha. apply H4.
      destruct Ha as [Ha | Ha];
        destruct (Hst1 a _ Ha) as (sa & Ha0 & _ & Hsame);
        rewrite Ha0; [left | right]; f_equal; apply Hsame; auto.
    + intro Hc. destruct (H5 Hc) as (t0 & Hws & Hopen).
      exists t0. split; [exact Hws |].
      rewrite stateOf_reject.
      replace (stateOf t0 (log "WebSocket error" w1)) with (stateOf t0 w1)
        by (subst w1; now destruct w as [[] []]).
      subst w1. rewrite stateOf_adjust.
      destruct (Nat.eqb_spec t t0) as [<- | _]; [| exact Hopen].
      unfold stateOf in Hopen.
      destruct (nth_error (sockets (env w)) t) as [k |]; [| discriminate].
      simpl in *. subst failed. cbv beta. injection Hopen as Hk.
      rewrite Hk. now f_equal.
  - (* a transport closes *)
    simpl in Hstep.
    set (w1 := setSockets (adjust t (setState CLOSED) (sockets (env w))) w)
      in Hstep.
    set (w4 := setWebsocketId None
                 (setConnected false (log "WebSocket closed" w1))) in Hstep.
    assert (Halive : exists s, stateOf t w = Some s /\ alive s = true)
      by (destruct (stateOf t w) as [[] |]; try discriminate; eauto).
    assert (Hw' : w' = attemptReconnect w4)
      by (destruct (stateOf t w) as [[] |]; congruence).
    clear Hstep. subst w'. destruct Halive as (s0 & Hs0 & Has0).
    assert (Hst : forall t',
               stateOf t' (attemptReconnect w4) =
               if Nat.eqb t t' then Some CLOSED else stateOf t' w).
    { intro t'. unfold stateOf at 1. rewrite sockets_attemptReconnect.
      transitivity (stateOf t' w1);
        [subst w4 w1; now destruct w as [[] []] |].
      subst w1. rewrite stateOf_adjust.
      destruct (Nat.eqb t t'); [| reflexivity].
      unfold stateOf in Hs0.
      now destruct (nth_error (sockets (env w)) t). }
    assert (Hdead : forall a s, stateOf a (attemptReconnect w4) = Some s ->
                                alive s = true -> False).
    { intros a s Ha Hsa. rewrite Hst in Ha.
      destruct (Nat.eqb_spec t a) as [<- | Hta];
        [injection Ha as <-; discriminate |].
      apply Hta. apply (one_transport w Hw t a s0 s); auto. }
    assert (Htm : timers (env (attemptReconnect w4)) = timers (env w) \/
                  exists d, timers (env (attemptReconnect w4)) =
                            timers (env w) ++ [mkTimer d false]).
    { subst w4 w1. unfold attemptReconnect. destruct w as [[] []].
      cbn -[Z.mul Z.pow Z.add Z.sub]. destruct (_ >=? _);
        cbn -[Z.mul Z.pow Z.add Z.sub]; eauto. }
    assert (Hnone : forall i d,
               nth_error (timers (env w)) i = Some (mkTimer d false) -> False)
      by (intros i d; apply (transport_or_timer w Hw t s0 i d); auto).
    constructor.
    + intros a b s s' Ha _ Hsa _. exfalso. exact (Hdead a s Ha Hsa).
    + assert (Hnew : forall i d,
                 nth_error (timers (env (attemptReconnect w4))) i =
                 Some (mkTimer d false) ->
                 i = List.length (timers (env w))).
      { intros i d Hi. destruct Htm as [Htm | (d0 & Htm)]; rewrite Htm in Hi.
        - exfalso. exact (Hnone i d Hi).
        - destruct (Nat.lt_ge_cases i (List.length (timers (env w))))
            as [Hlt | Hge].
          + rewrite nth_error_app1 in Hi by exact Hlt.
            exfalso. exact (Hnone i d Hi).
          + assert (i < List.length (timers (env w) ++ [mkTimer d0 false]))%nat
              by (apply nth_error_Some; congruence).
            rewrite length_app in H. simpl in H. lia. }
      intros i j d d' Hi Hj.
      rewrite (Hnew i d Hi), (Hnew j d' Hj). reflexivity.
    + intros a s i d Ha Hsa _. exact (Hdead a s Ha Hsa).
    + intros a Ha. exfalso.
      destruct Ha as [Ha | Ha]; exact (Hdead a _ Ha eq_refl).
    + replace (connected (this (attemptReconnect w4))) with false;
        [discriminate |].
      subst w4 w1. unfold attemptReconnect. destruct w as [[] []].
      cbn -[Z.mul Z.pow Z.add Z.sub]. now destruct (_ >=? _).
  - (* the reconnection timer fires *)
    simpl in Hstep.
    destruct (nth_error (timers (env w)) i) as [[d []] |] eqn:Hi;
      try discriminate.
    injection Hstep as <-.
    set (n := List.length (sockets (env w))).
    assert (Hnone : forall a s, stateOf a w = Some s -> alive s = true -> False)
      by (intros a s Ha Hsa;
          exact (transport_or_timer w Hw a s i d Ha Hsa Hi)).
    assert (Hst : forall a s,
               stateOf a
                 (connect ReconnectTimer
                    (setTimers
                       (adjust i (fun _ => mkTimer d true) (timers (env w)))
                       w)) = Some s ->
               alive s = true -> a = n /\ s = CONNECTING).
    { intros a s Ha Hsa. unfold stateOf, connect in Ha.
      destruct w as [[] []]. cbn in Ha, n, Hnone.
      destruct (Nat.lt_ge_cases a n) as [Hlt | Hge].
      - rewrite nth_error_app1 in Ha by exact Hlt.
        exfalso. exact (Hnone a s Ha Hsa).
      - assert (a < List.length (sockets0 ++ [mkSocket CONNECTING ReconnectTimer Pending]))%nat
          by (apply nth_error_Some; intro H; rewrite H in Ha; discriminate).
        rewrite length_app in H. simpl in H.
        assert (a = n) by (subst n; lia). subst a. split; [reflexivity |].
        subst n. rewrite nth_error_app2, Nat.sub_diag in Ha by lia.
        now injection Ha. }
    assert (Hfired : forall j d',
               nth_error
                 (timers
                    (env
                       (connect ReconnectTimer
                          (setTimers
                             (adjust i (fun _ => mkTimer d true)
                                (timers (env w))) w)))) j =
               Some (mkTimer d' false) -> False).
    { intros j d' Hj.
      replace (timers (env (connect ReconnectTimer _)))
        with (adjust i (fun _ : timer => mkTimer d true) (timers (env w)))
        in Hj by (now destruct w as [[] []]).
      destruct (Nat.eq_dec i j) as [<- | Hij].
      - rewrite nth_error_adjust_same, Hi in Hj. discriminate.
      - rewrite nth_error_adjust_other in Hj by exact Hij.
        apply Hij. exact (one_timer w Hw i j d d' Hi Hj). }
    constructor.
    + intros a b s s' Ha Hb Hsa Hsb.
      destruct (Hst a s Ha Hsa) as [Ea _].
      destruct (Hst b s' Hb Hsb) as [Eb _]. congruence.
    + intros j j' d1 d2 Hj _. exfalso. exact (Hfired j d1 Hj).
    + intros a s j d' _ _ Hj. exact (Hfired j d' Hj).
    + intros a Ha.
      assert (a = n)
        by (destruct Ha as [Ha | Ha]; exact (proj1 (Hst a _ Ha eq_refl))).
      subst a n. now destruct w as [[] []].
    + intro Hc. exfalso.
      assert (Hcw : connected (this w) = true)
        by (destruct w as [[] []]; exact Hc).
      destruct (connected_open w Hw Hcw) as (t0 & _ & Hopen).
      exact (Hnone t0 OPEN Hopen eq_refl).
Qed.

Lemma run_single (trace : list event) :
  forall w w',
    callsConnect trace = false -> single w -> run trace w = Some w' ->
    single w'.
Proof.
  induction trace as [| e trace IH]; intros w w' Hno Hw Hrun; simpl in Hrun.
  - now injection Hrun as <-.
  - destruct (step e w) as [w1 |] eqn:Hstep; [| discriminate].
    simpl in Hno. apply orb_false_iff in Hno as [He Hno].
    apply (IH w1 w' Hno); [| exact Hrun].
    apply (step_single e w w1); [| exact Hw | exact Hstep].
    intros ->. discriminate.
Qed.

Lemma single_first_connect : single (connect Application initial).
Proof.
  constructor; unfold stateOf; cbn.
  - intros [| [| t]] [| [| t']] s s'; cbn; try reflexivity; discriminate.
  - intros [| i]; discriminate.
  - intros t s [| i]; discriminate.
  - intros [| [| t]]; cbn; intros [H | H]; try reflexivity; discriminate.
  - discriminate.
Qed.

Lemma send_returns (m : frame) (w : world) :
  (connected (this w) = true ->
   exists t, ws (this w) = Some t /\ stateOf t w = Some OPEN) ->
  send m w = Return tt (worldOf (send m w)).
Proof.
  intro H. unfold send, socketSend, stateOf in *.
  destruct (ws (this w)) as [t |]; [| reflexivity].
  destruct (connected (this w)); [| reflexivity].
  destruct (H eq_refl) as (t0 & Ht0 & Hopen). injection Ht0 as <-.
  destruct (nth_error (sockets (env w)) t) as [k |]; [| reflexivity].
  simpl in Hopen. injection Hopen as ->. reflexivity.
Qed.

Lemma subscribe_returns (ch : channel) (cb : callback) (w : world) :
  (connected (this w) = true ->
   exists t, ws (this w) = Some t /\ stateOf t w = Some OPEN) ->
  subscribe ch cb w = Return (ch, cb) (worldOf (subscribe ch cb w)).
Proof.
  intro H. unfold subscribe, bind, modify, ret, subscribeToChannels.
  destruct (negb (Map.has ch (subscribers (this w)))); [| reflexivity].
  rewrite send_returns; [reflexivity |].
  destruct w as [[] []]. exact H.
Qed.

(** One connection at a time.  When the application calls
    [connect()] once, then whatever follows (subscriptions, sends,
    messages, errors, losses, the reconnection timers firing,
    [close()]), at most one transport is not closed, at most one
    reconnection timer is pending, and never both; a transport that
    is connecting or open is the one [this.ws] refers to; and
    whenever [this.connected] is set, [this.ws] is an open transport.
    Hence [send] and [subscribe] never throw, and a transport that
    opens is the handle, on which the re-subscription goes out. *)
Theorem one_connection_at_a_time (trace : list event) (w : world) :
  callsConnect trace = false ->
  run (callConnect :: trace) initial = Some w ->
  single w /\
  (connected (this w) = true ->
   exists t, ws (this w) = Some t /\ openHandle w = Some t) /\
  (forall m, send m w = Return tt (worldOf (send m w))) /\
  (forall ch cb,
     subscribe ch cb w = Return (ch, cb) (worldOf (subscribe ch cb w))) /\
  (forall t w',
     step (onopen t) w = Some w' ->
     ws (this w) = Some t /\ openHandle w' = Some t).
Proof.
  intros Hno Hrun.
  change (run trace (connect Application initial) = Some w) in Hrun.
  assert (Hw : single w)
    by exact (run_single trace _ w Hno single_first_connect Hrun).
  split; [exact Hw |].
  split.
  { intro Hc. destruct (connected_open w Hw Hc) as (t & Hws & Hopen).
    exists t. split; [exact Hws |].
    unfold openHandle. now rewrite Hws, Hopen, Hc. }
  split; [intro; apply send_returns, Hw |].
  split; [intros; apply subscribe_returns, Hw |].
  intros t w' Hstep.
  assert (Hw' : single w')
    by (apply (step_single (onopen t) w w'); [discriminate | exact Hw | exact Hstep]).
  simpl in Hstep.
  destruct (stateOf t w) as [[] |] eqn:Hstate; try discriminate.
  assert (Hws : ws (this w) = Some t) by (apply Hw; now left).
  split; [exact Hws |].
  injection Hstep as <-.
  assert (Hc : connected
                 (this
                    (resolve t
                       (setReconnectAttempts 0
                          (setConnected true
                             (log "WebSocket connected"
                                (setSockets
                                   (adjust t (setState OPEN)
                                      (sockets (env w))) w)))))) = true)
    by (rewrite this_resolve; now destruct w as [[] []]).
  destruct (connected_open _ Hw' Hc) as (t0 & Hws0 & Hopen).
  unfold openHandle. rewrite Hws0, Hopen, Hc. rewrite <- Hws0.
  rewrite this_resolve. destruct w as [[] []]. exact Hws.
Qed.

Lemma one_connection_at_a_time_witness :
  exists w,
    run [callConnect; onopen 0%nat; callSubscribe "main:orders" 7%nat;
         onclose 0%nat; timeout 0%nat; onopen 1%nat] initial = Some w /\
    openHandle w = Some 1%nat /\
    wire (env w) =
      [(0%nat, subscribeFrame ["main:orders"]);
       (1%nat, subscribeFrame ["main:orders"])].
Proof.
  assert (H : exists w,
             run [callConnect; onopen 0%nat;
                  callSubscribe "main:orders" 7%nat;
                  onclose 0%nat; timeout 0%nat; onopen 1%nat] initial = Some w)
    by (eexists; vm_compute; reflexivity).
  destruct H as [w Hw]. exists w. split; [exact Hw |].
  destruct (one_connection_at_a_time
              [onopen 0%nat; callSubscribe "main:orders" 7%nat;
               onclose 0%nat; timeout 0%nat; onopen 1%nat] w eq_refl Hw)
    as (_ & Hopen & _).
  vm_compute in Hw. injection Hw as <-. split; reflexivity.
Defined.

Lemma close_does_not_stop_reconnection_witness :
  exists w w2,
    reachable w /\
    step (onclose 0%nat) (close w) = Some w2 /\
    subscribers (this (close w)) = [] /\
    scheduled w2 = [1000].
Proof.
  assert (H : exists w,
             run [callConnect; onopen 0%nat;
                  callSubscribe "main:orders" 7%nat] initial = Some w)
    by (eexists; vm_compute; reflexivity).
  destruct H as [w Hw].
  assert (Hreach : reachable w)
    by exact (run_reachable _ _ _ reachable_initial Hw).
  assert (Hws : ws (this w) = Some 0%nat)
    by (vm_compute in Hw; now injection Hw as <-).
  assert (Hst : stateOf 0%nat w = Some OPEN \/
                stateOf 0%nat w = Some CONNECTING)
    by (left; vm_compute in Hw; now injection Hw as <-).
  destruct (close_does_not_stop_reconnection w 0%nat Hreach Hws Hst)
    as ((Hsub & _) & w2 & Hstep & _ & Hsched & _).
  exists w, w2. split; [exact Hreach |]. split; [exact Hstep |].
  split; [exact Hsub |].
  rewrite Hsched. vm_compute in Hw. injection Hw as <-. reflexivity.
Defined.

End RegistryFacts.

(* ================================================================== *)
(** ** Business days *)
(* ================================================================== *)

Module DateFacts.
Import DateUtils DateNotions.
Local Open Scope list_scope.

(** The ISO dates and the week days of some days: the epoch (a
    Thursday), the day before it, two leap days, the first day of the
    year 0, the last day with a year of four digits and the first one
    after it, and the two ends of the range of time values. *)
Lemma isoDateOf_examples :
  map (fun day => (isoDateOf (day * msPerDay), getUTCDay (day * msPerDay)))
      [0; -1; 19782; 11016; -719528; 2932896; 2932897; 100000000;
       -100000000] =
  [("1970-01-01", 4); ("1969-12-31", 3); ("2024-02-29", 4);
   ("2000-02-29", 2); ("0000-01-01", 6); ("9999-12-31", 5);
   ("+010000-01-01", 6); ("+275760-09-13", 6); ("-271821-04-20", 2)].
Proof. vm_compute. reflexivity. Qed.

Lemma Day_midnight (d : Z) : Day (d * msPerDay) = d.
Proof. unfold Day, msPerDay. now rewrite Z.div_mul. Qed.

Lemma daysFrom_succ (d : Z) (n : nat) :
  daysFrom d (S n) = d :: daysFrom (d + 1) n.
Proof.
  unfold daysFrom. simpl. f_equal; [lia |].
  rewrite <- seq_shift, map_map. apply map_ext. intro i. lia.
Qed.

Lemma midnight_valid (t : Z) :
  valid t ->
  setUTCHours (Some t) 0 0 0 0 = Some (Day t * msPerDay) /\
  -100000000 <= Day t <= 100000000.
Proof.
  unfold valid, setUTCHours, TimeClip, Day, msPerDay. intro H.
  assert (Hd : -100000000 <= t / 86400000 <= 100000000)
    by (Z.div_mod_to_equations; lia).
  split; [| exact Hd].
  replace (t / 86400000 * 86400000 + (0 * 3600000 + 0 * 60000 + 0 * 1000 + 0))
    with (t / 86400000 * 86400000) by lia.
  destruct (Z.leb_spec (Z.abs (t / 86400000 * 86400000)) 8640000000000000);
    [reflexivity | lia].
Qed.

(** The day of the month plus one: the time value moves ahead by one
    day. *)
Lemma setUTCDate_next (t : Z) :
  setUTCDate (Some t) (getUTCDate t + 1) = TimeClip (t + msPerDay).
Proof.
  unfold setUTCDate. f_equal.
  pose proof (Z.div_mod t msPerDay ltac:(unfold msPerDay; lia)) as H.
  unfold Day. lia.
Qed.

Lemma countLoop_counts (h : list string) (last : Z) (n : nat) :
  forall d acc fuel,
    -100000000 <= d -> last <= 100000000 ->
    d + Z.of_nat n = last + 1 -> (n < fuel)%nat ->
    countLoop fuel (Some (d * msPerDay)) (Some (last * msPerDay)) h acc =
    Some (acc + Z.of_nat (List.length (filter (workingDay h) (daysFrom d n)))).
Proof.
  induction n as [| n IH]; intros d acc fuel Hd Hlast Hn Hfuel;
    (destruct fuel as [| fuel]; [lia |]); cbn [countLoop leq].
  - destruct (Z.leb_spec (d * msPerDay) (last * msPerDay)) as [H | _];
      [unfold msPerDay in H; lia |].
    cbn. f_equal. lia.
  - destruct (Z.leb_spec (d * msPerDay) (last * msPerDay)) as [_ | H];
      [| unfold msPerDay in H; lia].
    rewrite daysFrom_succ. cbn [filter].
    change (negb (getUTCDay (d * msPerDay) =? 0) &&
            negb (getUTCDay (d * msPerDay) =? 6) &&
            negb (has (isoDateOf (d * msPerDay)) h))
      with (workingDay h d).
    set (acc' := if workingDay h d then acc + 1 else acc).
    assert (Hacc : forall k : nat,
               acc' + Z.of_nat k =
               acc + Z.of_nat
                       (List.length
                          (if workingDay h d then d :: repeat 0 k
                           else repeat 0 k))).
    { intro k. subst acc'. destruct (workingDay h d); cbn [List.length];
        rewrite repeat_length; lia. }
    rewrite setUTCDate_next. unfold TimeClip.
    destruct (Z.leb_spec (Z.abs (d * msPerDay + msPerDay)) 8640000000000000)
      as [Hin | Hout].
    + replace (d * msPerDay + msPerDay) with ((d + 1) * msPerDay) by lia.
      rewrite IH by lia.
      f_equal. subst acc'. destruct (workingDay h d); cbn [List.length]; lia.
    + assert (n = 0%nat) by (unfold msPerDay in Hout; lia). subst n.
      destruct fuel as [| fuel]; [lia |]. cbn.
      f_equal. subst acc'. destruct (workingDay h d); cbn; lia.
Qed.

Lemma count_valid (s e : Z) (holidaySet : list string) (fuel : nat) :
  valid s -> valid e -> (span s e < fuel)%nat ->
  calculateBusinessDays fuel (Some s) (Some e) holidaySet =
  Some (Z.of_nat
          (List.length
             (filter (workingDay holidaySet) (daysFrom (Day s) (span s e))))).
Proof.
  intros Hs He Hfuel. unfold calculateBusinessDays.
  destruct (midnight_valid s Hs) as [-> Hds].
  destruct (midnight_valid e He) as [-> Hde].
  destruct (Z.le_gt_cases (Day s) (Day e + 1)) as [Hle | Hgt].
  - rewrite (countLoop_counts holidaySet (Day e) (span s e));
      try lia; [reflexivity | unfold span; lia].
  - replace (span s e) with 0%nat by (unfold span; lia).
    destruct fuel as [| fuel]; [lia |]. cbn [countLoop leq].
    destruct (Z.leb_spec (Day s * msPerDay) (Day e * msPerDay)) as [H | _];
      [unfold msPerDay in H; lia | reflexivity].
Qed.

(** [calculateBusinessDays] ends and counts.  For two valid time
    values the loop ends within one round per day of the span, and
    the result is the number of days, from the UTC day of the start
    to the UTC day of the end, both included, that are neither a
    Saturday nor a Sunday nor a date of the holiday set.  An end on
    an earlier day than the start gives zero; the time of day of the
    two arguments does not matter; and an Invalid Date as start or as
    end gives zero. *)
Theorem calculateBusinessDays_counts
  (s e : Z) (holidaySet : list string) (fuel : nat) :
  valid s -> valid e -> (span s e < fuel)%nat ->
  calculateBusinessDays fuel (Some s) (Some e) holidaySet =
    Some (Z.of_nat
            (List.length
               (filter (workingDay holidaySet) (daysFrom (Day s) (span s e))))) /\
  (Day e < Day s ->
   calculateBusinessDays fuel (Some s) (Some e) holidaySet = Some 0) /\
  (forall s' e',
     valid s' -> valid e' -> Day s' = Day s -> Day e' = Day e ->
     calculateBusinessDays fuel (Some s') (Some e') holidaySet =
     calculateBusinessDays fuel (Some s) (Some e) holidaySet) /\
  calculateBusinessDays fuel None (Some e) holidaySet = Some 0 /\
  calculateBusinessDays fuel (Some s) None holidaySet = Some 0.
Proof.
  intros Hs He Hfuel.
  assert (Hcount : forall s' e',
             valid s' -> valid e' -> (span s' e' < fuel)%nat ->
             calculateBusinessDays fuel (Some s') (Some e') holidaySet =
             Some (Z.of_nat
                     (List.length
                        (filter (workingDay holidaySet)
                           (daysFrom (Day s') (span s' e'))))))
    by (intros; now apply count_valid).
  split; [now apply Hcount |].
  split.
  { intro Hlt. rewrite Hcount by assumption.
    replace (span s e) with 0%nat by (unfold span; lia). reflexivity. }
  split.
  { intros s' e' Hs' He' Hds Hde.
    assert (Hspan : span s' e' = span s e) by (unfold span; congruence).
    rewrite !Hcount by (try assumption; lia).
    now rewrite Hspan, Hds. }
  unfold calculateBusinessDays.
  destruct fuel as [| fuel]; [lia |]. split; [reflexivity |].
  destruct (midnight_valid s Hs) as [-> _]. reflexivity.
Qed.

Lemma calculateBusinessDays_counts_witness :
  valid 1704067207000 /\ valid 1706659200000 /\
  calculateBusinessDays 40 (Some 1704067207000) (Some 1706659200000)
    ["2024-01-01"; "2024-01-15"] = Some 21.
Proof.
  assert (Hs : valid 1704067207000) by (unfold valid; lia).
  assert (He : valid 1706659200000) by (unfold valid; lia).
  assert (Hf : (span 1704067207000 1706659200000 < 40)%nat)
    by (vm_compute; lia).
  destruct (calculateBusinessDays_counts 1704067207000 1706659200000
              ["2024-01-01"; "2024-01-15"] 40 Hs He Hf) as (Hc & _).
  split; [exact Hs |]. split; [exact He |].
  rewrite Hc. vm_compute. reflexivity.
Defined.

Lemma WeekDay_midnight (d : Z) : WeekDay (d * msPerDay) = (d + 4) mod 7.
Proof. unfold WeekDay. now rewrite Day_midnight. Qed.

Lemma workingDay_no_holidays (d : Z) :
  workingDay [] d =
  negb ((d + 4) mod 7 =? 0) && negb ((d + 4) mod 7 =? 6).
Proof.
  unfold workingDay. cbv zeta. rewrite WeekDay_midnight.
  unfold has. cbn [existsb negb]. apply andb_true_r.
Qed.

Lemma filter_weekday (l : list Z) :
  filter (workingDay []) l =
  filter (fun d => negb ((d + 4) mod 7 =? 0) && negb ((d + 4) mod 7 =? 6)) l.
Proof. apply filter_ext. intro d. apply workingDay_no_holidays. Qed.

Lemma week_count (d : Z) :
  List.length (filter (workingDay []) (daysFrom d 7)) = 5%nat.
Proof.
  unfold daysFrom. cbn [seq map]. rewrite filter_weekday.
  cbn [filter]. cbv beta.
  replace (d + Z.of_nat 0 + 4) with (d + 4) by lia.
  replace (d + Z.of_nat 1 + 4) with (d + 4 + 1) by lia.
  replace (d + Z.of_nat 2 + 4) with (d + 4 + 2) by lia.
  replace (d + Z.of_nat 3 + 4) with (d + 4 + 3) by lia.
  replace (d + Z.of_nat 4 + 4) with (d + 4 + 4) by lia.
  replace (d + Z.of_nat 5 + 4) with (d + 4 + 5) by lia.
  replace (d + Z.of_nat 6 + 4) with (d + 4 + 6) by lia.
  rewrite <- !(Zplus_mod_idemp_l (d + 4)).
  pose proof (Z.mod_pos_bound (d + 4) 7 ltac:(lia)) as Hr.
  set (r := (d + 4) mod 7) in *.
  assert (Hcases : r = 0 \/ r = 1 \/ r = 2 \/ r = 3 \/ r = 4 \/ r = 5 \/
                   r = 6) by lia.
  clearbody r.
  destruct Hcases as [-> | [-> | [-> | [-> | [-> | [-> | ->]]]]]];
    reflexivity.
Qed.

(** Seven days in a row hold five business days: without holidays,
    from any valid instant to the instant six days later the count
    is 5, on whatever day of the week and at whatever time of day the
    span starts. *)
Theorem seven_days_hold_five_business_days (s : Z) (fuel : nat) :
  valid s -> valid (s + 6 * msPerDay) -> (7 < fuel)%nat ->
  calculateBusinessDays fuel (Some s) (Some (s + 6 * msPerDay)) [] = Some 5.
Proof.
  intros Hs He Hfuel.
  assert (Hday : Day (s + 6 * msPerDay) = Day s + 6)
    by (unfold Day, msPerDay; now rewrite Z.div_add).
  assert (Hspan : span s (s + 6 * msPerDay) = 7%nat)
    by (unfold span; rewrite Hday; lia).
  rewrite count_valid by (try assumption; lia).
  now rewrite Hspan, week_count.
Qed.

Lemma seven_days_hold_five_business_days_witness :
  valid 1704067207000 /\ valid (1704067207000 + 6 * msPerDay) /\
  calculateBusinessDays 8 (Some 1704067207000)
    (Some (1704067207000 + 6 * msPerDay)) [] = Some 5.
Proof.
  assert (Hs : valid 1704067207000) by (unfold valid; lia).
  assert (He : valid (1704067207000 + 6 * msPerDay))
    by (unfold valid, msPerDay; lia).
  assert (Hf : (7 < 8)%nat) by lia.
  exact (conj Hs (conj He
           (seven_days_hold_five_business_days 1704067207000 8 Hs He Hf))).
Defined.

Lemma has_subset (x : string) (h h' : list string) :
  (forall y, In y h -> In y h') -> has x h = true -> has x h' = true.
Proof.
  unfold has. intros Hsub H.
  apply existsb_exists in H as (y & Hy & Heq).
  apply existsb_exists. exists y. auto.
Qed.

Lemma filter_fewer {A : Type} (p q : A -> bool) (l : list A) :
  (forall x, q x = true -> p x = true) ->
  (List.length (filter q l) <= List.length (filter p l) <= List.length l)%nat.
Proof.
  intro H. induction l as [| x l IH]; simpl; [lia |].
  destruct (q x) eqn:Hq.
  - rewrite (H x Hq). simpl. lia.
  - destruct (p x); simpl; lia.
Qed.

(** Holidays only lower the count: with more dates in the holiday
    set the result is the same or smaller; it is never negative and
    never more than the number of days of the span. *)
Theorem holidays_only_lower_the_count
  (s e : Z) (h h' : list string) (fuel : nat) :
  valid s -> valid e -> (span s e < fuel)%nat ->
  (forall x, In x h -> In x h') ->
  exists n n',
    calculateBusinessDays fuel (Some s) (Some e) h = Some n /\
    calculateBusinessDays fuel (Some s) (Some e) h' = Some n' /\
    0 <= n' <= n /\ n <= Z.of_nat (span s e).
Proof.
  intros Hs He Hfuel Hsub. rewrite !count_valid by assumption.
  eexists. eexists. split; [reflexivity |]. split; [reflexivity |].
  assert (Hle := filter_fewer (workingDay h) (workingDay h')
                   (daysFrom (Day s) (span s e))).
  assert (Hlen : List.length (daysFrom (Day s) (span s e)) = span s e)
    by (unfold daysFrom; now rewrite length_map, length_seq).
  rewrite Hlen in Hle.
  assert (Hpt : forall d, workingDay h' d = true -> workingDay h d = true).
  { intro d. unfold workingDay. cbv zeta.
    rewrite !andb_true_iff, !negb_true_iff.
    intros [Hw Hh]. split; [exact Hw |].
    destruct (has _ h) eqn:Hin; [| reflexivity].
    rewrite (has_subset _ h h' Hsub Hin) in Hh. discriminate. }
  specialize (Hle Hpt). lia.
Qed.

Lemma holidays_only_lower_the_count_witness :
  exists n n',
    calculateBusinessDays 40 (Some 1704067207000) (Some 1706659200000)
      ["2024-01-15"] = Some n /\
    calculateBusinessDays 40 (Some 1704067207000) (Some 1706659200000)
      ["2024-01-01"; "2024-01-15"] = Some n' /\
    n = 22 /\ n' = 21.
Proof.
  assert (Hs : valid 1704067207000) by (unfold valid; lia).
  assert (He : valid 1706659200000) by (unfold valid; lia).
  assert (Hf : (span 1704067207000 1706659200000 < 40)%nat)
    by (vm_compute; lia).
  destruct (holidays_only_lower_the_count 1704067207000 1706659200000
              ["2024-01-15"] ["2024-01-01"; "2024-01-15"] 40 Hs He Hf)
    as (n & n' & Hn & Hn' & _).
  { intros x [<- | []]. right. now left. }
  exists n, n'. split; [exact Hn |]. split; [exact Hn' |].
  vm_compute in Hn, Hn'. split; congruence.
Defined.

End DateFacts.

(* ================================================================== *)
(** ** The rows of the orders table *)
(* ================================================================== *)

Module TableFacts.
Import Reconciler OrdersTable TableNotions ReconcilerFacts CollectionFacts.
Local Open Scope list_scope.

Lemma In_insert (cmp : entity -> entity -> Z) (x o : entity)
  (l : list entity) :
  In o (insert cmp x l) <-> o = x \/ In o l.
Proof.
  induction l as [| y l IH]; simpl.
  - split; intros [H | H]; auto.
  - destruct (cmp x y <=? 0); simpl; [split; intros [H | H]; auto |].
    rewrite IH. tauto.
Qed.

Lemma In_sort (cmp : entity -> entity -> Z) (o : entity) (l : list entity) :
  In o (sort cmp l) <-> In o l.
Proof.
  induction l as [| x l IH]; simpl; [tauto |].
  rewrite In_insert, IH. split; intros [H | H]; auto.
Qed.

Lemma length_insert (cmp : entity -> entity -> Z) (x : entity)
  (l : list entity) :
  List.length (insert cmp x l) = S (List.length l).
Proof.
  induction l as [| y l IH]; simpl; [reflexivity |].
  destruct (cmp x y <=? 0); simpl; [reflexivity | now rewrite IH].
Qed.

Lemma length_sort (cmp : entity -> entity -> Z) (l : list entity) :
  List.length (sort cmp l) = List.length l.
Proof.
  induction l as [| x l IH]; simpl; [reflexivity |].
  now rewrite length_insert, IH.
Qed.

Lemma descending_insert (x : entity) (l : list entity) :
  descending l -> (forall y, In y l -> id y <> id x) ->
  descending (insert (fun a b => id b - id a) x l).
Proof.
  induction l as [| y l IH]; simpl; intros Hl Hx; [now split |].
  destruct Hl as [Hy Hl].
  destruct (Z.leb_spec (id y - id x) 0) as [Hle | Hgt]; simpl.
  - assert (id y < id x) by (specialize (Hx y (or_introl eq_refl)); lia).
    repeat split; auto.
    intros z [<- | Hz]; [assumption |]. specialize (Hy z Hz). lia.
  - split.
    + intros z Hz. apply In_insert in Hz as [-> | Hz]; [lia | now apply Hy].
    + apply IH; [exact Hl |]. intros z Hz. apply Hx. now right.
Qed.

Lemma descending_sort (l : list entity) :
  NoDup (map id l) -> descending (sortedOrders l).
Proof.
  unfold sortedOrders.
  induction l as [| x l IH]; simpl; intro H; [exact I |].
  inversion H as [| ? ? Hnot Hl]; subst.
  apply descending_insert; [now apply IH |].
  intros y Hy Heq. apply In_sort in Hy. apply Hnot.
  rewrite <- Heq. now apply in_map.
Qed.

(** Two descending lists with the same records are equal. *)
Lemma descending_unique (l1 : list entity) :
  forall l2,
    descending l1 -> descending l2 -> (forall o, In o l1 <-> In o l2) ->
    l1 = l2.
Proof.
  induction l1 as [| x l1 IH]; intros [| y l2] H1 H2 Hsame.
  - reflexivity.
  - exfalso. apply (Hsame y). now left.
  - exfalso. apply (Hsame x). now left.
  - destruct H1 as [Hx H1]. destruct H2 as [Hy H2].
    assert (Hxy : x = y).
    { destruct (proj1 (Hsame x) (or_introl eq_refl)) as [E | Hin];
        [now symmetry |].
      destruct (proj2 (Hsame y) (or_introl eq_refl)) as [E | Hin'];
        [exact E |].
      specialize (Hy x Hin). specialize (Hx y Hin'). lia. }
    subst y. f_equal. apply IH; try assumption.
    intro o. split; intro Ho.
    + destruct (proj1 (Hsame o) (or_intror Ho)) as [<- | H]; [| exact H].
      specialize (Hx x Ho). lia.
    + destruct (proj2 (Hsame o) (or_intror Ho)) as [<- | H]; [| exact H].
      specialize (Hy x Ho). lia.
Qed.

(** The rows of the orders table.  Whatever messages the reconciler
    has applied, starting from the empty collection, the rows that
    [OrdersTable] renders are the records of the collection, each
    once, in strictly descending order of id (newest first); and the
    rows do not depend on the order in which the collection holds
    its records: a collection with the same records and distinct ids
    renders the same rows. *)
Theorem table_rows_newest_first (ms : list message) :
  let orders := fold_left reconcile ms [] in
  descending (sortedOrders orders) /\
  (forall o, In o (sortedOrders orders) <-> In o orders) /\
  List.length (sortedOrders orders) = List.length orders /\
  (forall orders',
     NoDup (map id orders') -> (forall o, In o orders' <-> In o orders) ->
     sortedOrders orders' = sortedOrders orders).
Proof.
  intro orders.
  assert (Hu : NoDup (map id orders))
    by (apply fold_unique; constructor).
  split; [now apply descending_sort |].
  split; [intro; apply In_sort |].
  split; [apply length_sort |].
  intros orders' Hu' Hsame.
  apply descending_unique; try now apply descending_sort.
  intro o. unfold sortedOrders. rewrite !In_sort. apply Hsame.
Qed.

End TableFacts.

(* ================================================================== *)
(** ** Adding an order *)
(* ================================================================== *)

Module AddOrderFacts.
Import JS WebSocketService ServiceNotions ServiceFacts.
Import RegistryNotions RegistryFacts AddOrder AddOrderNotions.
Local Open Scope list_scope.

Lemma trimStart_first (s : string) (c : ascii) :
  firstChar (trimStart s) = Some c -> isWhiteSpace c = false.
Proof.
  induction s as [| a s IH]; simpl; [discriminate |].
  destruct (isWhiteSpace a) eqn:Ha; [exact IH |].
  simpl. intro H. now injection H as <-.
Qed.

Lemma trimStart_empty (s : string) :
  trimStart s = EmptyString <-> blank s = true.
Proof.
  induction s as [| a s IH]; simpl; [tauto |].
  destruct (isWhiteSpace a); simpl; [exact IH |].
  split; discriminate.
Qed.

Lemma trimEnd_last (s : string) (c : ascii) :
  lastChar (trimEnd s) = Some c -> isWhiteSpace c = false.
Proof.
  induction s as [| a s IH]; simpl; [discriminate |].
  destruct (trimEnd s) as [| b kept] eqn:Hs.
  - destruct (isWhiteSpace a) eqn:Ha; simpl; [discriminate |].
    intro H. now injection H as <-.
  - exact IH.
Qed.

Lemma trimEnd_empty (s : string) :
  trimEnd s = EmptyString <-> blank s = true.
Proof.
  induction s as [| a s IH]; simpl; [tauto |].
  destruct (trimEnd s) as [| b kept].
  - destruct (isWhiteSpace a); simpl; [tauto |]. split; discriminate.
  - split; [discriminate |]. rewrite andb_true_iff. intros [_ H].
    apply IH in H. discriminate.
Qed.

Lemma trimEnd_first (s : string) (c : ascii) :
  firstChar (trimEnd s) = Some c -> firstChar s = Some c.
Proof.
  destruct s as [| a s]; simpl; [discriminate |].
  destruct (trimEnd s); [destruct (isWhiteSpace a) |]; simpl;
    auto; discriminate.
Qed.

Lemma blank_trimStart (s : string) :
  blank (trimStart s) = true -> blank s = true.
Proof.
  induction s as [| a s IH]; simpl; [tauto |].
  destruct (isWhiteSpace a) eqn:Ha; simpl; [exact IH |].
  now rewrite Ha.
Qed.

Lemma trim_empty (s : string) : trim s = EmptyString <-> blank s = true.
Proof.
  unfold trim. rewrite trimEnd_empty. split.
  - apply blank_trimStart.
  - intro H. apply trimStart_empty in H. now rewrite H.
Qed.

(** Submitting the search box.  The handler does not touch the
    fields of the service.  A value that is empty or all white space
    is not passed on: nothing is sent and the input keeps its value.
    Any other value is trimmed and passed through [handleAddOrder]
    and [addOrder] to [sendUpdate]: one [update] frame for channel
    [main:orders] with the trimmed name goes on the wire when the
    service has an open handle, and nothing when it has none; the
    name is not empty and neither starts nor ends with white space;
    and when the flag [connected] implies an open handle the handler
    returns and the input is cleared. *)
Theorem blank_names_are_not_sent (value : string) (w : world) :
  let result := handleSubmit value w in
  let w' := worldOf (snd result) in
  this w' = this w /\
  (blank value = true -> result = (value, Return tt w)) /\
  (blank value = false ->
   wire (env w') =
     wire (env w) ++
     match openHandle w with
     | Some t => [(t, updateFrame "main:orders" [trim value])]
     | None => []
     end /\
   trim value <> EmptyString /\
   (forall c, firstChar (trim value) = Some c -> isWhiteSpace c = false) /\
   (forall c, lastChar (trim value) = Some c -> isWhiteSpace c = false) /\
   ((connected (this w) = true ->
     exists t, ws (this w) = Some t /\ stateOf t w = Some OPEN) ->
    result = (EmptyString, Return tt w'))).
Proof.
  unfold handleSubmit, handleAddOrder, addOrder, sendUpdate.
  assert (Hfirst : forall a, firstChar (trim value) = Some a ->
                             isWhiteSpace a = false).
  { intros a Ha. unfold trim in Ha.
    apply trimEnd_first in Ha. now apply trimStart_first in Ha. }
  assert (Hlast : forall a, lastChar (trim value) = Some a ->
                            isWhiteSpace a = false)
    by (intros a Ha; now apply trimEnd_last in Ha).
  destruct (trim value) as [| c name] eqn:Htrim.
  - cbn. split; [reflexivity |]. split; [reflexivity |].
    intro Hb. apply trim_empty in Htrim. congruence.
  - pose proof (send_sameTransports
                  (updateFrame "main:orders" [String c name]) w) as [_ Hthis].
    pose proof (wire_send (updateFrame "main:orders" [String c name]) w)
      as Hwire.
    assert (Hret : (connected (this w) = true ->
                    exists t, ws (this w) = Some t /\
                              stateOf t w = Some OPEN) ->
                   exists w1,
                     send (updateFrame "main:orders" [String c name]) w =
                     Return tt w1).
    { intro H. eexists. now apply send_returns. }
    destruct (send (updateFrame "main:orders" [String c name]) w)
      as [[] w1 | err w1]; cbn in *.
    + split; [exact Hthis |]. split.
      { intro Hb. apply trim_empty in Hb. congruence. }
      intros _. split; [exact Hwire |]. split; [discriminate |].
      split; [exact Hfirst |]. split; [exact Hlast | reflexivity].
    + split; [exact Hthis |]. split.
      { intro Hb. apply trim_empty in Hb. congruence. }
      intros _. split; [exact Hwire |]. split; [discriminate |].
      split; [exact Hfirst |]. split; [exact Hlast |].
      intro H. destruct (Hret H) as (w2 & Hw2). discriminate.
Qed.

End AddOrderFacts.
